(** * LiteratureManager: citation recognition and placeholder resolution

    A shallow embedding of the citation engine of [literature_manager_v7.py]
    ([smart_parse_authors], [parse_citation], [apa_citation], [replace_ids],
    [insert_refs]) together with the fragment of the Python runtime these
    functions rely on: [str] methods and the backtracking semantics of [re].

    Python 3 strings are sequences of Unicode code points, so a string is a
    list of code points here; the engine never looks at an encoding. *)

From Stdlib Require Import String Ascii DecimalString.
From Stdlib Require DecimalNat.
From Stdlib Require Import Sorted Permutation.
From Stdlib Require Import List NArith Arith Lia Bool.
Import ListNotations.

Set Implicit Arguments.

(** ** Code points and strings *)

Definition char := N.
Definition str := list char.

Definition ch (a : ascii) : char := N_of_ascii a.
Definition lit (s : string) : str := map N_of_ascii (list_ascii_of_string s).
Arguments ch a%_char.
Arguments lit s%_string.

Definition LF : char := 10%N.
Definition TAB : char := 9%N.
Definition SPACE : char := 32%N.
(** U+2013 EN DASH and U+FF1B FULLWIDTH SEMICOLON, the two non-ASCII
    characters of the parser's patterns. *)
Definition EN_DASH : char := 8211%N.
Definition FULLWIDTH_SEMICOLON : char := 65307%N.

Module Py.

(** *** Character classes of the runtime

    [str.strip()], [str.split()] and the pattern class [\s] all use the
    same predicate ([Py_UNICODE_ISSPACE]). *)
Definition is_space (c : char) : bool :=
  existsb (N.eqb c)
    [9; 10; 11; 12; 13; 28; 29; 30; 31; 32; 133; 160; 5760;
     8192; 8193; 8194; 8195; 8196; 8197; 8198; 8199; 8200; 8201; 8202;
     8232; 8233; 8239; 8287; 12288]%N.

(** [\d] on a [str] pattern matches the characters of category Nd; every
    block of decimal digits is ten code points long (Unicode 14 table, the
    one shipped with CPython 3.11).  The general theorems use the table
    only to know that no decimal digit is whitespace; the concrete
    examples use ASCII digits. *)
Definition decimal_blocks : list N :=
  [48; 1632; 1776; 1984; 2406; 2534; 2662; 2790; 2918; 3046; 3174; 3302;
   3430; 3558; 3664; 3792; 3872; 4160; 4240; 6112; 6160; 6470; 6608; 6784;
   6800; 6992; 7088; 7232; 7248; 42528; 43216; 43264; 43472; 43504; 43600;
   44016; 65296; 66720; 68912; 69734; 69872; 69942; 70096; 70384; 70736;
   70864; 71248; 71360; 71472; 71904; 72016; 72784; 73040; 73120; 92768;
   92864; 93008; 120782; 120792; 120802; 120812; 120822; 123200; 123632;
   125264; 130032]%N.

Definition is_decimal (c : char) : bool :=
  existsb (fun z => (z <=? c)%N && (c <? z + 10)%N) decimal_blocks.

(** *** [str] methods *)

Definition is_empty (A : Type) (l : list A) : bool :=
  match l with [] => true | _ :: _ => false end.

Fixpoint str_eqb (a b : str) : bool :=
  match a, b with
  | [], [] => true
  | x :: a', y :: b' => (x =? y)%N && str_eqb a' b'
  | _, _ => false
  end.

(** [c in s] for a one-character [c]. *)
Definition contains (c : char) (s : str) : bool := existsb (N.eqb c) s.

Fixpoint lstrip_by (p : char -> bool) (s : str) : str :=
  match s with
  | c :: s' => if p c then lstrip_by p s' else s
  | [] => []
  end.

Definition rstrip_by (p : char -> bool) (s : str) : str :=
  rev (lstrip_by p (rev s)).

Definition strip_by (p : char -> bool) (s : str) : str :=
  rstrip_by p (lstrip_by p s).

(** [s.strip()] *)
Definition strip : str -> str := strip_by is_space.

(** [s.strip(chars)] *)
Definition strip_chars (chars : str) : str -> str :=
  strip_by (fun c => contains c chars).

Fixpoint starts_with (old s : str) : bool :=
  match old, s with
  | [], _ => true
  | a :: old', b :: s' => (a =? b)%N && starts_with old' s'
  | _ :: _, [] => false
  end.

(** [s.replace(old, new)]: occurrences are found left to right and do not
    overlap.  [skip] counts the characters of an occurrence still to be
    dropped. *)
Fixpoint replace_from (skip : nat) (old new s : str) : str :=
  match s with
  | [] => []
  | c :: s' =>
      match skip with
      | S k => replace_from k old new s'
      | O =>
          if starts_with old s
          then new ++ replace_from (pred (length old)) old new s'
          else c :: replace_from 0 old new s'
      end
  end.

Definition replace (old new s : str) : str :=
  match old with
  | [] => new ++ flat_map (fun c => c :: new) s
  | _ :: _ => replace_from 0 old new s
  end.

(** [s.split(sep)] for a one-character separator (the only kind the
    engine uses). *)
Fixpoint split (sep : char) (s : str) : list str :=
  match s with
  | [] => [[]]
  | c :: s' =>
      if (c =? sep)%N then [] :: split sep s'
      else match split sep s' with
           | h :: t => (c :: h) :: t
           | [] => [[c]]
           end
  end.

(** [s.split(sep, 1)] *)
Fixpoint split_once (sep : char) (s : str) : list str :=
  match s with
  | [] => [[]]
  | c :: s' =>
      if (c =? sep)%N then [[]; s']
      else match split_once sep s' with
           | h :: t => (c :: h) :: t
           | [] => [[c]]
           end
  end.

(** [s.split()]: the maximal runs of non-whitespace characters. *)
Fixpoint split_ws (s : str) : list str :=
  match s with
  | [] => []
  | c :: s' =>
      if is_space c then split_ws s'
      else match s' with
           | [] => [[c]]
           | d :: _ =>
               if is_space d then [c] :: split_ws s'
               else match split_ws s' with
                    | h :: t => (c :: h) :: t
                    | [] => [[c]]
                    end
           end
  end.

(** [sep.join(l)] *)
Fixpoint join (sep : str) (l : list str) : str :=
  match l with
  | [] => []
  | [x] => x
  | x :: l' => x ++ sep ++ join sep l'
  end.

(** [str(n)] for a non-negative [int]. *)
Definition str_of_nat (n : nat) : str :=
  lit (NilZero.string_of_uint (Nat.to_uint n)).

(** *** Exceptions *)

Inductive exn := IndexError | ValueError.

Inductive result (A : Type) :=
| Ok (a : A)
| Raise (e : exn).
Arguments Ok {A} a.
Arguments Raise {A} e.

Definition bind (A B : Type) (m : result A) (f : A -> result B) : result B :=
  match m with
  | Ok a => f a
  | Raise e => Raise e
  end.

(** A [for] loop that appends one value per element and stops at the
    first exception. *)
Fixpoint for_each (A B : Type) (f : A -> result B) (l : list A) : result (list B) :=
  match l with
  | [] => Ok []
  | x :: l' => bind (f x) (fun y => bind (for_each f l') (fun ys => Ok (y :: ys)))
  end.

End Py.

Import Py.

Notation "x <- m ;; k" := (bind m (fun x => k))
  (at level 61, m at next level, right associativity).

(** ** The pattern language of [re]

    The patterns of the engine repeat single-character classes only, so a
    repetition carries a class.  [run] lists the ways a pattern can match
    at the head of the subject, in the order in which the backtracking
    matcher of [re] tries them: the first outcome is the match Python
    reports. *)

Module Re.

Inductive regex :=
| Eps
| Cls (p : char -> bool)
| Rep (greedy : bool) (lo : nat) (hi : option nat) (p : char -> bool)
| Seq (r1 r2 : regex)
| Alt (r1 r2 : regex)
| Grp (name : string) (r : regex)
| Bol
| Eol.

Definition groups := list (string * str).

(** Matched text, rest of the subject, groups set so far. *)
Definition outcome := (str * str * groups)%type.

Definition room (hi : option nat) : bool :=
  match hi with Some O => false | _ => true end.

Definition less (hi : option nat) : option nat := option_map pred hi.

(** [p{lo,hi}] (greedy) and [p{lo,hi}?] (lazy). *)
Fixpoint rep (greedy : bool) (lo : nat) (hi : option nat) (p : char -> bool)
    (s : str) : list (str * str) :=
  let stop := if (lo =? 0)%nat then [([], s)] else [] in
  let more :=
    match s with
    | c :: s' =>
        if room hi && p c
        then map (fun '(m, rest) => (c :: m, rest)) (rep greedy (pred lo) (less hi) p s')
        else []
    | [] => []
    end in
  if greedy then more ++ stop else stop ++ more.

Fixpoint run (r : regex) (bol : bool) (s : str) (g : groups) : list outcome :=
  match r with
  | Eps => [([], s, g)]
  | Cls p =>
      match s with
      | c :: s' => if p c then [([c], s', g)] else []
      | [] => []
      end
  | Rep greedy lo hi p => map (fun '(m, rest) => (m, rest, g)) (rep greedy lo hi p s)
  | Seq r1 r2 =>
      flat_map
        (fun '(m1, s1, g1) =>
           map (fun '(m2, s2, g2) => (m1 ++ m2, s2, g2))
               (run r2 (bol && is_empty m1) s1 g1))
        (run r1 bol s g)
  | Alt r1 r2 => run r1 bol s g ++ run r2 bol s g
  | Grp name r1 => map (fun '(m, rest, g') => (m, rest, (name, m) :: g')) (run r1 bol s g)
  | Bol => if bol then [([], s, g)] else []
  | Eol => if is_empty s || str_eqb s [LF] then [([], s, g)] else []
  end.

(** A match object: the matched text and the groups. *)
Definition match_object := (str * groups)%type.

Definition first_match (r : regex) (bol : bool) (s : str) : option match_object :=
  match run r bol s [] with
  | (m, _, g) :: _ => Some (m, g)
  | [] => None
  end.

(** [re.match(r, s)] *)
Definition re_match (r : regex) (s : str) : option match_object :=
  first_match r true s.

(** [re.search(r, s)]: the first start position with a match. *)
Fixpoint search_from (r : regex) (bol : bool) (s : str) : option match_object :=
  match first_match r bol s with
  | Some m => Some m
  | None =>
      match s with
      | [] => None
      | _ :: s' => search_from r false s'
      end
  end.

Definition search (r : regex) (s : str) : option match_object :=
  search_from r true s.

(** [m.group(name)] *)
Definition group (name : string) (m : match_object) : str :=
  match find (fun '(n, _) => String.eqb n name) (snd m) with
  | Some (_, v) => v
  | None => []
  end.

(** [re.findall(r, s)] for a pattern with one group: group 1 of the
    successive matches, which do not overlap.  [skip] counts the characters
    of the last match still to be passed (the patterns used with [findall]
    here never match the empty string). *)
Fixpoint findall_from (skip : nat) (r : regex) (bol : bool) (s : str) : list str :=
  match skip with
  | S k =>
      match s with
      | [] => []
      | _ :: s' => findall_from k r false s'
      end
  | O =>
      match first_match r bol s with
      | Some m =>
          group "1" m ::
          match s with
          | [] => []
          | _ :: s' => findall_from (pred (length (fst m))) r false s'
          end
      | None =>
          match s with
          | [] => []
          | _ :: s' => findall_from 0 r false s'
          end
      end
  end.

Definition findall (r : regex) (s : str) : list str := findall_from 0 r true s.

(** Pattern syntax. *)
Definition Chr (c : char) : regex := Cls (N.eqb c).
Definition Lit (s : str) : regex := fold_right (fun c r => Seq (Chr c) r) Eps s.
Definition one_of (cs : str) (c : char) : bool := contains c cs.
Definition between (a b : ascii) (c : char) : bool :=
  (ch a <=? c)%N && (c <=? ch b)%N.
(** [.] without DOTALL *)
Definition dot (c : char) : bool := negb (c =? LF)%N.
Definition star (p : char -> bool) : regex := Rep true 0 None p.
Definition plus (p : char -> bool) : regex := Rep true 1 None p.
Definition lazy_star (p : char -> bool) : regex := Rep false 0 None p.
Definition lazy_plus (p : char -> bool) : regex := Rep false 1 None p.
Definition counted (lo hi : nat) (p : char -> bool) : regex := Rep true lo (Some hi) p.

End Re.

Import Re.

Infix ">>" := Seq (at level 60, right associativity).

(** ** The citation engine *)

Record author := { family : str; given : str }.

(** The dictionary built by [parse_citation]. *)
Record citation := {
  authors : list author;
  title : str;
  journal : str;
  volume : str;
  issue : str;
  pages : str;
  year : str;
  doi : str;
  url : str;
  raw_text : str;
  files : list str
}.

Definition set_authors (v : list author) (r : citation) : citation :=
  {| authors := v; title := title r; journal := journal r; volume := volume r;
     issue := issue r; pages := pages r; year := year r; doi := doi r;
     url := url r; raw_text := raw_text r; files := files r |}.
Definition set_title (v : str) (r : citation) : citation :=
  {| authors := authors r; title := v; journal := journal r; volume := volume r;
     issue := issue r; pages := pages r; year := year r; doi := doi r;
     url := url r; raw_text := raw_text r; files := files r |}.
Definition set_journal (v : str) (r : citation) : citation :=
  {| authors := authors r; title := title r; journal := v; volume := volume r;
     issue := issue r; pages := pages r; year := year r; doi := doi r;
     url := url r; raw_text := raw_text r; files := files r |}.
Definition set_pages (v : str) (r : citation) : citation :=
  {| authors := authors r; title := title r; journal := journal r; volume := volume r;
     issue := issue r; pages := v; year := year r; doi := doi r;
     url := url r; raw_text := raw_text r; files := files r |}.
Definition set_year (v : str) (r : citation) : citation :=
  {| authors := authors r; title := title r; journal := journal r; volume := volume r;
     issue := issue r; pages := pages r; year := v; doi := doi r;
     url := url r; raw_text := raw_text r; files := files r |}.
Definition set_doi (v : str) (r : citation) : citation :=
  {| authors := authors r; title := title r; journal := journal r; volume := volume r;
     issue := issue r; pages := pages r; year := year r; doi := v;
     url := url r; raw_text := raw_text r; files := files r |}.
Definition set_url (v : str) (r : citation) : citation :=
  {| authors := authors r; title := title r; journal := journal r; volume := volume r;
     issue := issue r; pages := pages r; year := year r; doi := doi r;
     url := v; raw_text := raw_text r; files := files r |}.

(** *** [smart_parse_authors] *)

(** The body of the loop over [parts]. *)
Definition parse_author (p : str) : result author :=
  if contains (ch ",") p then
    (* fam, giv = [x.strip() for x in p.split(",", 1)] *)
    match map strip (split_once (ch ",") p) with
    | [fam; giv] => Ok {| family := fam; given := giv |}
    | _ => Raise ValueError
    end
  else
    let toks := split_ws p in
    match rev toks with
    | [] => Raise IndexError                       (* toks[-1] *)
    | fam :: _ => Ok {| family := fam; given := join (lit " ") (removelast toks) |}
    end.

Definition smart_parse_authors (raw : str) : result (list author) :=
  if is_empty raw then Ok []
  else
    let s := replace [FULLWIDTH_SEMICOLON] (lit ";")
               (replace (lit " & ") (lit " ; ")
                  (replace (lit " and ") (lit " ; ") raw)) in
    let parts :=
      map (strip_chars (lit " ,."))
          (filter (fun p => negb (is_empty (strip_chars (lit " ,.") p)))
                  (split (ch ";") s)) in
    for_each parse_author parts.

(** *** [parse_citation] *)

(** [(10\.\d{4,9}/[-._;()/:A-Za-z0-9]+)] *)
Definition doi_re : regex :=
  Grp "1"
    (Lit (lit "10.") >> Rep true 4 (Some 9) is_decimal >> Chr (ch "/") >>
     plus (fun c => one_of (lit "-._;()/:") c || between "A" "Z" c
                    || between "a" "z" c || between "0" "9" c)).

(** [(https?://[^\s]+)] *)
Definition url_re : regex :=
  Grp "1"
    (Lit (lit "http") >> Rep true 0 (Some 1) (N.eqb (ch "s")) >> Lit (lit "://") >>
     plus (fun c => negb (is_space c))).

Definition is_dash (c : char) : bool := (c =? ch "-")%N || (c =? EN_DASH)%N.

(** [(\d{1,5}\s*[-–]\s*\d{1,5})] *)
Definition pages_re : regex :=
  Grp "1"
    (counted 1 5 is_decimal >> star is_space >> Cls is_dash >> star is_space >>
     counted 1 5 is_decimal).

(** [19\d{2}|20\d{2}] *)
Definition year_alt : regex :=
  Alt (Lit (lit "19") >> counted 2 2 is_decimal)
      (Lit (lit "20") >> counted 2 2 is_decimal).

(** [(19\d{2}|20\d{2})] *)
Definition year_re : regex := Grp "1" year_alt.

(** [^(?P<authors>.+?)\s*\((?P<year>19\d{2}|20\d{2})\)\.\s*(?P<title>.+?)\.\s*(?P<rest>.+)$] *)
Definition apa : regex :=
  Bol >> Grp "authors" (lazy_plus dot) >> star is_space >> Chr (ch "(") >>
  Grp "year" year_alt >> Lit (lit ").") >> star is_space >>
  Grp "title" (lazy_plus dot) >> Chr (ch ".") >> star is_space >>
  Grp "rest" (plus dot) >> Eol.

(** [[x.strip() for x in s.split(sep) if x.strip()]] *)
Definition segments (sep : char) (s : str) : list str :=
  map strip (filter (fun x => negb (is_empty (strip x))) (split sep s)).

Definition item (n : nat) (l : list str) : str := nth n l [].

(** [raw.replace("\n", " ").strip()] *)
Definition normalize (raw : str) : str := strip (replace [LF] (lit " ") raw).

Definition parse_citation (raw : str) : result citation :=
  let text := normalize raw in
  let result :=
    {| authors := []; title := []; journal := []; volume := []; issue := [];
       pages := []; year := []; doi := []; url := [];
       raw_text := strip raw; files := [] |} in
  (* DOI *)
  let result :=
    match search doi_re text with
    | Some m => set_doi (group "1" m) result
    | None => result
    end in
  (* URL *)
  let result :=
    match search url_re text with
    | Some m => set_url (group "1" m) result
    | None => result
    end in
  (* pages *)
  let result :=
    match search pages_re text with
    | Some m => set_pages (replace (lit " ") [] (group "1" m)) result
    | None => result
    end in
  (* APA: Authors (Year). Title. Journal *)
  match re_match apa text with
  | Some m =>
      a <- smart_parse_authors (group "authors" m) ;;
      Ok (set_journal (strip (group "rest" m))
            (set_title (strip (group "title" m))
               (set_year (group "year" m) (set_authors a result))))
  | None =>
      (* split on full stops *)
      let seg := segments (ch ".") text in
      if (2 <=? length seg)%nat then
        a <- smart_parse_authors (item 0 seg) ;;
        let result := set_title (item 1 seg) (set_authors a result) in
        let result :=
          if (3 <=? length seg)%nat then set_journal (item 2 seg) result
          else result in
        let result :=
          match search year_re text with
          | Some y => set_year (group "1" y) result
          | None => result
          end in
        Ok result
      else
        (* comma fallback *)
        let parts := segments (ch ",") text in
        result <-
          (if negb (is_empty parts)
           then a <- smart_parse_authors (item 0 parts) ;; Ok (set_authors a result)
           else Ok result) ;;
        let result :=
          if (2 <=? length parts)%nat then set_title (item 1 parts) result
          else result in
        let result :=
          if (3 <=? length parts)%nat then set_journal (item 2 parts) result
          else result in
        let result :=
          match search year_re text with
          | Some y => set_year (group "1" y) result
          | None => result
          end in
        Ok result
  end.

(** *** Rendering and placeholder resolution *)

(** A record of the library: a parsed citation with its identifier. *)
Record entry := { id : str; data : citation }.

Definition library := list entry.

Definition no_author : author := {| family := []; given := [] |}.

Definition apa_citation (e : citation) : str :=
  if is_empty (authors e) then
    lit "(Unknown, " ++ year e ++ lit ")"
  else if (length (authors e) =? 1)%nat then
    lit "(" ++ family (nth 0 (authors e) no_author) ++ lit ", " ++ year e ++ lit ")"
  else if (length (authors e) =? 2)%nat then
    lit "(" ++ family (nth 0 (authors e) no_author) ++ lit " & "
      ++ family (nth 1 (authors e) no_author) ++ lit ", " ++ year e ++ lit ")"
  else
    lit "(" ++ family (nth 0 (authors e) no_author) ++ lit " et al., "
      ++ year e ++ lit ")".

(** The document collaborator: the paragraphs of the body, each read and
    overwritten through its text; a heading is a paragraph with a heading
    style.  A paragraph is taken to store the text it is given: what the
    document library itself does with some characters when a text is
    assigned (python-docx refuses most control characters and reads a
    carriage return back as a line break) is outside the model, so that what
    is stated below about rewritten paragraphs is stated for the assignments
    the library accepts and stores as given. *)
Inductive para_style := Normal | Heading (level : nat).

Record paragraph := { style_of : para_style; text : str }.

Definition document := list paragraph.

Definition set_text (t : str) (p : paragraph) : paragraph :=
  {| style_of := style_of p; text := t |}.

(** [\[id:(.*?)\]] *)
Definition id_re : regex :=
  Lit (lit "[id:") >> Grp "1" (lazy_star dot) >> Chr (ch "]").

(** A [dict] from raw id to number, in insertion order. *)
Definition id_map := list (str * nat).

Definition in_map (rid : str) (m : id_map) : bool :=
  existsb (fun kv => str_eqb (fst kv) rid) m.

(** One turn of the inner numbering loop; the state is [id_map] and
    [counter]. *)
Definition number_id (st : id_map * nat) (rid : str) : id_map * nat :=
  if in_map rid (fst st) then st
  else (fst st ++ [(rid, snd st)], snd st + 1).

Definition number_ids (doc : document) : id_map * nat :=
  fold_left (fun st p => fold_left number_id (findall id_re (text p)) st)
            doc ([], 1).

(** [next((x for x in library if x["id"] == rid), None)] *)
Definition lookup (lib : library) (rid : str) : option entry :=
  find (fun x => str_eqb (id x) rid) lib.

Definition placeholder (rid : str) : str := lit "[id:" ++ rid ++ lit "]".

Definition APA7 : str := lit "APA7".

(** One turn of the inner substitution loop on the text of a paragraph. *)
Definition substitute (lib : library) (style : str) (t : str) (kv : str * nat) : str :=
  match lookup lib (fst kv) with
  | None => t
  | Some e =>
      let rep :=
        if str_eqb style APA7 then apa_citation (data e)
        else lit "[" ++ str_of_nat (snd kv) ++ lit "]" in
      replace (placeholder (fst kv)) rep t
  end.

Definition resolve (lib : library) (style : str) (m : id_map) (t : str) : str :=
  fold_left (substitute lib style) m t.

(** [replace_ids]: the rewritten paragraphs and the returned [id_map]. *)
Definition replace_ids (doc : document) (lib : library) (style : str)
  : document * id_map :=
  let m := fst (number_ids doc) in
  (map (fun p => set_text (resolve lib style m (text p)) p) doc, m).

(** [sorted(items, key=lambda x: x[1])]: a stable sort on the number. *)
Fixpoint insert_by_number (x : str * nat) (l : list (str * nat)) : list (str * nat) :=
  match l with
  | [] => [x]
  | y :: l' =>
      if (snd x <=? snd y)%nat then x :: l else y :: insert_by_number x l'
  end.

Definition sorted_by_number (m : id_map) : list (str * nat) :=
  fold_right insert_by_number [] m.

(** The heading of the reference section under a numeric style:
    U+53C2 U+8003 U+6587 U+732E. *)
Definition heading_zh : str := [21442; 32771; 25991; 29486]%N.

Definition heading_for (style : str) : str :=
  if str_eqb style APA7 then lit "References" else heading_zh.

Definition reference_line (num : nat) (e : citation) : str :=
  lit "[" ++ str_of_nat num ++ lit "] " ++ title e ++ lit ". " ++ journal e
    ++ lit " (" ++ year e ++ lit ").".

(** The paragraphs [insert_refs] appends after the heading. *)
Definition reference_lines (lib : library) (m : id_map) : list paragraph :=
  flat_map
    (fun kv =>
       match lookup lib (fst kv) with
       | None => []
       | Some e => [{| style_of := Normal; text := reference_line (snd kv) (data e) |}]
       end)
    (sorted_by_number m).

Definition insert_refs (doc : document) (lib : library) (m : id_map) (style : str)
  : document :=
  doc ++ {| style_of := Heading 1; text := heading_for style |} :: reference_lines lib m.

(** ** The manager: library, identifiers, edit form

    The methods of [LiteratureManager] that change [self.library],
    [self.next_id] and [self.current_style].  The widgets are external:
    a selection of the tree is the index of the selected row
    ([self.tree.index(sel[0])]), an [Entry] gives back the text put into
    it, and [raw_box.get(1.0, tk.END)] gives the text of the box followed
    by the line feed that ends a Tk text.  Redrawing the tree, logging and
    the saving of the library file are not modelled; neither is [load_txt],
    which replaces the library by the records of a file and recomputes the
    counter from them. *)

(** [f"{n:03d}"] *)
Definition format_03d (n : nat) : str :=
  repeat (ch "0") (3 - length (str_of_nat n)) ++ str_of_nat n.

(** [f"ref{n:03d}"] *)
Definition ref_id (n : nat) : str := lit "ref" ++ format_03d n.

Record manager := {
  the_library : library;
  current_style : str;
  next_id : nat
}.

(** [__init__] *)
Definition init : manager :=
  {| the_library := []; current_style := APA7; next_id := 1 |}.

Definition empty_citation : citation :=
  {| authors := []; title := []; journal := []; volume := []; issue := [];
     pages := []; year := []; doi := []; url := []; raw_text := []; files := [] |}.

(** [e["id"] = f"ref{self.next_id:03d}"; self.next_id += 1;
    self.library.append(e)] *)
Definition append_entry (e : citation) (st : manager) : manager :=
  {| the_library := the_library st ++ [ {| id := ref_id (next_id st); data := e |} ];
     current_style := current_style st;
     next_id := next_id st + 1 |}.

Definition add_entry (st : manager) : manager := append_entry empty_citation st.

(** [answer] is what [simpledialog.askstring] returns: [None] when the
    dialog is cancelled. *)
Definition add_from_string (answer : option str) (st : manager) : result manager :=
  match answer with
  | None => Ok st
  | Some raw =>
      if is_empty raw then Ok st
      else e <- parse_citation raw ;; Ok (append_entry e st)
  end.

(** [l.pop(index)] *)
Definition pop (A : Type) (index : nat) (l : list A) : list A :=
  firstn index l ++ skipn (S index) l.

Definition delete_entry (selection : option nat) (st : manager) : result manager :=
  match selection with
  | None => Ok st
  | Some index =>
      match nth_error (the_library st) index with
      | None => Raise IndexError                 (* self.library[index] *)
      | Some _ =>
          Ok {| the_library := pop index (the_library st);
                current_style := current_style st;
                next_id := next_id st |}
      end
  end.

Definition set_style (style : str) (st : manager) : manager :=
  {| the_library := the_library st; current_style := style; next_id := next_id st |}.

(** The contents of the widgets of the edit form. *)
Record form := {
  f_title : str;
  f_authors : str;
  f_year : str;
  f_journal : str;
  f_volume : str;
  f_issue : str;
  f_pages : str;
  f_doi : str;
  f_url : str;
  raw_box : str
}.

(** [";".join([f"{x['family']},{x['given']}" for x in e["authors"]])] *)
Definition authors_field (l : list author) : str :=
  if is_empty l then []
  else join (lit ";") (map (fun x => family x ++ lit "," ++ given x) l).

(** [on_select]: what the form shows for the selected record. *)
Definition shown (e : entry) : form :=
  {| f_title := title (data e);
     f_authors := authors_field (authors (data e));
     f_year := year (data e);
     f_journal := journal (data e);
     f_volume := volume (data e);
     f_issue := issue (data e);
     f_pages := pages (data e);
     f_doi := doi (data e);
     f_url := url (data e);
     raw_box := raw_text (data e) ++ [LF] |}.

Definition on_select (selection : option nat) (st : manager) : result (option form) :=
  match selection with
  | None => Ok None
  | Some index =>
      match nth_error (the_library st) index with
      | None => Raise IndexError
      | Some e => Ok (Some (shown e))
      end
  end.

(** The author loop of [save_changes] on the text of the author field. *)
Definition edited_authors (field : str) : result (list author) :=
  let raw := strip field in
  if is_empty raw then Ok []
  else for_each parse_author (segments (ch ";") raw).

(** The record [save_changes] leaves in place of [e]: the identifier and
    the attachments stay. *)
Definition saved (f : form) (a : list author) (e : entry) : entry :=
  {| id := id e;
     data :=
       {| authors := a;
          title := strip (f_title f);
          journal := strip (f_journal f);
          volume := strip (f_volume f);
          issue := strip (f_issue f);
          pages := strip (f_pages f);
          year := strip (f_year f);
          doi := strip (f_doi f);
          url := strip (f_url f);
          raw_text := strip (raw_box f);
          files := files (data e) |} |}.

(** [l[index] = x] for an index in range. *)
Definition set_nth (A : Type) (index : nat) (x : A) (l : list A) : list A :=
  firstn index l ++ x :: skipn (S index) l.

(** [save_changes].  The scalar fields are assigned before the author
    loop runs; the loop never raises ([edited_authors_total]). *)
Definition save_changes (selection : option nat) (f : form) (st : manager)
  : result manager :=
  match selection with
  | None => Ok st
  | Some index =>
      match nth_error (the_library st) index with
      | None => Raise IndexError
      | Some e =>
          a <- edited_authors (f_authors f) ;;
          Ok {| the_library := set_nth index (saved f a e) (the_library st);
                current_style := current_style st;
                next_id := next_id st |}
      end
  end.

(** [add_file]: [paths] is what [filedialog.askopenfilenames] returns,
    empty when the dialog is cancelled. *)
Definition add_file (selection : option nat) (paths : list str) (st : manager)
  : result manager :=
  match selection with
  | None => Ok st
  | Some index =>
      match nth_error (the_library st) index with
      | None => Raise IndexError
      | Some e =>
          if is_empty paths then Ok st
          else
            Ok {| the_library :=
                    set_nth index
                      {| id := id e;
                         data :=
                           {| authors := authors (data e); title := title (data e);
                              journal := journal (data e); volume := volume (data e);
                              issue := issue (data e); pages := pages (data e);
                              year := year (data e); doi := doi (data e);
                              url := url (data e); raw_text := raw_text (data e);
                              files := files (data e) ++ paths |} |}
                      (the_library st);
                  current_style := current_style st;
                  next_id := next_id st |}
      end
  end.

(** [path.replace(".docx", f"_output_{self.current_style}.docx")] *)
Definition output_path (path style : str) : str :=
  replace (lit ".docx") (lit "_output_" ++ style ++ lit ".docx") path.

(** [process_docx] on an opened document: the document that is saved. *)
Definition process_docx (doc : document) (st : manager) : document :=
  insert_refs (fst (replace_ids doc (the_library st) (current_style st)))
    (the_library st)
    (snd (replace_ids doc (the_library st) (current_style st)))
    (current_style st).

(** * Vocabulary of the statements

    Nothing below belongs to the program: these are the notions the
    properties are stated with, and the concrete inputs of the examples. *)

(** ** Concrete inputs *)

Definition para (t : str) : paragraph := {| style_of := Normal; text := t |}.

Definition citation_of (a : list author) (y : str) : citation :=
  {| authors := a; title := []; journal := []; volume := []; issue := [];
     pages := []; year := y; doi := []; url := []; raw_text := []; files := [] |}.

Definition surname (f : str) : author := {| family := f; given := [] |}.

(** The two numeric styles of the style menu. *)
Definition GBT : str := lit "GB/T".
Definition IEEE : str := lit "IEEE".

(** A library with the single record [ref001]. *)
Definition sample_library : library :=
  [ {| id := lit "ref001"; data := citation_of [] (lit "2020") |} ].

(** The record [parse_citation] builds for ["x, 120195"]. *)
Definition sample_fallback_record : citation :=
  {| authors := [ {| family := lit "x"; given := [] |} ];
     title := lit "120195"; journal := []; volume := []; issue := [];
     pages := []; year := lit "2019"; doi := []; url := [];
     raw_text := lit "x, 120195"; files := [] |}.

(** The record [parse_citation] builds for ["pp. 123 – 456"]. *)
Definition sample_pages_record : citation :=
  {| authors := [ {| family := lit "pp"; given := [] |} ];
     title := lit "123 " ++ [EN_DASH] ++ lit " 456"; journal := [];
     volume := []; issue := [];
     pages := lit "123" ++ [EN_DASH] ++ lit "456"; year := []; doi := []; url := [];
     raw_text := lit "pp. 123 " ++ [EN_DASH] ++ lit " 456"; files := [] |}.

(** The record [parse_citation] builds for
    ["x, see https://doi.org/10.1000/xyz. y"]. *)
Definition sample_linked_record : citation :=
  {| authors := [ {| family := lit "x"; given := lit "see https://doi" |} ];
     title := lit "org/10"; journal := lit "1000/xyz"; volume := []; issue := [];
     pages := []; year := []; doi := lit "10.1000/xyz.";
     url := lit "https://doi.org/10.1000/xyz.";
     raw_text := lit "x, see https://doi.org/10.1000/xyz. y"; files := [] |}.

(** ** Numbering *)

Definition str_eq_dec (a b : str) : {a = b} + {a <> b} :=
  list_eq_dec N.eq_dec a b.

(** The raw ids of all placeholder tokens, in scanning order: paragraph
    order, then left to right inside a paragraph. *)
Definition all_ids (doc : document) : list str :=
  flat_map (fun p => findall id_re (text p)) doc.

(** The map after the numbering loop has seen [ids]. *)
Definition numbered (ids : list str) : id_map :=
  fst (fold_left number_id ids ([], 1)).

(** ** Languages of patterns

    [lang r m]: the text [m] belongs to the language of [r], anchors and
    groups aside. *)

Definition fits (hi : option nat) (n : nat) : Prop :=
  match hi with Some h => n <= h | None => True end.

Fixpoint lang (r : regex) (m : str) : Prop :=
  match r with
  | Eps => m = []
  | Cls p => exists c, m = [c] /\ p c = true
  | Rep _ lo hi p => forallb p m = true /\ lo <= length m /\ fits hi (length m)
  | Seq r1 r2 => exists m1 m2, m = m1 ++ m2 /\ lang r1 m1 /\ lang r2 m2
  | Alt r1 r2 => lang r1 m \/ lang r2 m
  | Grp _ r1 => lang r1 m
  | Bol => m = []
  | Eol => m = []
  end.

Fixpoint anchor_free (r : regex) : bool :=
  match r with
  | Eps | Cls _ | Rep _ _ _ _ => true
  | Seq r1 r2 | Alt r1 r2 => anchor_free r1 && anchor_free r2
  | Grp _ r1 => anchor_free r1
  | Bol | Eol => false
  end.

(** ** Occurrences in a text *)

(** [leftmost shape text pre y post]: [y] has the shape, occurs in [text]
    between [pre] and [post], and no text of that shape starts earlier. *)
Definition leftmost (shape : str -> Prop) (text pre y post : str) : Prop :=
  text = pre ++ y ++ post /\ shape y /\
  forall pre' y' post',
    text = pre' ++ y' ++ post' -> shape y' -> length pre <= length pre'.

(** No part of [text] has the shape. *)
Definition absent (shape : str -> Prop) (text : str) : Prop :=
  forall pre y post, text = pre ++ y ++ post -> ~ shape y.

(** Whether a digit stands right before, or right after, an occurrence. *)
Definition digit_before (pre : str) : bool :=
  match rev pre with c :: _ => is_decimal c | [] => false end.

Definition digit_after (post : str) : bool :=
  match post with c :: _ => is_decimal c | [] => false end.

Definition no_space (y : str) : Prop := forallb (fun c => negb (is_space c)) y = true.

(** The text is not empty and does not start with whitespace. *)
Definition starts_clean (y : str) : Prop :=
  match y with c :: _ => is_space c = false | [] => False end.

(** What normalization does to one character. *)
Definition unfold_line (c : char) : char := if (c =? LF)%N then SPACE else c.

(** ** Years and page ranges *)

(** The texts matched by [19\d{2}|20\d{2}]. *)
Definition year_shape (y : str) : Prop :=
  exists a b,
    is_decimal a = true /\ is_decimal b = true /\
    (y = lit "19" ++ [a; b] \/ y = lit "20" ++ [a; b]).

(** The year a fallback stage sets. *)
Definition scanned_year (text : str) : str :=
  match search year_re text with
  | Some y => group "1" y
  | None => []
  end.

(** One to five decimal digits. *)
Definition digits (d : str) : Prop :=
  forallb is_decimal d = true /\ 1 <= length d /\ length d <= 5.

(** Whitespace only. *)
Definition blanks (w : str) : Prop := forallb is_space w = true.

(** The texts matched by [\d{1,5}\s*[-–]\s*\d{1,5}]. *)
Definition page_range (m : str) : Prop :=
  exists d1 w1 dash w2 d2,
    m = d1 ++ w1 ++ [dash] ++ w2 ++ d2 /\
    digits d1 /\ blanks w1 /\ is_dash dash = true /\ blanks w2 /\ digits d2.

(** What is left of the whitespace of a page range: spaces go, and so do
    line feeds, which normalization has turned into spaces. *)
Definition squeeze (w : str) : str :=
  filter (fun c => negb (c =? SPACE)%N && negb (c =? LF)%N) w.

Definition without_spaces (s : str) : str := filter (fun c => negb (c =? SPACE)%N) s.

(** Spaces and line feeds only. *)
Definition spaced (w : str) : Prop := forall c, In c w -> c = SPACE \/ c = LF.

(** ** Tokens *)

Definition BRACKET : char := ch "]".

Definition LBRACKET : char := ch "[".

(** A raw id the pattern of pass 1 can read: it holds no closing bracket
    and no line feed. *)
Definition raw_id (rid : str) : Prop := ~ In BRACKET rid /\ ~ In LF rid.

(** The tokens: [[id:], a raw id and the closing bracket. *)
Definition token (y : str) : Prop := exists rid, raw_id rid /\ y = placeholder rid.

(** [reads ids t]: read from left to right, each time from the end of
    the token read last, the text [t] holds the tokens of the raw ids
    [ids], in this order, and no other (a token that starts inside one
    already read is not read). *)
Fixpoint reads (ids : list str) (t : str) : Prop :=
  match ids with
  | [] => absent token t
  | rid :: ids' =>
      raw_id rid /\
      exists pre post, leftmost token t pre (placeholder rid) post /\ reads ids' post
  end.

(** The raw ids read in the blocks of a document, block by block. *)
Definition reading (doc : document) (tokens : list (list str)) : Prop :=
  Forall2 (fun p ids => reads ids (text p)) doc tokens.

(** [no_straddle old pre mid post]: every occurrence of [old] in
    [pre ++ mid ++ post] lies inside [pre] or inside [post]. *)
Definition no_straddle (old pre mid post : str) : Prop :=
  forall u v,
    pre ++ mid ++ post = u ++ old ++ v ->
    length u + length old <= length pre \/ length pre + length mid <= length u.

(** The text ends with its only closing bracket. *)
Definition closes (t : str) : Prop :=
  exists g, t = g ++ [BRACKET] /\ ~ In BRACKET g.

(** [ends_with t s]: the text [s] is a suffix of [t]. *)
Definition ends_with (t s : str) : Prop := exists e, t = e ++ s.

(** ** Sessions, shapes and invariants *)

(** The number a string of ASCII digits writes. *)
Fixpoint decimal_value_from (acc : nat) (s : str) : nat :=
  match s with
  | [] => acc
  | c :: s' => decimal_value_from (10 * acc + (N.to_nat c - 48)) s'
  end.

Definition decimal_value (s : str) : nat := decimal_value_from 0 s.

(** The callbacks of the menu and of the buttons that act on the library,
    [load_txt] apart: what it loads is whatever a file holds, so the
    properties stated over sessions below are properties of the states
    reached without loading a library file. *)
Inductive command :=
| AddEntry
| AddFromString (answer : option str)
| DeleteEntry (selection : option nat)
| SaveChanges (selection : option nat) (f : form)
| SetStyle (style : str)
| AddFile (selection : option nat) (paths : list str).

(** One callback. *)
Definition step (c : command) (st : manager) : result manager :=
  match c with
  | AddEntry => Ok (add_entry st)
  | AddFromString answer => add_from_string answer st
  | DeleteEntry selection => delete_entry selection st
  | SaveChanges selection f => save_changes selection f st
  | SetStyle style => Ok (set_style style st)
  | AddFile selection paths => add_file selection paths st
  end.

(** The manager after a callback: one that raises does so before its
    first assignment and leaves the manager as it was. *)
Definition after (st : manager) (c : command) : manager :=
  match step c st with
  | Ok st' => st'
  | Raise _ => st
  end.

(** The manager after a sequence of callbacks on a fresh manager. *)
Definition session (cs : list command) : manager := fold_left after cs init.

(** Every record carries an identifier that was issued: [ref] and a
    number below the counter. *)
Definition issued (st : manager) : Prop :=
  forall e, In e (the_library st) -> exists n, n < next_id st /\ id e = ref_id n.

(** The number [n] is not the number of a record of the library. *)
Definition unused (n : nat) (st : manager) : Prop :=
  forall e, In e (the_library st) -> id e <> ref_id n.

(** What one callback does to the identifiers: the counter never goes
    down, the identifiers stay distinct and issued, and a number that is
    below the counter and unused stays unused. *)
Definition keeps_identifiers (st st' : manager) : Prop :=
  NoDup (map id (the_library st')) /\ issued st' /\
  next_id st <= next_id st' /\
  (forall n, n < next_id st -> unused n st -> unused n st').

(** [occurs x t]: the text [x] is a part of [t]. *)
Definition occurs (x t : str) : Prop := exists u v, t = u ++ x ++ v.

(** The text [old] is at the end of [stem ++ old] and nowhere else. *)
Definition only_at_end (old stem : str) : Prop :=
  forall u v, stem ++ old = u ++ old ++ v -> u = stem.

Definition by_number (a b : str * nat) : Prop := snd a <= snd b.

(** The paragraph [insert_refs] appends for a pair of the map, if any. *)
Definition line_of (lib : library) (kv : str * nat) : list paragraph :=
  match lookup lib (fst kv) with
  | None => []
  | Some e => [ {| style_of := Normal; text := reference_line (snd kv) (data e) |} ]
  end.

(** [derives r b m rest gs]: at a position where [b] tells whether the
    subject starts there, the pattern [r] can match the text [m] with
    [rest] left, setting the groups [gs] (the last one set first). *)
Fixpoint derives (r : regex) (b : bool) (m rest : str) (gs : groups) : Prop :=
  match r with
  | Eps => m = [] /\ gs = []
  | Cls p => (exists c, m = [c] /\ p c = true) /\ gs = []
  | Rep _ lo hi p =>
      (forallb p m = true /\ lo <= length m /\ fits hi (length m)) /\ gs = []
  | Seq r1 r2 =>
      exists m1 m2 g1 g2,
        m = m1 ++ m2 /\ gs = g2 ++ g1 /\
        derives r1 b m1 (m2 ++ rest) g1 /\
        derives r2 (b && is_empty m1) m2 rest g2
  | Alt r1 r2 => derives r1 b m rest gs \/ derives r2 b m rest gs
  | Grp n r1 => exists g0, gs = (n, m) :: g0 /\ derives r1 b m rest g0
  | Bol => b = true /\ m = [] /\ gs = []
  | Eol => (rest = [] \/ rest = [LF]) /\ m = [] /\ gs = []
  end.

(** The texts a [.+] or [.+?] matches. *)
Definition span (m : str) : Prop := m <> [] /\ ~ In LF m.

(** Group 1 of the first match of a scan, or the empty default. *)
Definition scanned (r : regex) (text : str) : str :=
  match search r text with
  | Some m => group "1" m
  | None => []
  end.

Definition scanned_pages (text : str) : str :=
  match search pages_re text with
  | Some m => replace (lit " ") [] (group "1" m)
  | None => []
  end.

(** The pieces a fallback stage works on: those between full stops when
    there are two or more, else those between commas. *)
Definition pieces (text : str) : list str :=
  if (2 <=? length (segments (ch ".") text))%nat then segments (ch ".") text
  else segments (ch ",") text.

(** The record once the three scans are done and a stage has found the
    authors, the title, the journal and the year. *)
Definition filled (raw : str) (a : list author) (t j y : str) : citation :=
  {| authors := a; title := t; journal := j; volume := []; issue := [];
     pages := scanned_pages (normalize raw); year := y;
     doi := scanned doi_re (normalize raw); url := scanned url_re (normalize raw);
     raw_text := strip raw; files := [] |}.

(** What follows the authors in the structured pattern. *)
Definition apa_tail : regex :=
  star is_space >> Chr (ch "(") >>
  Grp "year" year_alt >> Lit (lit ").") >> star is_space >>
  Grp "title" (lazy_plus dot) >> Chr (ch ".") >> star is_space >>
  Grp "rest" (plus dot) >> Eol.

(** [text] reads: authors [a], then [(y).] with a year [y], then a title
    [t] up to a full stop, then [j] to the end, with optional whitespace
    between the parts. *)
Definition structured (text a y t j : str) : Prop :=
  exists w1 w2 w3,
    text = a ++ w1 ++ lit "(" ++ y ++ lit ")." ++ w2 ++ t ++ lit "." ++ w3 ++ j /\
    a <> [] /\ blanks w1 /\ year_shape y /\ blanks w2 /\ t <> [] /\ blanks w3 /\
    j <> [].

(** The only whitespace of the text is U+0020. *)
Definition plain (s : str) : Prop :=
  forall c, In c s -> is_space c = true -> c = SPACE.

(** The only whitespace of the text is U+0020 and the line feed. *)
Definition plain_lines (s : str) : Prop :=
  forall c, In c s -> is_space c = true -> c = SPACE \/ c = LF.

(** Trimming leaves the text as it is. *)
Definition clean (s : str) : Prop := strip s = s.

(** An author the edit form gives back as it is: both names are trimmed,
    the family name has no comma, and neither name has a semicolon. *)
Definition tidy (x : author) : Prop :=
  clean (family x) /\ clean (given x) /\
  ~ In (ch ",") (family x) /\ ~ In (ch ";") (family x) /\ ~ In (ch ";") (given x).

(** [f"{x['family']},{x['given']}"] *)
Definition show_author (x : author) : str := family x ++ lit "," ++ given x.

(** A record the edit form gives back as it is. *)
Definition settled (r : citation) : Prop :=
  Forall tidy (authors r) /\ clean (title r) /\ clean (journal r) /\
  clean (volume r) /\ clean (issue r) /\ clean (pages r) /\ clean (year r) /\
  clean (doi r) /\ clean (url r) /\ clean (raw_text r).

(** The class of the characters a DOI goes on with. *)
Definition doi_class (c : char) : bool :=
  one_of (lit "-._;()/:") c || between "A" "Z" c || between "a" "z" c
  || between "0" "9" c.

(** The texts matched by [10\.\d{4,9}/[-._;()/:A-Za-z0-9]+]. *)
Definition doi_shape (d : str) : Prop :=
  exists ds cs,
    d = lit "10." ++ ds ++ lit "/" ++ cs /\
    forallb is_decimal ds = true /\ 4 <= length ds <= 9 /\
    cs <> [] /\ forallb doi_class cs = true.

(** The texts matched by [https?://[^\s]+]. *)
Definition url_shape (u : str) : Prop :=
  exists s cs,
    (s = [] \/ s = lit "s") /\ u = lit "http" ++ s ++ lit "://" ++ cs /\
    cs <> [] /\ no_space cs.

(** The text [post] that follows a match stops at a character outside the
    class [p], or is empty. *)
Definition stops (p : char -> bool) (post : str) : Prop :=
  match post with c :: _ => p c = false | [] => True end.

(** * The author-list parser and totality of the citation parser *)

(** A string of U+0020 spaces has no segment left after trimming. *)
Lemma replace_from_spaces (old new : str) (n : nat) :
  existsb (fun c => negb (c =? SPACE)%N) old = true ->
  replace_from 0 old new (repeat SPACE n) = repeat SPACE n.
Proof.
  intros Hold. induction n as [|n IH]; [reflexivity|].
  cbn [repeat replace_from].
  assert (Hs : starts_with old (SPACE :: repeat SPACE n) = false).
  { clear IH. revert n. generalize (SPACE :: nil). intros _.
    assert (G : forall s, (forall c, In c s -> c = SPACE) -> starts_with old s = false).
    { induction old as [|a old IHo]; [discriminate|].
      intros [|b s] Hall; [reflexivity|]. simpl.
      destruct (a =? b)%N eqn:E; [|reflexivity]. simpl.
      apply N.eqb_eq in E. subst b.
      assert (a = SPACE) by (apply Hall; now left). subst a.
      simpl in Hold. apply IHo; [exact Hold|]. intros c Hc. apply Hall. now right. }
    intros n. apply G. intros c [<-|Hc]; [reflexivity|].
    now apply repeat_spec in Hc. }
  rewrite Hs. now rewrite IH.
Qed.

Lemma lstrip_by_all (p : char -> bool) (s : str) :
  forallb p s = true -> lstrip_by p s = [].
Proof.
  induction s as [|c s IH]; simpl; [reflexivity|].
  intros H. apply andb_true_iff in H. destruct H as [Hc Hs].
  rewrite Hc. now apply IH.
Qed.

Lemma split_no_sep (sep : char) (s : str) :
  contains sep s = false -> split sep s = [s].
Proof.
  unfold contains. induction s as [|c s IH]; simpl; [reflexivity|].
  intros H. apply orb_false_iff in H. destruct H as [Hc Hs].
  rewrite N.eqb_sym, Hc. now rewrite (IH Hs).
Qed.

Lemma smart_parse_authors_spaces (n : nat) :
  smart_parse_authors (repeat SPACE n) = Ok [].
Proof.
  unfold smart_parse_authors.
  destruct (is_empty (repeat SPACE n)); [reflexivity|].
  set (chars := lit " ,.").
  unfold replace. cbn [lit list_ascii_of_string map].
  rewrite !replace_from_spaces by reflexivity.
  rewrite split_no_sep.
  2:{ unfold contains. induction n; simpl; [reflexivity|assumption]. }
  assert (E : strip_chars chars (repeat SPACE n) = []).
  { unfold strip_chars, strip_by. rewrite lstrip_by_all; [reflexivity|].
    induction n; simpl; [reflexivity|assumption]. }
  cbn [filter]. rewrite E. reflexivity.
Qed.

(** The empty string and the strings of whitespace do get a record, the
    one with every field empty. *)
Lemma strip_blank (s : str) : forallb is_space s = true -> strip s = [].
Proof.
  intros H. unfold strip, strip_by. now rewrite (lstrip_by_all _ _ H).
Qed.

Lemma normalize_blank (raw : str) : forallb is_space raw = true -> normalize raw = [].
Proof.
  intros H. unfold normalize. apply strip_blank.
  clear -H. unfold replace. induction raw as [|c raw IH]; [reflexivity|].
  simpl in H. apply andb_true_iff in H. destruct H as [Hc H].
  cbn [replace_from starts_with length pred].
  destruct (LF =? c)%N eqn:E; simpl; [now apply IH|].
  rewrite Hc. now apply IH.
Qed.

Lemma parse_citation_blank (raw : str) :
  forallb is_space raw = true ->
  parse_citation raw
  = Ok {| authors := []; title := []; journal := []; volume := []; issue := [];
          pages := []; year := []; doi := []; url := []; raw_text := [];
          files := [] |}.
Proof.
  intros H. unfold parse_citation.
  rewrite (normalize_blank _ H), (strip_blank _ H). reflexivity.
Qed.

(** The only exception of the loop body is the [IndexError] of a segment
    without a comma and without a token; the unpacking of
    [p.split(",", 1)] always finds its two parts. *)
Lemma split_once_two (sep : char) (s : str) :
  contains sep s = true -> exists a b, split_once sep s = [a; b].
Proof.
  unfold contains. induction s as [|c s IH]; simpl; [discriminate|].
  rewrite (N.eqb_sym sep c). destruct (c =? sep)%N; simpl.
  - intros _. now exists [], s.
  - intros H. destruct (IH H) as [a [b ->]]. now exists (c :: a), b.
Qed.

Lemma parse_author_cases (p : str) :
  (exists a, parse_author p = Ok a)
  \/ (parse_author p = Raise IndexError
      /\ contains (ch ",") p = false /\ split_ws p = []).
Proof.
  unfold parse_author. destruct (contains (ch ",") p) eqn:E.
  - left. destruct (split_once_two _ _ E) as [a [b ->]]. simpl. eauto.
  - destruct (split_ws p) as [|t toks] eqn:Et; [right; auto|left].
    destruct (rev (t :: toks)) as [|fam l] eqn:Er; [|eauto].
    apply (f_equal (@length str)) in Er. rewrite length_rev in Er. discriminate.
Qed.

(** C2 (the code departs from the claim): on the one-character string
    made of a horizontal tab, which is whitespace for [str.split], the
    author-list parser does not return the empty sequence: the segment
    survives [strip(" ,.")], has no token, and [toks[-1]] raises
    [IndexError]. *)
Theorem smart_parse_authors_tab_raises :
  is_space TAB = true /\ smart_parse_authors [TAB] = Raise IndexError.
Proof. split; reflexivity. Qed.

(** C1 (the code departs from the claim): [parse_citation] raises
    [IndexError] on the input [a;<TAB>;b], whose middle author segment is
    whitespace that [strip(" ,.")] keeps; the comma stage is reached and
    does not yield a record. *)
Theorem parse_citation_raises :
  parse_citation (lit "a;" ++ [TAB] ++ lit ";b") = Raise IndexError.
Proof. vm_compute. reflexivity. Qed.

(** C4, as stated, fails: the given names do not keep their full stops. *)
Lemma smart_parse_authors_keeps_no_period :
  smart_parse_authors (lit "Smith, J.; Doe, A.")
  <> Ok [ {| family := lit "Smith"; given := lit "J." |};
          {| family := lit "Doe"; given := lit "A." |} ].
Proof. vm_compute. discriminate. Qed.

(** C4 (amended): [smart_parse_authors] on ["Smith, J.; Doe, A."] returns
    the two authors (Smith, J) and (Doe, A): each segment is trimmed of
    spaces, commas and full stops before it is split, so the full stop
    that ends a given name is removed. *)
Theorem smart_parse_authors_smith_doe :
  smart_parse_authors (lit "Smith, J.; Doe, A.")
  = Ok [ {| family := lit "Smith"; given := lit "J" |};
         {| family := lit "Doe"; given := lit "A" |} ].
Proof. vm_compute. reflexivity. Qed.

(** * The inline renderer *)

(** C8: under the name-year style the inline citation is
    [(Unknown, year)] for no author, [(family, year)] for one,
    [(family1 & family2, year)] for two and [(family1 et al., year)] for
    three or more, families taken in record order; three authors A, B, C
    with year 2020 give [(A et al., 2020)]. *)
Theorem apa_citation_templates (e : citation) :
  apa_citation e =
    match authors e with
    | [] => lit "(Unknown, " ++ year e ++ lit ")"
    | [a] => lit "(" ++ family a ++ lit ", " ++ year e ++ lit ")"
    | [a; b] =>
        lit "(" ++ family a ++ lit " & " ++ family b ++ lit ", " ++ year e ++ lit ")"
    | a :: _ :: _ :: _ => lit "(" ++ family a ++ lit " et al., " ++ year e ++ lit ")"
    end
  /\ apa_citation
       (citation_of [surname (lit "A"); surname (lit "B"); surname (lit "C")] (lit "2020"))
     = lit "(A et al., 2020)".
Proof.
  split; [|reflexivity].
  unfold apa_citation.
  destruct (authors e) as [|a [|b [|c l]]]; reflexivity.
Qed.

(** * Numbering of placeholders (pass 1 of [replace_ids]) *)

Lemma str_eqb_eq (a b : str) : str_eqb a b = true <-> a = b.
Proof.
  revert b. induction a as [|x a IH]; intros [|y b]; simpl;
    try (split; [discriminate|discriminate]); [tauto|].
  rewrite andb_true_iff, N.eqb_eq, IH. split.
  - intros [-> ->]. reflexivity.
  - intros E. injection E. auto.
Qed.

Lemma in_map_In (rid : str) (m : id_map) :
  in_map rid m = true <-> In rid (map fst m).
Proof.
  unfold in_map. rewrite existsb_exists, in_map_iff. split.
  - intros [kv [Hin E]]. apply str_eqb_eq in E. now exists kv.
  - intros [kv [E Hin]]. exists kv. split; [assumption|]. now apply str_eqb_eq.
Qed.

Lemma fold_number_doc (doc : document) (st : id_map * nat) :
  fold_left (fun st p => fold_left number_id (findall id_re (text p)) st) doc st
  = fold_left number_id (all_ids doc) st.
Proof.
  revert st. induction doc as [|p doc IH]; intros st; simpl; [reflexivity|].
  unfold all_ids in *. rewrite fold_left_app. apply IH.
Qed.

Lemma number_ids_numbered (doc : document) :
  fst (number_ids doc) = numbered (all_ids doc).
Proof. unfold number_ids, numbered. now rewrite fold_number_doc. Qed.

(** The counter is always one more than the size of the map. *)
Lemma counter_is_size (ids : list str) :
  snd (fold_left number_id ids ([], 1)) = S (length (numbered ids)).
Proof.
  unfold numbered. induction ids as [|x ids IH] using rev_ind; [reflexivity|].
  rewrite fold_left_app. simpl. unfold number_id at 1 3.
  destruct (in_map x _); [assumption|]. simpl.
  rewrite IH, length_app. simpl. lia.
Qed.

Lemma numbered_snoc (ids : list str) (x : str) :
  numbered (ids ++ [x]) =
    if in_map x (numbered ids) then numbered ids
    else numbered ids ++ [(x, S (length (numbered ids)))].
Proof.
  unfold numbered at 1. rewrite fold_left_app. simpl. unfold number_id at 1.
  fold (numbered ids). destruct (in_map x (numbered ids)); [reflexivity|].
  simpl. now rewrite counter_is_size.
Qed.

Lemma numbered_keys (ids : list str) (rid : str) :
  In rid (map fst (numbered ids)) <-> In rid ids.
Proof.
  revert rid. induction ids as [|x ids IH] using rev_ind; intros rid; [simpl; tauto|].
  rewrite numbered_snoc, in_app_iff. simpl.
  destruct (in_map x (numbered ids)) eqn:E.
  - apply in_map_In in E. apply IH in E as E'. rewrite IH.
    split; [tauto|]. intros [H|[<-|[]]]; assumption.
  - rewrite map_app, in_app_iff, IH. simpl. tauto.
Qed.

Lemma numbered_keys_nodup (ids : list str) : NoDup (map fst (numbered ids)).
Proof.
  induction ids as [|x ids IH] using rev_ind; [constructor|].
  rewrite numbered_snoc. destruct (in_map x (numbered ids)) eqn:E; [assumption|].
  rewrite map_app. simpl. apply NoDup_app; [assumption|repeat constructor; simpl; tauto|].
  intros a Ha [<-|[]]. apply in_map_In in Ha. congruence.
Qed.

Lemma numbered_numbers (ids : list str) :
  map snd (numbered ids) = seq 1 (length (numbered ids)).
Proof.
  induction ids as [|x ids IH] using rev_ind; [reflexivity|].
  rewrite numbered_snoc. destruct (in_map x (numbered ids)); [assumption|].
  rewrite map_app, length_app, seq_app, IH. reflexivity.
Qed.

(** The map has one key per distinct raw id. *)
Lemma numbered_size (ids : list str) :
  length (numbered ids) = length (nodup str_eq_dec ids).
Proof.
  rewrite <- (length_map fst).
  apply Nat.le_antisymm; apply NoDup_incl_length.
  - apply numbered_keys_nodup.
  - intros a Ha. apply nodup_In. now apply numbered_keys.
  - apply NoDup_nodup.
  - intros a Ha. apply nodup_In in Ha. now apply numbered_keys.
Qed.

(** A raw id has number [n] exactly when its first occurrence is preceded
    by [n - 1] distinct raw ids. *)
Lemma numbered_first_occurrence (ids : list str) (rid : str) (n : nat) :
  In (rid, n) (numbered ids) <->
  exists pre post,
    ids = pre ++ rid :: post /\ ~ In rid pre /\
    n = S (length (nodup str_eq_dec pre)).
Proof.
  induction ids as [|x ids IH] using rev_ind.
  - simpl. split; [tauto|]. intros [[|? ?] [post [E _]]]; discriminate.
  - rewrite numbered_snoc. split.
    + intros H.
      assert (Hcases : In (rid, n) (numbered ids) \/
                       (in_map x (numbered ids) = false /\ rid = x /\
                        n = S (length (numbered ids)))).
      { destruct (in_map x (numbered ids)); [now left|].
        apply in_app_or in H. destruct H as [H|[H|[]]]; [now left|].
        injection H as <- <-. right. auto. }
      destruct Hcases as [H1|[E [-> ->]]].
      * apply IH in H1. destruct H1 as [pre [post [-> [Hn ->]]]].
        exists pre, (post ++ [x]). rewrite <- app_assoc. auto.
      * exists ids, []. repeat split.
        -- intros Hin. apply (proj2 (numbered_keys _ _)) in Hin.
           apply in_map_In in Hin. congruence.
        -- now rewrite numbered_size.
    + intros [pre [post [E [Hn ->]]]].
      destruct post as [|y post] using rev_ind.
      * apply app_inj_tail in E. destruct E as [-> ->].
        destruct (in_map rid (numbered pre)) eqn:Ein.
        -- apply in_map_In in Ein. apply (proj1 (numbered_keys _ _)) in Ein.
           contradiction.
        -- apply in_or_app. right. left. now rewrite numbered_size.
      * clear IHpost.
        change (pre ++ rid :: post ++ [y]) with (pre ++ (rid :: post) ++ [y]) in E.
        rewrite app_assoc in E. apply app_inj_tail in E. destruct E as [-> ->].
        assert (H : In (rid, S (length (nodup str_eq_dec pre)))
                       (numbered (pre ++ rid :: post))).
        { apply IH. exists pre, post. auto. }
        destruct (in_map y _); [assumption|]. apply in_or_app. now left.
Qed.

(** * The numeric styles and the reference list *)



Lemma sorted_by_number_ascending (m : id_map) (a : nat) :
  map snd m = seq a (length m) -> sorted_by_number m = m.
Proof.
  revert a. induction m as [|x m IH]; intros a H; [reflexivity|].
  simpl in *. injection H as Hx Hm. rewrite (IH (S a) Hm).
  destruct m as [|y m]; [reflexivity|]. simpl in *.
  injection Hm as Hy _. rewrite Hx, Hy.
  destruct (a <=? S a)%nat eqn:E; [reflexivity|].
  apply Nat.leb_gt in E. lia.
Qed.

(** C10: the map returned by [replace_ids] does not depend on the
    library (nor on the style), so a raw id without a record takes a
    number all the same; the reference list built from that map has one
    line per raw id with a record, in map order and with the number of
    pass 1, the raw ids without a record being skipped: its numbers can
    have gaps, as for ["[id:x] [id:y]"] with a library holding [y] only,
    whose single reference line is numbered 2. *)
Theorem id_map_independent_of_library
    (doc : document) (lib1 lib2 : library) (style1 style2 : str) :
  snd (replace_ids doc lib1 style1) = snd (replace_ids doc lib2 style2)
  /\ reference_lines lib1 (snd (replace_ids doc lib1 style1))
     = flat_map
         (fun kv =>
            match lookup lib1 (fst kv) with
            | None => []
            | Some e => [para (reference_line (snd kv) (data e))]
            end)
         (snd (replace_ids doc lib2 style2))
  /\ (let lib := [ {| id := lit "y"; data := citation_of [] (lit "2020") |} ] in
      let doc := [para (lit "[id:x] [id:y]")] in
      snd (replace_ids doc lib IEEE) = [(lit "x", 1); (lit "y", 2)]
      /\ lookup lib (lit "x") = None
      /\ insert_refs (fst (replace_ids doc lib IEEE)) lib (snd (replace_ids doc lib IEEE)) IEEE
         = [ para (lit "[id:x] [2]");
             {| style_of := Heading 1; text := heading_zh |};
             para (lit "[2] .  (2020).") ]).
Proof.
  split; [reflexivity|]. split.
  - unfold replace_ids. cbn [snd]. unfold reference_lines.
    rewrite number_ids_numbered.
    rewrite (@sorted_by_number_ascending (numbered (all_ids doc)) 1)
      by apply numbered_numbers.
    reflexivity.
  - vm_compute. repeat split.
Qed.

(** * Facts about the pattern matcher *)

Section Repetition.

Variable p : char -> bool.

Lemma rep_unfold (greedy : bool) (lo : nat) (hi : option nat) (s : str) :
  rep greedy lo hi p s =
    let stop := if (lo =? 0)%nat then [([], s)] else [] in
    let more :=
      match s with
      | c :: s' =>
          if room hi && p c
          then map (fun '(m, rest) => (c :: m, rest)) (rep greedy (pred lo) (less hi) p s')
          else []
      | [] => []
      end in
    if greedy then more ++ stop else stop ++ more.
Proof. destruct s; reflexivity. Qed.

Lemma fits_less (hi : option nat) (n : nat) :
  room hi = true /\ fits (less hi) n <-> fits hi (S n).
Proof.
  destruct hi as [[|h]|]; simpl; split; try lia; try tauto.
Qed.

Lemma rep_spec (s : str) :
  forall greedy lo hi m rest,
    In (m, rest) (rep greedy lo hi p s) <->
    s = m ++ rest /\ forallb p m = true /\ lo <= length m /\ fits hi (length m).
Proof.
  induction s as [|c s IH]; intros greedy lo hi m rest; rewrite rep_unfold; cbv zeta.
  - assert (E : In (m, rest) (if (lo =? 0)%nat then [([], @nil char)] else [])
                <-> [] = m ++ rest /\ forallb p m = true /\ lo <= length m
                    /\ fits hi (length m)).
    { destruct (lo =? 0)%nat eqn:El.
      - apply Nat.eqb_eq in El. subst lo. simpl. split.
        + intros [H|[]]. injection H as <- <-. repeat split; [lia|].
          destruct hi; simpl; [lia|exact I].
        + intros [H _]. symmetry in H. apply app_eq_nil in H.
          destruct H as [-> ->]. now left.
      - apply Nat.eqb_neq in El. simpl. split; [tauto|].
        intros [H [_ [Hl _]]]. symmetry in H. apply app_eq_nil in H.
        destruct H as [-> _]. simpl in Hl. lia. }
    destruct greedy; simpl app; [|rewrite app_nil_r]; exact E.
  - assert (Estop : In (m, rest) (if (lo =? 0)%nat then [([], c :: s)] else [])
                    <-> m = [] /\ rest = c :: s /\ lo = 0).
    { destruct (lo =? 0)%nat eqn:El.
      - apply Nat.eqb_eq in El. simpl. split.
        + intros [H|[]]. injection H as <- <-. auto.
        + intros [-> [-> _]]. now left.
      - apply Nat.eqb_neq in El. simpl. split; [tauto|]. intros [_ [_ H]]. contradiction. }
    assert (Emore : In (m, rest)
                       (if room hi && p c
                        then map (fun '(m, rest) => (c :: m, rest))
                                 (rep greedy (pred lo) (less hi) p s)
                        else [])
                    <-> exists m', m = c :: m' /\ s = m' ++ rest /\ p c = true
                                   /\ forallb p m' = true /\ lo <= S (length m')
                                   /\ fits hi (S (length m'))).
    { destruct (room hi && p c) eqn:Erp.
      - apply andb_true_iff in Erp. destruct Erp as [Er Ep].
        rewrite in_map_iff. split.
        + intros [[m' rest'] [H Hin]]. injection H as <- <-.
          apply IH in Hin. destruct Hin as [-> [Hall [Hlo Hhi]]].
          exists m'. repeat split; try assumption; [lia|].
          apply fits_less. auto.
        + intros [m' [-> [-> [_ [Hall [Hlo Hhi]]]]]].
          exists (m', rest). split; [reflexivity|]. apply IH.
          repeat split; try assumption; [lia|]. now apply fits_less in Hhi.
      - simpl. split; [tauto|].
        intros [m' [_ [_ [Hp [_ [_ Hhi]]]]]]. apply fits_less in Hhi.
        destruct Hhi as [Hr _]. rewrite Hr, Hp in Erp. discriminate. }
    assert (E : In (m, rest) (if (lo =? 0)%nat then [([], c :: s)] else [])
                \/ In (m, rest)
                      (if room hi && p c
                       then map (fun '(m, rest) => (c :: m, rest))
                                (rep greedy (pred lo) (less hi) p s)
                       else [])
                <-> c :: s = m ++ rest /\ forallb p m = true /\ lo <= length m
                    /\ fits hi (length m)).
    { rewrite Estop, Emore. split.
      - intros [[-> [-> ->]]|[m' [-> [-> [Hp [Hall [Hlo Hhi]]]]]]].
        + repeat split; [simpl; lia|]. destruct hi; simpl; [lia|exact I].
        + simpl. rewrite Hp, Hall. auto.
      - intros [H [Hall [Hlo Hhi]]]. destruct m as [|x m'].
        + left. simpl in *. subst rest. repeat split. lia.
        + right. simpl in H. injection H as <- ->. simpl in Hall.
          apply andb_true_iff in Hall. destruct Hall as [Hp Hall].
          exists m'. repeat split; assumption. }
    destruct greedy; rewrite in_app_iff; rewrite <- E; tauto.
Qed.

(** The first outcome of a greedy repetition stops at the bound, at the
    end of the subject, or before a character outside the class. *)
Lemma rep_greedy_nonempty (s : str) (hi : option nat) :
  rep true 0 hi p s <> [].
Proof.
  rewrite rep_unfold. cbv zeta. simpl. intros H.
  apply app_eq_nil in H. destruct H as [_ H]. discriminate.
Qed.

Lemma rep_greedy_head (s : str) :
  forall lo hi m rest,
    hd_error (rep true lo hi p s) = Some (m, rest) ->
    hi = Some (length m) \/ rest = [] \/
    exists c rest', rest = c :: rest' /\ p c = false.
Proof.
  induction s as [|c s IH]; intros lo hi m rest; rewrite rep_unfold; cbv zeta.
  - simpl. destruct (lo =? 0)%nat; simpl; [|discriminate].
    intros H. injection H as <- <-. auto.
  - destruct (room hi && p c) eqn:Erp.
    + destruct (rep true (pred lo) (less hi) p s) as [|[m' rest'] l] eqn:Er.
      * simpl. destruct (lo =? 0)%nat eqn:El; simpl; [|discriminate].
        apply Nat.eqb_eq in El. subst lo. simpl in Er.
        exfalso. exact (rep_greedy_nonempty _ _ Er).
      * simpl. intros H. injection H as <- <-.
        assert (Hh : hd_error (rep true (pred lo) (less hi) p s) = Some (m', rest'))
          by now rewrite Er.
        apply IH in Hh. destruct Hh as [Hh|Hh]; [|now right].
        left. destruct hi as [[|h]|]; simpl in *; try discriminate.
        injection Hh as ->. reflexivity.
    + simpl. destruct (lo =? 0)%nat; simpl; [|discriminate].
      intros H. injection H as <- <-.
      apply andb_false_iff in Erp. destruct Erp as [Er|Ep].
      * left. destruct hi as [[|h]|]; simpl in Er; try discriminate. reflexivity.
      * right. right. now exists c, s.
Qed.

End Repetition.

Lemma run_sound (r : regex) :
  forall b s g m rest g',
    In (m, rest, g') (run r b s g) -> s = m ++ rest /\ lang r m.
Proof.
  induction r as [|p|gr lo hi p|r1 IH1 r2 IH2|r1 IH1 r2 IH2|n r IH| |];
    intros b s g m rest g'; simpl.
  - intros [H|[]]. injection H as <- <- <-. auto.
  - destruct s as [|c s]; [intros []|]. destruct (p c) eqn:Ep; [|intros []].
    intros [H|[]]. injection H as <- <- <-. split; [reflexivity|]. now exists c.
  - rewrite in_map_iff. intros [[m' rest'] [H Hin]]. injection H as <- <- <-.
    apply rep_spec in Hin. tauto.
  - rewrite in_flat_map. intros [[[m1 s1] g1] [H1 H2]].
    apply in_map_iff in H2. destruct H2 as [[[m2 s2] g2] [E H2]].
    injection E as <- <- <-.
    apply IH1 in H1. apply IH2 in H2. destruct H1 as [-> L1], H2 as [-> L2].
    split; [now rewrite app_assoc|]. now exists m1, m2.
  - rewrite in_app_iff. intros [H|H]; [apply IH1 in H|apply IH2 in H]; tauto.
  - rewrite in_map_iff. intros [[[m' rest'] g''] [E H]]. injection E as <- <- <-.
    now apply IH in H.
  - destruct b; [|intros []]. intros [H|[]]. injection H as <- <- <-. auto.
  - destruct (is_empty s || str_eqb s [LF]); [|intros []].
    intros [H|[]]. injection H as <- <- <-. auto.
Qed.

Lemma run_complete (r : regex) :
  anchor_free r = true ->
  forall m, lang r m ->
  forall b rest g, exists g', In (m, rest, g') (run r b (m ++ rest) g).
Proof.
  induction r as [|p|gr lo hi p|r1 IH1 r2 IH2|r1 IH1 r2 IH2|n r IH| |];
    simpl; intros Haf m Hm b rest g; try discriminate.
  - subst m. exists g. now left.
  - destruct Hm as [c [-> Hc]]. simpl. rewrite Hc. exists g. now left.
  - exists g. apply in_map_iff. exists (m, rest). split; [reflexivity|].
    apply rep_spec. tauto.
  - apply andb_true_iff in Haf. destruct Haf as [A1 A2].
    destruct Hm as [m1 [m2 [-> [L1 L2]]]].
    destruct (IH1 A1 m1 L1 b (m2 ++ rest) g) as [g1 H1].
    destruct (IH2 A2 m2 L2 (b && is_empty m1) rest g1) as [g2 H2].
    exists g2. rewrite <- app_assoc. apply in_flat_map.
    exists (m1, m2 ++ rest, g1). split; [assumption|].
    apply in_map_iff. now exists (m2, rest, g2).
  - apply andb_true_iff in Haf. destruct Haf as [A1 A2].
    destruct Hm as [L|L].
    + destruct (IH1 A1 m L b rest g) as [g' H]. exists g'. apply in_or_app. now left.
    + destruct (IH2 A2 m L b rest g) as [g' H]. exists g'. apply in_or_app. now right.
  - destruct (IH Haf m Hm b rest g) as [g' H]. exists ((n, m) :: g').
    apply in_map_iff. now exists (m, rest, g').
Qed.

Lemma hd_error_map (A B : Type) (f : A -> B) (l : list A) :
  hd_error (map f l) = option_map f (hd_error l).
Proof. destruct l; reflexivity. Qed.

Lemma hd_error_In (A : Type) (l : list A) (x : A) :
  hd_error l = Some x -> In x l.
Proof. destruct l; simpl; [discriminate|]. intros H. injection H as ->. now left. Qed.

(** The first element of [flat_map f l] comes from the first element of
    [l] whose image is not empty. *)
Lemma hd_error_flat_map (A B : Type) (f : A -> list B) (l : list A) (y : B) :
  hd_error (flat_map f l) = Some y ->
  exists l1 a l2,
    l = l1 ++ a :: l2 /\ (forall a', In a' l1 -> f a' = []) /\
    hd_error (f a) = Some y.
Proof.
  induction l as [|a l IH]; simpl; [discriminate|].
  destruct (f a) as [|y' l'] eqn:E.
  - simpl. intros H. destruct (IH H) as [l1 [a0 [l2 [-> [Hl1 Ha0]]]]].
    exists (a :: l1), a0, l2. split; [reflexivity|]. split; [|assumption].
    intros a' [<-|Hin]; [assumption|now apply Hl1].
  - simpl. intros H. injection H as ->.
    exists [], a, l. split; [reflexivity|]. split; [intros a' []|].
    now rewrite E.
Qed.

(** The first outcome of a sequence: an outcome of the first pattern,
    such that no outcome tried before it lets the second pattern match,
    followed by the first outcome of the second pattern. *)
Lemma run_seq_head (r1 r2 : regex) (b : bool) (s : str) (g : groups)
    (m rest : str) (g' : groups) :
  hd_error (run (Seq r1 r2) b s g) = Some (m, rest, g') ->
  exists l1 l2 m1 s1 g1 m2,
    run r1 b s g = l1 ++ (m1, s1, g1) :: l2 /\
    (forall m1' s1' g1',
        In (m1', s1', g1') l1 -> run r2 (b && is_empty m1') s1' g1' = []) /\
    hd_error (run r2 (b && is_empty m1) s1 g1) = Some (m2, rest, g') /\
    m = m1 ++ m2.
Proof.
  simpl. intros H. apply hd_error_flat_map in H.
  destruct H as [l1 [[[m1 s1] g1] [l2 [E [Hl1 H]]]]].
  cbv beta iota in H. rewrite hd_error_map in H.
  match type of H with
  | option_map _ ?x = _ => destruct x as [[[m2 s2] g2]|] eqn:E2
  end; [|simpl in H; discriminate].
  simpl in H. injection H as <- <- <-.
  exists l1, l2, m1, s1, g1, m2. repeat split; try assumption.
  intros m1' s1' g1' Hin. specialize (Hl1 _ Hin). simpl in Hl1.
  destruct (run r2 (b && is_empty m1') s1' g1'); [reflexivity|discriminate].
Qed.

Lemma run_grp_head (n : string) (r : regex) (b : bool) (s : str) (g : groups)
    (m rest : str) (g' : groups) :
  hd_error (run (Grp n r) b s g) = Some (m, rest, g') ->
  exists g0, g' = (n, m) :: g0 /\ hd_error (run r b s g) = Some (m, rest, g0).
Proof.
  simpl. rewrite hd_error_map.
  match goal with
  | |- option_map _ ?x = _ -> _ => destruct x as [[[m0 rest0] g0]|] eqn:E
  end; [|simpl; discriminate].
  simpl. intros H. injection H as <- <- <-. exists g0.
  split; [reflexivity|exact E].
Qed.

Lemma group_head (n : string) (m v : str) (g : groups) :
  group n (m, (n, v) :: g) = v.
Proof. unfold group. simpl. now rewrite String.eqb_refl. Qed.

Lemma first_match_head (r : regex) (b : bool) (s : str) (mo : match_object) :
  first_match r b s = Some mo <->
  exists rest, hd_error (run r b s []) = Some (fst mo, rest, snd mo).
Proof.
  unfold first_match. destruct (run r b s []) as [|[[m rest] g] l]; simpl.
  - split; [discriminate|]. intros [rest H]. discriminate.
  - destruct mo as [m' g']. simpl. split.
    + intros H. injection H as <- <-. now exists rest.
    + intros [rest' H]. injection H as <- _ <-. reflexivity.
Qed.

Lemma first_match_none (r : regex) (b : bool) (s : str) :
  first_match r b s = None <-> run r b s [] = [].
Proof.
  unfold first_match. destruct (run r b s []) as [|[[m rest] g] l];
    split; try reflexivity; discriminate.
Qed.

(** [re.search] reports a leftmost match. *)
Lemma search_from_some (r : regex) (s : str) :
  anchor_free r = true ->
  forall b mo,
    search_from r b s = Some mo ->
    exists pre rest b',
      s = pre ++ fst mo ++ rest /\
      hd_error (run r b' (fst mo ++ rest) []) = Some (fst mo, rest, snd mo) /\
      (forall pre' m' rest',
          s = pre' ++ m' ++ rest' -> lang r m' -> length pre <= length pre').
Proof.
  intros Haf. induction s as [|c s IH]; intros b mo; simpl.
  - destruct (first_match r b []) as [mo'|] eqn:E; [|discriminate].
    intros H. injection H as ->. apply first_match_head in E.
    destruct E as [rest E]. pose proof (hd_error_In _ E) as Hin.
    apply run_sound in Hin. destruct Hin as [Es _].
    exists [], rest, b. simpl. rewrite <- Es.
    split; [reflexivity|]. split; [assumption|]. intros. lia.
  - destruct (first_match r b (c :: s)) as [mo'|] eqn:E.
    + intros H. injection H as ->. apply first_match_head in E.
      destruct E as [rest E]. pose proof (hd_error_In _ E) as Hin.
      apply run_sound in Hin. destruct Hin as [Es _].
      exists [], rest, b. simpl. rewrite <- Es.
      split; [reflexivity|]. split; [assumption|]. intros. lia.
    + intros H. apply IH in H. destruct H as [pre [rest [b' [Es [Hh Hleft]]]]].
      exists (c :: pre), rest, b'. split; [simpl; now rewrite Es|].
      split; [assumption|].
      intros [|c' pre'] m' rest' E' L'.
      * exfalso. simpl in E'. apply first_match_none in E.
        destruct (@run_complete r Haf m' L' b rest' []) as [g' Hin].
        rewrite <- E', E in Hin. destruct Hin.
      * simpl in E'. injection E' as _ E'. simpl.
        specialize (Hleft _ _ _ E' L'). lia.
Qed.

Lemma search_from_none (r : regex) (s : str) :
  anchor_free r = true ->
  forall b,
    search_from r b s = None ->
    forall pre m rest, s = pre ++ m ++ rest -> ~ lang r m.
Proof.
  intros Haf. induction s as [|c s IH]; intros b; simpl.
  - destruct (first_match r b []) eqn:E; [discriminate|]. intros _.
    intros pre m rest Es L. symmetry in Es.
    apply app_eq_nil in Es. destruct Es as [-> Es].
    apply app_eq_nil in Es. destruct Es as [-> ->].
    apply first_match_none in E.
    destruct (@run_complete r Haf [] L b [] []) as [g' Hin].
    simpl in Hin. rewrite E in Hin. destruct Hin.
  - destruct (first_match r b (c :: s)) eqn:E; [discriminate|].
    intros H [|c' pre] m rest Es L.
    + simpl in Es. apply first_match_none in E.
      destruct (@run_complete r Haf m L b rest []) as [g' Hin].
      rewrite <- Es, E in Hin. destruct Hin.
    + simpl in Es. injection Es as _ Es. exact (IH _ H _ _ _ Es L).
Qed.

(** * The year found by the fallback stages *)

Lemma lang_two_digits (x y : char) (m : str) :
  lang (Lit [x; y] >> counted 2 2 is_decimal) m <->
  exists a b, is_decimal a = true /\ is_decimal b = true /\ m = [x; y; a; b].
Proof.
  simpl. split.
  - intros [m1 [m2 [-> [L1 [Hall [Hlo Hhi]]]]]].
    destruct L1 as [m3 [m4 [-> [Lx Ly]]]].
    destruct Lx as [c [-> Hc]].
    destruct Ly as [m5 [m6 [-> [Ly ->]]]].
    destruct Ly as [d [-> Hd]].
    apply N.eqb_eq in Hc, Hd. subst c d.
    destruct m2 as [|a [|b [|? ?]]]; simpl in Hlo, Hhi; try lia.
    simpl in Hall. rewrite andb_true_r in Hall.
    apply andb_true_iff in Hall. destruct Hall as [Ha Hb].
    exists a, b. auto.
  - intros [a [b [Ha [Hb ->]]]].
    exists [x; y], [a; b]. split; [reflexivity|]. split.
    + exists [x], [y]. split; [reflexivity|]. split.
      * exists x. split; [reflexivity|apply N.eqb_refl].
      * exists [y], []. split; [reflexivity|]. split; [|reflexivity].
        exists y. split; [reflexivity|apply N.eqb_refl].
    + simpl. rewrite Ha, Hb. repeat split; lia.
Qed.

Lemma lang_year_re (y : str) : lang year_re y <-> year_shape y.
Proof.
  unfold year_shape. change (lang year_re y) with
    (lang (Lit [ch "1"; ch "9"] >> counted 2 2 is_decimal) y
     \/ lang (Lit [ch "2"; ch "0"] >> counted 2 2 is_decimal) y).
  rewrite !lang_two_digits. split.
  - intros [[a [b [Ha [Hb ->]]]]|[a [b [Ha [Hb ->]]]]]; exists a, b; auto.
  - intros [a [b [Ha [Hb [-> | ->]]]]]; [left|right]; exists a, b; auto.
Qed.

Lemma search_year_re (text : str) :
  match search year_re text with
  | Some y => exists pre post, leftmost year_shape text pre (group "1" y) post
  | None => absent year_shape text
  end.
Proof.
  unfold search. destruct (search_from year_re true text) as [[m g]|] eqn:E.
  - apply search_from_some in E; [|reflexivity].
    destruct E as [pre [rest [b' [Es [Hh Hleft]]]]]. cbn [fst snd] in Es, Hh.
    pose proof (hd_error_In _ Hh) as Hin. apply run_sound in Hin.
    destruct Hin as [_ L].
    apply run_grp_head in Hh. destruct Hh as [g0 [-> _]].
    rewrite group_head. exists pre, rest. split; [assumption|].
    split; [now apply lang_year_re|].
    intros pre' y' post' E' Hy'. apply (Hleft pre' y' post' E').
    now apply lang_year_re.
  - intros pre y post Es Hy.
    apply (@search_from_none year_re text eq_refl true E pre y post Es).
    now apply lang_year_re.
Qed.

Lemma fallback_year (raw : str) (r : citation) :
  parse_citation raw = Ok r ->
  re_match apa (normalize raw) = None ->
  year r = scanned_year (normalize raw).
Proof.
  unfold parse_citation, scanned_year. intros H Hapa. rewrite Hapa in H.
  set (text := normalize raw) in *.
  destruct (search doi_re text), (search url_re text), (search pages_re text);
    destruct (2 <=? length (segments (ch ".") text))%nat;
    repeat match type of H with
      | context [smart_parse_authors ?x] => destruct (smart_parse_authors x)
      | context [if ?c then _ else _] => destruct c
      | context [search year_re text] => destruct (search year_re text)
      end;
    simpl in H; try discriminate; injection H as <-; reflexivity.
Qed.

(** ** Matches of the whole text and matches of the normalized text

    Normalization turns line feeds into spaces and trims whitespace.  A
    text that neither starts nor ends with whitespace occurs at the same
    places before and after, up to its line feeds. *)

Lemma decimal_not_space (c : char) : is_decimal c = true -> is_space c = false.
Proof.
  intros Hd. destruct (is_space c) eqn:Es; [|reflexivity].
  unfold is_space in Es. apply existsb_exists in Es.
  destruct Es as [k [Hin Hk]]. apply N.eqb_eq in Hk. subst k.
  simpl in Hin.
  repeat (destruct Hin as [<-|Hin]; [vm_compute in Hd; discriminate|]).
  destruct Hin.
Qed.

Lemma replace_line_feeds (s : str) : replace [LF] (lit " ") s = map unfold_line s.
Proof.
  unfold replace. induction s as [|c s IH]; [reflexivity|].
  cbn [replace_from starts_with length pred map]. rewrite IH.
  unfold unfold_line. rewrite (N.eqb_sym LF c).
  destruct (c =? LF)%N; reflexivity.
Qed.

Lemma unfold_line_cases (c : char) :
  (c = LF /\ unfold_line c = SPACE) \/ unfold_line c = c.
Proof.
  unfold unfold_line. destruct (c =? LF)%N eqn:E; [left|right; reflexivity].
  apply N.eqb_eq in E. auto.
Qed.

Lemma is_space_unfold_line (c : char) : is_space (unfold_line c) = is_space c.
Proof. destruct (unfold_line_cases c) as [[-> ->]| ->]; reflexivity. Qed.

Lemma is_decimal_unfold_line (c : char) : is_decimal (unfold_line c) = is_decimal c.
Proof. destruct (unfold_line_cases c) as [[-> ->]| ->]; reflexivity. Qed.

Lemma is_dash_unfold_line (c : char) : is_dash (unfold_line c) = is_dash c.
Proof. destruct (unfold_line_cases c) as [[-> ->]| ->]; reflexivity. Qed.

Lemma forallb_map_invariant (p : char -> bool) (f : char -> char) (w : str) :
  (forall c, p (f c) = p c) -> forallb p (map f w) = forallb p w.
Proof.
  intros H. induction w as [|c w IH]; [reflexivity|]. simpl. now rewrite H, IH.
Qed.

Lemma lstrip_by_split (p : char -> bool) (s : str) :
  exists a, s = a ++ lstrip_by p s /\ forallb p a = true.
Proof.
  induction s as [|c s [a [E Ha]]]; [now exists []|]. simpl.
  destruct (p c) eqn:Ep.
  - exists (c :: a). simpl. rewrite Ep, Ha. split; [now rewrite <- E|reflexivity].
  - now exists [].
Qed.

Lemma strip_by_split (p : char -> bool) (s : str) :
  exists a b, s = a ++ strip_by p s ++ b /\ forallb p a = true /\ forallb p b = true.
Proof.
  unfold strip_by, rstrip_by.
  destruct (lstrip_by_split p s) as [a [Ea Ha]].
  destruct (lstrip_by_split p (rev (lstrip_by p s))) as [b [Eb Hb]].
  exists a, (rev b). split; [|split; [assumption|]].
  - rewrite <- rev_app_distr, <- Eb, rev_involutive. exact Ea.
  - rewrite forallb_forall in *. intros x Hx. apply Hb. now apply in_rev.
Qed.

(** An occurrence of a text that does not start with whitespace begins
    after a whitespace margin. *)
Lemma occurrence_past_margin (a core pre y post : str) :
  forallb is_space a = true -> starts_clean y ->
  a ++ core = pre ++ y ++ post ->
  exists pre', pre = a ++ pre' /\ core = pre' ++ y ++ post.
Proof.
  revert pre. induction a as [|c a IH]; intros pre Ha Hy E.
  - now exists pre.
  - simpl in Ha. apply andb_true_iff in Ha. destruct Ha as [Hc Ha].
    destruct pre as [|c' pre].
    + destruct y as [|d y]; [contradiction|].
      simpl in E. injection E as <- _. simpl in Hy. congruence.
    + simpl in E. injection E as <- E.
      destruct (IH pre Ha Hy E) as [pre' [-> E']].
      now exists pre'.
Qed.

Lemma occurrence_inside_margins (a core b pre y post : str) :
  forallb is_space a = true -> forallb is_space b = true ->
  starts_clean y -> starts_clean (rev y) ->
  a ++ core ++ b = pre ++ y ++ post ->
  exists pre' post', pre = a ++ pre' /\ post = post' ++ b /\ core = pre' ++ y ++ post'.
Proof.
  intros Ha Hb Hy Hr E.
  destruct (@occurrence_past_margin a (core ++ b) pre y post Ha Hy E) as [pre' [-> E']].
  assert (Er : rev b ++ rev core = rev post ++ rev y ++ rev pre').
  { rewrite <- !rev_app_distr, <- app_assoc. now f_equal. }
  assert (Hb' : forallb is_space (rev b) = true).
  { rewrite forallb_forall in *. intros x Hx. apply Hb. now apply in_rev. }
  destruct (@occurrence_past_margin (rev b) (rev core) (rev post) (rev y) (rev pre')
              Hb' Hr Er) as [q [Eq Ec]].
  exists pre', (rev q). split; [reflexivity|]. split.
  - apply (f_equal (@rev char)) in Eq.
    now rewrite rev_involutive, rev_app_distr, rev_involutive in Eq.
  - apply (f_equal (@rev char)) in Ec.
    rewrite rev_involutive, !rev_app_distr, !rev_involutive, <- app_assoc in Ec.
    exact Ec.
Qed.

Lemma map_unfold_line_no_space (y : str) : no_space y -> map unfold_line y = y.
Proof.
  unfold no_space. induction y as [|c y IH]; [reflexivity|]. simpl.
  intros H. apply andb_true_iff in H. destruct H as [Hc Hy].
  rewrite (IH Hy). f_equal.
  destruct (unfold_line_cases c) as [[-> _]|E]; [discriminate|exact E].
Qed.

Lemma map_unfold_line_inv (y0 y : str) :
  no_space y -> map unfold_line y0 = y -> y0 = y.
Proof.
  unfold no_space. revert y. induction y0 as [|c y0 IH]; intros [|d y]; simpl;
    try discriminate; [reflexivity|].
  intros H E. injection E as Ec Ey. apply andb_true_iff in H. destruct H as [Hd Hy].
  rewrite (IH y Hy Ey). f_equal.
  destruct (unfold_line_cases c) as [[_ E]|E]; [|congruence].
  rewrite E in Ec. subst d. discriminate.
Qed.

Section Transfer.

Variable shape : str -> Prop.
Hypothesis shape_clean : forall y, shape y -> starts_clean y /\ starts_clean (rev y).
Hypothesis shape_unfold : forall y, shape (map unfold_line y) <-> shape y.

Lemma occurrence_of_normalized (raw : str) :
  exists a b : str,
    forallb is_space b = true /\
    (forall pre y post,
        shape y -> normalize raw = pre ++ y ++ post ->
        exists pre0 y0 post0,
          raw = pre0 ++ y0 ++ post0 /\ map unfold_line y0 = y /\
          map unfold_line post0 = post ++ b /\
          length pre0 = length a + length pre) /\
    (forall pre0 y0 post0,
        shape y0 -> raw = pre0 ++ y0 ++ post0 ->
        exists pre post,
          normalize raw = pre ++ map unfold_line y0 ++ post /\
          length pre0 = length a + length pre).
Proof.
  unfold normalize. rewrite replace_line_feeds.
  destruct (strip_by_split is_space (map unfold_line raw)) as [a [b [E [Ha Hb]]]].
  fold strip in E. set (core := strip (map unfold_line raw)) in *.
  exists a, b. split; [exact Hb|]. split.
  - intros pre y post Hy Ec. rewrite Ec in E.
    assert (E' : map unfold_line raw = (a ++ pre) ++ y ++ (post ++ b))
      by (rewrite E, <- !app_assoc; reflexivity).
    apply map_eq_app in E'. destruct E' as [pre0 [rest0 [-> [Ep E']]]].
    apply map_eq_app in E'. destruct E' as [y0 [post0 [-> [Ey Eq]]]].
    exists pre0, y0, post0. split; [reflexivity|]. split; [exact Ey|].
    split; [exact Eq|].
    apply (f_equal (@length char)) in Ep. rewrite length_map, length_app in Ep.
    exact Ep.
  - intros pre0 y0 post0 Hy Er.
    apply shape_unfold in Hy. destruct (shape_clean Hy) as [Hc Hr].
    rewrite Er, !map_app in E. symmetry in E.
    destruct (@occurrence_inside_margins a core b _ _ _ Ha Hb Hc Hr E)
      as [pre [post [Ep [Eq Ec]]]].
    exists pre, post. split; [exact Ec|].
    apply (f_equal (@length char)) in Ep. rewrite length_map, length_app in Ep.
    exact Ep.
Qed.

Lemma leftmost_of_normalized (raw pre y post : str) :
  leftmost shape (normalize raw) pre y post ->
  exists pre0 y0 post0 b,
    leftmost shape raw pre0 y0 post0 /\ map unfold_line y0 = y /\
    forallb is_space b = true /\ map unfold_line post0 = post ++ b.
Proof.
  intros [E [Hy Hleft]].
  destruct (occurrence_of_normalized raw) as [a [b [Hb [To From]]]].
  destruct (To pre y post Hy E) as [pre0 [y0 [post0 [E0 [Ey [Eq L0]]]]]].
  exists pre0, y0, post0, b.
  split; [|split; [exact Ey|split; [exact Hb|exact Eq]]].
  split; [assumption|]. split; [apply shape_unfold; now rewrite Ey|].
  intros pre1 y1 post1 E1 Hy1.
  destruct (From pre1 y1 post1 Hy1 E1) as [pre2 [post2 [E2 L2]]].
  apply shape_unfold in Hy1.
  specialize (Hleft pre2 _ post2 E2 Hy1). lia.
Qed.

Lemma absent_of_normalized (raw : str) :
  absent shape (normalize raw) -> absent shape raw.
Proof.
  intros H pre0 y post0 E0 Hy.
  destruct (occurrence_of_normalized raw) as [a [b [_ [_ From]]]].
  destruct (From pre0 y post0 Hy E0) as [pre [post [E _]]].
  apply shape_unfold in Hy. exact (H pre _ post E Hy).
Qed.

End Transfer.

Lemma year_shape_no_space (y : str) : year_shape y -> no_space y.
Proof.
  intros [a [b [Ha [Hb [-> | ->]]]]];
    unfold no_space; simpl;
    rewrite (decimal_not_space _ Ha), (decimal_not_space _ Hb); reflexivity.
Qed.

Lemma year_shape_clean (y : str) :
  year_shape y -> starts_clean y /\ starts_clean (rev y).
Proof.
  intros [a [b [Ha [Hb [-> | ->]]]]]; simpl;
    (split; [reflexivity|exact (decimal_not_space _ Hb)]).
Qed.

Lemma year_shape_unfold (y : str) : year_shape (map unfold_line y) <-> year_shape y.
Proof.
  split; intros H.
  - pose proof (year_shape_no_space H) as Hn.
    now rewrite (map_unfold_line_inv y Hn eq_refl).
  - now rewrite (map_unfold_line_no_space (year_shape_no_space H)).
Qed.

(** C5, as stated, fails: in ["x, 120195"] no year of four digits stands
    alone (the only digit run has six digits), yet the comma stage sets
    the year to the run ["2019"] found inside it. *)
Lemma year_inside_longer_number :
  exists r,
    parse_citation (lit "x, 120195") = Ok r
    /\ re_match apa (normalize (lit "x, 120195")) = None
    /\ year r = lit "2019"
    /\ ~ (exists pre y post,
            lit "x, 120195" = pre ++ y ++ post /\ year_shape y
            /\ digit_before pre = false /\ digit_after post = false).
Proof.
  eexists. split; [vm_compute; reflexivity|].
  split; [vm_compute; reflexivity|]. split; [reflexivity|].
  intros [pre [y [post [E [Hy [Hb _]]]]]].
  destruct Hy as [a [b [_ [_ Hy]]]].
  vm_compute in E.
  destruct Hy as [-> | ->]; vm_compute in E;
    do 10 (destruct pre as [|? pre]; simpl in E;
           [ try discriminate E; try (vm_compute in Hb; discriminate Hb)
           | first [discriminate E | injection E as <- E] ]).
Qed.

(** C5 (amended): when the structured stage does not match and a
    fallback stage returns the record, its year is the leftmost text of
    the form [19dd] or [20dd] ([d] a decimal digit) in the entire original
    text, whether it stands alone or lies inside a longer run of digits,
    and is empty when the text has no such part. *)
Theorem fallback_year_leftmost (raw : str) (r : citation) :
  parse_citation raw = Ok r ->
  re_match apa (normalize raw) = None ->
  (exists pre post, leftmost year_shape raw pre (year r) post)
  \/ (absent year_shape raw /\ year r = []).
Proof.
  intros H Hapa. rewrite (fallback_year raw H Hapa). unfold scanned_year.
  pose proof (search_year_re (normalize raw)) as Hs.
  destruct (search year_re (normalize raw)) as [y|].
  - left. destruct Hs as [pre [post Hl]].
    destruct (@leftmost_of_normalized year_shape year_shape_clean year_shape_unfold
                raw pre _ post Hl) as [pre0 [y0 [post0 [_ [Hl0 [Ey _]]]]]].
    destruct Hl as [_ [Hy _]].
    rewrite (map_unfold_line_inv y0 (year_shape_no_space Hy) Ey) in Hl0.
    now exists pre0, post0.
  - right. split; [|reflexivity].
    exact (@absent_of_normalized year_shape year_shape_clean year_shape_unfold raw Hs).
Qed.

Lemma fallback_year_leftmost_witness :
  (exists pre post,
      leftmost year_shape (lit "x, 120195") pre (year sample_fallback_record) post)
  \/ (absent year_shape (lit "x, 120195") /\ year sample_fallback_record = []).
Proof.
  apply fallback_year_leftmost; vm_compute; reflexivity.
Defined.

(** * The page range *)

Lemma lang_star_space (w : str) : lang (star is_space) w <-> blanks w.
Proof.
  unfold blanks. simpl. split; [tauto|]. intros H. repeat split; [assumption|lia].
Qed.

Lemma lang_pages_re (m : str) : lang pages_re m <-> page_range m.
Proof.
  unfold page_range.
  change (lang pages_re m) with
    (exists m1 m2, m = m1 ++ m2 /\ lang (counted 1 5 is_decimal) m1 /\
     exists m3 m4, m2 = m3 ++ m4 /\ lang (star is_space) m3 /\
     exists m5 m6, m4 = m5 ++ m6 /\ (exists c, m5 = [c] /\ is_dash c = true) /\
     exists m7 m8, m6 = m7 ++ m8 /\ lang (star is_space) m7 /\
                   lang (counted 1 5 is_decimal) m8).
  split.
  - intros [d1 [m2 [-> [H1 H]]]].
    destruct H as [w1 [m4 [-> [H2 H]]]].
    destruct H as [m5 [m6 [-> [[c [-> Hc]] H]]]].
    destruct H as [w2 [d2 [-> [H3 H4]]]].
    exists d1, w1, c, w2, d2. rewrite lang_star_space in H2, H3. auto 10.
  - intros [d1 [w1 [c [w2 [d2 [-> [H1 [H2 [Hc [H3 H4]]]]]]]]]].
    exists d1, (w1 ++ [c] ++ w2 ++ d2). repeat split; try apply H1.
    exists w1, ([c] ++ w2 ++ d2). split; [reflexivity|].
    split; [now apply lang_star_space|].
    exists [c], (w2 ++ d2). split; [reflexivity|]. split; [now exists c|].
    exists w2, d2. split; [reflexivity|]. split; [now apply lang_star_space|].
    exact H4.
Qed.

(** The first outcome of the page pattern at a position: its second
    number takes as many digits as it can. *)
Lemma pages_re_head (b : bool) (s m rest : str) (g : groups) :
  hd_error (run pages_re b s []) = Some (m, rest, g) ->
  group "1" (m, g) = m /\
  exists d1 w1 dash w2 d2,
    m = d1 ++ w1 ++ [dash] ++ w2 ++ d2 /\
    digits d1 /\ blanks w1 /\ is_dash dash = true /\ blanks w2 /\ digits d2 /\
    (length d2 = 5 \/ digit_after rest = false).
Proof.
  unfold pages_re. intros H.
  apply run_grp_head in H. destruct H as [g0 [-> H]].
  split; [apply group_head|].
  apply run_seq_head in H.
  destruct H as [k1 [k2 [d1 [s1 [g1 [m2 [E1 [_ [H ->]]]]]]]]].
  assert (H1 : In (d1, s1, g1) (run (counted 1 5 is_decimal) b s []))
    by (rewrite E1; apply in_elt).
  apply run_sound in H1. destruct H1 as [_ H1].
  apply run_seq_head in H.
  destruct H as [l1 [l2 [w1 [s2 [g2 [m3 [E2 [_ [H ->]]]]]]]]].
  assert (H2 : In (w1, s2, g2) (l1 ++ (w1, s2, g2) :: l2)) by apply in_elt.
  rewrite <- E2 in H2. apply run_sound in H2. destruct H2 as [_ H2].
  apply run_seq_head in H.
  destruct H as [l3 [l4 [m5 [s3 [g3 [m4 [E3 [_ [H ->]]]]]]]]].
  assert (H3 : In (m5, s3, g3) (l3 ++ (m5, s3, g3) :: l4)) by apply in_elt.
  rewrite <- E3 in H3. apply run_sound in H3. destruct H3 as [_ [c [-> Hc]]].
  apply run_seq_head in H.
  destruct H as [l5 [l6 [w2 [s4 [g4 [d2 [E4 [_ [H ->]]]]]]]]].
  assert (H4 : In (w2, s4, g4) (l5 ++ (w2, s4, g4) :: l6)) by apply in_elt.
  rewrite <- E4 in H4. apply run_sound in H4. destruct H4 as [_ H4].
  pose proof (hd_error_In _ H) as H5. apply run_sound in H5. destruct H5 as [_ H5].
  exists d1, w1, c, w2, d2. split; [reflexivity|].
  split; [exact H1|]. split; [exact (proj1 (lang_star_space _) H2)|].
  split; [exact Hc|].
  split; [exact (proj1 (lang_star_space _) H4)|]. split; [exact H5|].
  unfold counted in H. cbn [run] in H. rewrite hd_error_map in H.
  match type of H with
  | option_map _ ?x = _ => destruct x as [[d2' rest']|] eqn:Er
  end; [|simpl in H; discriminate].
  simpl in H. injection H as -> -> _.
  apply rep_greedy_head in Er. destruct Er as [Er|[->|[c' [rest' [-> Hc']]]]].
  - left. now injection Er.
  - right. reflexivity.
  - right. exact Hc'.
Qed.

Lemma search_pages_re (text : str) :
  match search pages_re text with
  | Some mo =>
      exists pre d1 w1 dash w2 d2 post,
        group "1" mo = d1 ++ w1 ++ [dash] ++ w2 ++ d2 /\
        leftmost page_range text pre (group "1" mo) post /\
        digits d1 /\ blanks w1 /\ is_dash dash = true /\ blanks w2 /\ digits d2 /\
        (length d2 = 5 \/ digit_after post = false)
  | None => absent page_range text
  end.
Proof.
  unfold search. destruct (search_from pages_re true text) as [[m g]|] eqn:E.
  - apply search_from_some in E; [|reflexivity].
    destruct E as [pre [rest [b' [Es [Hh Hleft]]]]]. cbn [fst snd] in Es, Hh.
    pose proof (hd_error_In _ Hh) as Hin. apply run_sound in Hin.
    destruct Hin as [_ L].
    apply pages_re_head in Hh.
    destruct Hh as [Eg [d1 [w1 [c [w2 [d2 [Em [H1 [H2 [Hc [H3 [H4 H5]]]]]]]]]]]].
    rewrite Eg. exists pre, d1, w1, c, w2, d2, rest.
    split; [exact Em|]. split; [|auto 10].
    split; [exact Es|]. split; [now apply lang_pages_re|].
    intros pre' y' post' E' Hy'. apply (Hleft pre' y' post' E').
    now apply lang_pages_re.
  - intros pre y post Es Hy.
    apply (@search_from_none pages_re text eq_refl true E pre y post Es).
    now apply lang_pages_re.
Qed.

(** ** The pages field *)

Lemma replace_space_empty (s : str) : replace (lit " ") [] s = without_spaces s.
Proof.
  unfold replace. induction s as [|c s IH]; [reflexivity|].
  cbn [lit list_ascii_of_string map replace_from starts_with length pred app
       without_spaces filter] in *.
  change (N_of_ascii " ") with SPACE in *. rewrite IH, (N.eqb_sym SPACE c).
  destruct (c =? SPACE)%N; reflexivity.
Qed.

Lemma without_spaces_app (a b : str) :
  without_spaces (a ++ b) = without_spaces a ++ without_spaces b.
Proof. apply filter_app. Qed.

Lemma without_spaces_dash (c : char) : is_dash c = true -> without_spaces [c] = [c].
Proof.
  intros H. unfold without_spaces. simpl.
  destruct (c =? SPACE)%N eqn:E; [|reflexivity].
  apply N.eqb_eq in E. subst c. discriminate.
Qed.

Lemma without_spaces_digits (d : str) :
  forallb is_decimal d = true -> without_spaces d = d.
Proof.
  induction d as [|c d IH]; [reflexivity|]. simpl.
  intros H. apply andb_true_iff in H. destruct H as [Hc Hd].
  rewrite (IH Hd). destruct (c =? SPACE)%N eqn:E; [|reflexivity].
  apply N.eqb_eq in E. subst c. discriminate.
Qed.

Lemma without_spaces_unfolded (w : str) :
  without_spaces (map unfold_line w) = squeeze w.
Proof.
  induction w as [|c w IH]; [reflexivity|]. simpl. rewrite IH.
  unfold unfold_line. destruct (c =? LF)%N eqn:E; simpl.
  - now rewrite andb_false_r.
  - now rewrite andb_true_r.
Qed.

Lemma digits_no_space (d : str) : forallb is_decimal d = true -> no_space d.
Proof.
  unfold no_space. rewrite !forallb_forall. intros H x Hx.
  now rewrite (decimal_not_space _ (H x Hx)).
Qed.

Lemma digits_unfold (d : str) : digits (map unfold_line d) <-> digits d.
Proof.
  unfold digits.
  now rewrite length_map, (forallb_map_invariant _ _ d is_decimal_unfold_line).
Qed.

Lemma blanks_unfold (w : str) : blanks (map unfold_line w) <-> blanks w.
Proof.
  unfold blanks. now rewrite (forallb_map_invariant _ _ w is_space_unfold_line).
Qed.

(** The parts of a text whose unfolding is a page range. *)
Lemma page_range_parts (y0 d1 w1 w2 d2 : str) (c : char) :
  map unfold_line y0 = d1 ++ w1 ++ [c] ++ w2 ++ d2 ->
  exists d1' w1' c' w2' d2',
    y0 = d1' ++ w1' ++ [c'] ++ w2' ++ d2' /\
    map unfold_line d1' = d1 /\ map unfold_line w1' = w1 /\ unfold_line c' = c /\
    map unfold_line w2' = w2 /\ map unfold_line d2' = d2.
Proof.
  intros E.
  apply map_eq_app in E. destruct E as [d1' [r1 [-> [E1 E]]]].
  apply map_eq_app in E. destruct E as [w1' [r2 [-> [E2 E]]]].
  apply map_eq_app in E. destruct E as [k [r3 [-> [E3 E]]]].
  apply map_eq_app in E. destruct E as [w2' [d2' [-> [E4 E5]]]].
  destruct k as [|c' [|? ?]]; try discriminate. injection E3 as E3.
  exists d1', w1', c', w2', d2'. auto 10.
Qed.

Lemma page_range_unfold (y : str) : page_range (map unfold_line y) <-> page_range y.
Proof.
  split.
  - intros [d1 [w1 [c [w2 [d2 [E [H1 [H2 [Hc [H3 H4]]]]]]]]]].
    apply page_range_parts in E.
    destruct E as [d1' [w1' [c' [w2' [d2' [-> [<- [<- [<- [<- <-]]]]]]]]]].
    exists d1', w1', c', w2', d2'. split; [reflexivity|].
    rewrite digits_unfold in H1, H4. rewrite blanks_unfold in H2, H3.
    rewrite is_dash_unfold_line in Hc. auto 10.
  - intros [d1 [w1 [c [w2 [d2 [-> [H1 [H2 [Hc [H3 H4]]]]]]]]]].
    exists (map unfold_line d1), (map unfold_line w1), (unfold_line c),
      (map unfold_line w2), (map unfold_line d2).
    rewrite !map_app. split; [reflexivity|].
    rewrite !digits_unfold, !blanks_unfold, is_dash_unfold_line. auto 10.
Qed.

Lemma starts_clean_digits (d rest : str) :
  digits d -> starts_clean (d ++ rest).
Proof.
  intros [Hall [Hlo _]]. destruct d as [|c d]; [simpl in Hlo; lia|].
  simpl in *. apply andb_true_iff in Hall. destruct Hall as [Hc _].
  now apply decimal_not_space.
Qed.

Lemma digits_rev (d : str) : digits d -> digits (rev d).
Proof.
  unfold digits. rewrite length_rev, !forallb_forall. intros [H L]. split; [|exact L].
  intros x Hx. apply H. now apply in_rev.
Qed.

Lemma page_range_clean (y : str) :
  page_range y -> starts_clean y /\ starts_clean (rev y).
Proof.
  intros [d1 [w1 [c [w2 [d2 [-> [H1 [_ [_ [_ H4]]]]]]]]]]. split.
  - now apply starts_clean_digits.
  - rewrite !app_assoc, rev_app_distr. apply starts_clean_digits.
    now apply digits_rev.
Qed.

Lemma pages_field (raw : str) (r : citation) :
  parse_citation raw = Ok r ->
  pages r =
    match search pages_re (normalize raw) with
    | Some m => replace (lit " ") [] (group "1" m)
    | None => []
    end.
Proof.
  unfold parse_citation. intros H.
  set (text := normalize raw) in *.
  destruct (search doi_re text), (search url_re text), (search pages_re text);
    destruct (re_match apa text);
    try destruct (2 <=? length (segments (ch ".") text))%nat;
    repeat match type of H with
      | context [smart_parse_authors ?x] => destruct (smart_parse_authors x)
      | context [if ?c then _ else _] => destruct c
      | context [search year_re text] => destruct (search year_re text)
      end;
    simpl in H; try discriminate; injection H as <-; reflexivity.
Qed.

(** C3, as stated, fails: the en dash of ["pp. 123 – 456"] is not turned
    into a hyphen; the pages field ends up with U+2013 between the two
    numbers. *)
Lemma pages_keep_the_en_dash :
  exists r1,
    parse_citation (lit "pp. 123 " ++ [EN_DASH] ++ lit " 456") = Ok r1
    /\ pages r1 = lit "123" ++ [EN_DASH] ++ lit "456"
    /\ pages r1 <> lit "123-456".
Proof.
  eexists.
  split; [vm_compute; reflexivity|]. split; [reflexivity|].
  vm_compute; discriminate.
Qed.

(** Where the page range is, and what the stored field keeps of it. *)
Lemma pages_squeezed (raw : str) (r : citation) :
  parse_citation raw = Ok r ->
  (exists pre m post, raw = pre ++ m ++ post /\ page_range m) ->
  exists pre d1 w1 dash w2 d2 post,
    leftmost page_range raw pre (d1 ++ w1 ++ [dash] ++ w2 ++ d2) post /\
    digits d1 /\ blanks w1 /\ is_dash dash = true /\ blanks w2 /\ digits d2 /\
    (length d2 = 5 \/ digit_after post = false) /\
    pages r = d1 ++ squeeze w1 ++ [dash] ++ squeeze w2 ++ d2.
Proof.
  intros H [pre1 [m1 [post1 [E1 Hm1]]]]. rewrite (pages_field raw H).
  pose proof (search_pages_re (normalize raw)) as Hs.
  destruct (search pages_re (normalize raw)) as [mo|].
  2:{ exfalso.
      exact (@absent_of_normalized page_range page_range_clean page_range_unfold
               raw Hs pre1 m1 post1 E1 Hm1). }
  destruct Hs as [pre [d1 [w1 [c [w2 [d2 [post [Eg [Hl [H1 [H2 [Hc [H3 [H4 H5]]]]]]]]]]]]]].
  destruct (@leftmost_of_normalized page_range page_range_clean page_range_unfold
              raw pre _ post Hl) as [pre0 [y0 [post0 [b [Hl0 [Ey [Hb Eq]]]]]]].
  rewrite Eg in Ey |- *. apply page_range_parts in Ey.
  destruct Ey as [d1' [w1' [c' [w2' [d2' [-> [<- [<- [<- [<- <-]]]]]]]]]].
  rewrite digits_unfold in H1, H4. rewrite blanks_unfold in H2, H3.
  rewrite is_dash_unfold_line in Hc.
  assert (E1' : map unfold_line d1' = d1')
    by (apply map_unfold_line_no_space, digits_no_space, H1).
  assert (E4' : map unfold_line d2' = d2')
    by (apply map_unfold_line_no_space, digits_no_space, H4).
  assert (Ec : unfold_line c' = c').
  { destruct (unfold_line_cases c') as [[-> _]|E]; [discriminate|exact E]. }
  exists pre0, d1', w1', c', w2', d2', post0.
  split; [exact Hl0|]. split; [exact H1|]. split; [exact H2|].
  split; [exact Hc|]. split; [exact H3|]. split; [exact H4|]. split.
  - rewrite length_map in H5. destruct H5 as [H5|H5]; [now left|right].
    destruct post0 as [|x post0]; [reflexivity|]. simpl in Eq |- *.
    rewrite <- is_decimal_unfold_line.
    destruct post as [|p post]; simpl in Eq, H5.
    + subst b. simpl in Hb. apply andb_true_iff in Hb. destruct Hb as [Hx _].
      destruct (is_decimal (unfold_line x)) eqn:Ed; [|reflexivity].
      apply decimal_not_space in Ed. congruence.
    + injection Eq as -> _. exact H5.
  - rewrite replace_space_empty, E1', E4', Ec, !without_spaces_app.
    rewrite !without_spaces_unfolded, (without_spaces_digits _ (proj1 H1)),
      (without_spaces_digits _ (proj1 H4)), (without_spaces_dash _ Hc).
    reflexivity.
Qed.

Lemma squeeze_spaced (w : str) : spaced w -> squeeze w = [].
Proof.
  unfold spaced, squeeze. induction w as [|c w IH]; intros H; [reflexivity|].
  cbn [filter]. rewrite IH by (intros x Hx; apply H; now right).
  destruct (H c (or_introl eq_refl)) as [-> | ->]; reflexivity.
Qed.

(** C3 (amended): for every input text that contains a page range (one
    to five digits, whitespace, a hyphen or an en dash, whitespace, one to
    five digits), the leftmost page range of the text is the one the
    parser takes, its second number taking as many digits as the bound of
    five and the text allow; when the whitespace around its dash is made of
    spaces and line feeds, the pages field of the record is the first
    number, the dash as it was matched (an en dash stays an en dash) and the
    second number.  The text ["pp. 123 – 456"] gives ["123–456"], with the
    en dash. *)
Theorem pages_leftmost_range (raw : str) (r : citation) :
  parse_citation raw = Ok r ->
  (exists pre m post, raw = pre ++ m ++ post /\ page_range m) ->
  exists pre d1 w1 dash w2 d2 post,
    leftmost page_range raw pre (d1 ++ w1 ++ [dash] ++ w2 ++ d2) post /\
    digits d1 /\ blanks w1 /\ is_dash dash = true /\ blanks w2 /\ digits d2 /\
    (length d2 = 5 \/ digit_after post = false) /\
    (spaced w1 -> spaced w2 -> pages r = d1 ++ [dash] ++ d2).
Proof.
  intros H Hm.
  destruct (@pages_squeezed raw r H Hm)
    as [pre [d1 [w1 [c [w2 [d2 [post [Hl [H1 [H2 [Hc [H3 [H4 [H5 E]]]]]]]]]]]]]].
  exists pre, d1, w1, c, w2, d2, post.
  repeat (split; [assumption|]).
  intros S1 S2. now rewrite E, (@squeeze_spaced w1 S1), (@squeeze_spaced w2 S2).
Qed.

Lemma pages_leftmost_range_witness :
  exists pre d1 w1 dash w2 d2 post,
    leftmost page_range (lit "pp. 123 " ++ [EN_DASH] ++ lit " 456") pre
      (d1 ++ w1 ++ [dash] ++ w2 ++ d2) post /\
    digits d1 /\ blanks w1 /\ is_dash dash = true /\ blanks w2 /\ digits d2 /\
    (length d2 = 5 \/ digit_after post = false) /\
    (spaced w1 -> spaced w2 -> pages sample_pages_record = d1 ++ [dash] ++ d2).
Proof.
  apply pages_leftmost_range; [vm_compute; reflexivity|].
  exists (lit "pp. "), (lit "123 " ++ [EN_DASH] ++ lit " 456"), [].
  split; [reflexivity|].
  exists (lit "123"), (lit " "), EN_DASH, (lit " "), (lit "456").
  repeat split; simpl; lia.
Defined.

(** * Placeholder tokens *)

Lemma lang_Lit (l m : str) : lang (Lit l) m <-> m = l.
Proof.
  revert m. induction l as [|c l IH]; intros m; simpl; [tauto|]. split.
  - intros [m1 [m2 [-> [[x [-> Hx]] H2]]]]. apply N.eqb_eq in Hx. subst x.
    apply IH in H2. now subst m2.
  - intros ->. exists [c], l. split; [reflexivity|]. split.
    + exists c. split; [reflexivity|apply N.eqb_refl].
    + now apply IH.
Qed.

(** A lazy repetition tries the shorter texts first. *)
Lemma rep_lazy_prefixes (p : char -> bool) (s : str) :
  forall l1 m rest l2,
    rep false 0 None p s = l1 ++ (m, rest) :: l2 ->
    forall m' c m'', m = m' ++ c :: m'' -> In (m', c :: m'' ++ rest) l1.
Proof.
  induction s as [|c0 s IH]; intros l1 m rest l2; rewrite rep_unfold; cbv zeta;
    cbn [Nat.eqb app].
  - intros E m' c m'' Em. destruct l1 as [|x l1].
    + injection E as <- _. destruct m'; discriminate.
    + injection E as _ E. destruct l1; discriminate.
  - intros E m' c m'' Em. destruct l1 as [|x l1].
    + injection E as <- _. destruct m'; discriminate.
    + injection E as <- E. cbn [room less option_map pred andb] in E.
      destruct (p c0); [|destruct l1; discriminate].
      apply map_eq_app in E. destruct E as [k1 [k2 [Ek [E1 E2]]]].
      destruct k2 as [|[m0 rest0] k2]; [discriminate|].
      simpl in E2. injection E2 as <- <- _. subst l1.
      destruct m' as [|c1 m1'].
      * simpl in Em. injection Em as -> ->. left.
        assert (Hin : In (m'', rest0) (rep false 0 None p s))
          by (rewrite Ek; apply in_elt).
        apply rep_spec in Hin. destruct Hin as [-> _]. reflexivity.
      * simpl in Em. injection Em as -> Em. right.
        apply in_map_iff. exists (m1', c :: m'' ++ rest0). split; [reflexivity|].
        exact (IH _ _ _ _ Ek _ _ _ Em).
Qed.

(** The first outcome of [(p*?)q]: the group holds the characters before
    the first one in class [q]. *)
Lemma lazy_group_head (n : string) (p q : char -> bool) (b : bool) (s : str)
    (g : groups) (m rest : str) (g' : groups) :
  hd_error (run (Grp n (lazy_star p) >> Cls q) b s g) = Some (m, rest, g') ->
  exists v c,
    m = v ++ [c] /\ g' = (n, v) :: g /\ q c = true /\
    forallb p v = true /\ forallb (fun x => negb (q x)) v = true.
Proof.
  intros H. apply run_seq_head in H.
  destruct H as [l1 [l2 [v [s1 [g1 [m2 [E [Hl1 [H ->]]]]]]]]].
  cbn [run] in H.
  destruct s1 as [|c s1]; [discriminate|].
  destruct (q c) eqn:Eq; [|discriminate].
  simpl in H. injection H as <- -> ->.
  unfold lazy_star in E. cbn [run] in E.
  apply map_eq_app in E. destruct E as [k1 [k2 [E [E1 E2]]]].
  destruct k2 as [|[[v0 s0] g0] k2]; [discriminate|].
  simpl in E2. injection E2 as -> -> <- _.
  apply map_eq_app in E. destruct E as [j1 [j2 [E [F1 F2]]]].
  destruct j2 as [|[v1 s2] j2]; [discriminate|].
  simpl in F2. injection F2 as -> -> <- _.
  assert (Hin : In (v, c :: rest) (rep false 0 None p s)) by (rewrite E; apply in_elt).
  apply rep_spec in Hin. destruct Hin as [_ [Hall _]].
  exists v, c. repeat split; try assumption.
  apply forallb_forall. intros x Hx.
  apply in_split in Hx. destruct Hx as [m' [m'' Em]].
  pose proof (@rep_lazy_prefixes p s _ _ _ _ E _ _ _ Em) as Hp.
  assert (Hq : In (m', x :: m'' ++ c :: rest, (n, m') :: g) l1).
  { subst l1 k1. apply in_map_iff.
    exists (m', x :: m'' ++ c :: rest, g). split; [reflexivity|].
    apply in_map_iff. now exists (m', x :: m'' ++ c :: rest). }
  apply Hl1 in Hq. cbn [run] in Hq. destruct (q x); [discriminate|reflexivity].
Qed.

Lemma id_re_head (b : bool) (s m rest : str) (g : groups) :
  hd_error (run id_re b s []) = Some (m, rest, g) ->
  m = placeholder (group "1" (m, g)) /\
  ~ In BRACKET (group "1" (m, g)) /\ ~ In LF (group "1" (m, g)).
Proof.
  unfold id_re. intros H. apply run_seq_head in H.
  destruct H as [l1 [l2 [m1 [s1 [g1 [m2 [E [_ [H ->]]]]]]]]].
  assert (H1 : In (m1, s1, g1) (run (Lit (lit "[id:")) b s []))
    by (rewrite E; apply in_elt).
  apply run_sound in H1. destruct H1 as [_ H1]. apply lang_Lit in H1. subst m1.
  apply lazy_group_head in H.
  destruct H as [v [c [-> [-> [Hc [Hdot Hno]]]]]].
  apply N.eqb_eq in Hc. subst c. rewrite group_head.
  split; [reflexivity|]. rewrite forallb_forall in Hdot, Hno. split.
  - intros Hin. apply Hno in Hin. discriminate.
  - intros Hin. apply Hdot in Hin. discriminate.
Qed.

(** Every raw id that [findall] returns is the raw id of a token of the
    text and holds neither a closing bracket nor a line feed. *)
Lemma findall_id_re (s : str) :
  forall k b rid,
    In rid (findall_from k id_re b s) ->
    ~ In BRACKET rid /\ ~ In LF rid /\
    exists pre post, s = pre ++ placeholder rid ++ post.
Proof.
  induction s as [|c s IH]; intros k b rid.
  - destruct k; [|intros []]. cbn [findall_from].
    destruct (first_match id_re b []) as [mo|] eqn:E; [|intros []].
    intros [<-|[]]. apply first_match_head in E. destruct E as [rest E].
    pose proof (hd_error_In _ E) as Hin. apply run_sound in Hin.
    destruct Hin as [Es _]. destruct mo as [m g]. cbn [fst snd] in *.
    apply id_re_head in E. destruct E as [Em [H1 H2]].
    split; [assumption|]. split; [assumption|].
    exists [], rest. now rewrite <- Em.
  - assert (Hrec : forall k' b', In rid (findall_from k' id_re b' s) ->
                   ~ In BRACKET rid /\ ~ In LF rid /\
                   exists pre post, c :: s = pre ++ placeholder rid ++ post).
    { intros k' b' Hin. apply IH in Hin. destruct Hin as [H1 [H2 [pre [post ->]]]].
      split; [assumption|]. split; [assumption|]. now exists (c :: pre), post. }
    destruct k as [|k]; cbn [findall_from]; [|apply Hrec].
    destruct (first_match id_re b (c :: s)) as [mo|] eqn:E; [|apply Hrec].
    intros [<-|Hin]; [|exact (Hrec _ _ Hin)].
    apply first_match_head in E. destruct E as [rest E].
    pose proof (hd_error_In _ E) as Hin. apply run_sound in Hin.
    destruct Hin as [Es _]. destruct mo as [m g]. cbn [fst snd] in *.
    apply id_re_head in E. destruct E as [Em [H1 H2]].
    split; [assumption|]. split; [assumption|].
    exists [], rest. now rewrite <- Em.
Qed.

Lemma all_ids_tokens (doc : document) (rid : str) :
  In rid (all_ids doc) ->
  ~ In BRACKET rid /\ ~ In LF rid /\
  exists p pre post, In p doc /\ text p = pre ++ placeholder rid ++ post.
Proof.
  unfold all_ids. rewrite in_flat_map. intros [p [Hp Hin]].
  apply findall_id_re in Hin. destruct Hin as [H1 [H2 [pre [post E]]]].
  split; [assumption|]. split; [assumption|]. now exists p, pre, post.
Qed.

(** * Substitution and the tokens it leaves alone *)

Lemma replace_from_skip (old new : str) (s : str) :
  forall k, replace_from k old new s = replace_from 0 old new (skipn k s).
Proof.
  induction s as [|c s IH]; intros [|k]; try reflexivity.
  simpl. apply IH.
Qed.

Lemma starts_with_prefix (old s : str) :
  starts_with old s = true <-> exists rest, s = old ++ rest.
Proof.
  revert s. induction old as [|a old IH]; intros s; simpl.
  - split; [now exists s|reflexivity].
  - destruct s as [|b s].
    + split; [discriminate|]. intros [rest H]. discriminate.
    + rewrite andb_true_iff, N.eqb_eq, IH. split.
      * intros [-> [rest ->]]. now exists rest.
      * intros [rest H]. injection H as -> ->. split; [reflexivity|now exists rest].
Qed.

Lemma prefix_of_app (old a b rest : str) :
  a ++ b = old ++ rest -> length old <= length a -> exists r, a = old ++ r.
Proof.
  revert a. induction old as [|x old IH]; intros a E L; [now exists a|].
  destruct a as [|y a]; [simpl in L; lia|].
  simpl in E, L. injection E as -> E.
  destruct (IH a E) as [r ->]; [lia|]. now exists r.
Qed.

Section Replace.

Variables old new : str.
Hypothesis old_not_empty : old <> [].

Lemma replace_nil : replace old new [] = [].
Proof. unfold replace. destruct old; [contradiction|reflexivity]. Qed.

Lemma replace_found (rest : str) :
  replace old new (old ++ rest) = new ++ replace old new rest.
Proof.
  unfold replace. destruct old as [|a o] eqn:E; [contradiction|].
  rewrite <- E. assert (Hs : starts_with old (old ++ rest) = true)
    by (apply starts_with_prefix; now exists rest).
  rewrite E in *. cbn [app replace_from] in *. rewrite Hs.
  rewrite replace_from_skip. cbn [length pred].
  now rewrite skipn_app, skipn_all, Nat.sub_diag.
Qed.

Lemma replace_not_found (c : char) (s : str) :
  starts_with old (c :: s) = false ->
  replace old new (c :: s) = c :: replace old new s.
Proof.
  unfold replace. destruct old as [|a o]; [contradiction|].
  intros H. cbn [replace_from]. now rewrite H.
Qed.

Lemma no_straddle_tail (c : char) (pre mid post : str) :
  no_straddle old (c :: pre) mid post -> no_straddle old pre mid post.
Proof.
  intros H u v E. destruct (H (c :: u) v) as [L|L]; simpl in *; [now rewrite E|lia|lia].
Qed.

Lemma no_straddle_mid_tail (c : char) (mid post : str) :
  no_straddle old [] (c :: mid) post -> no_straddle old [] mid post.
Proof.
  intros H u v E. destruct (H (c :: u) v) as [L|L]; simpl in *; [now rewrite E|lia|lia].
Qed.

Lemma replace_keeps_mid (mid post : str) :
  no_straddle old [] mid post ->
  replace old new (mid ++ post) = mid ++ replace old new post.
Proof.
  induction mid as [|c mid IH]; intros H; [reflexivity|].
  simpl. rewrite replace_not_found.
  - f_equal. apply IH. exact (no_straddle_mid_tail H).
  - destruct (starts_with old (c :: mid ++ post)) eqn:E; [|reflexivity].
    apply starts_with_prefix in E. destruct E as [rest E].
    destruct (H [] rest) as [L|L]; simpl in *; [exact E| |lia].
    destruct old; [contradiction|simpl in L; lia].
Qed.

(** Replacement goes around a part that no occurrence touches. *)
Lemma replace_around (pre mid post : str) :
  no_straddle old pre mid post ->
  replace old new (pre ++ mid ++ post)
  = replace old new pre ++ mid ++ replace old new post.
Proof.
  remember (length pre) as n eqn:En. revert pre En.
  induction n as [n IH] using lt_wf_ind. intros pre En H.
  destruct pre as [|c pre].
  - rewrite replace_nil. simpl. now apply replace_keeps_mid.
  - destruct (starts_with old (c :: pre)) eqn:Es.
    + apply starts_with_prefix in Es. destruct Es as [rest Es].
      rewrite Es, <- app_assoc, !replace_found, <- app_assoc. f_equal.
      apply (IH (length rest)); [|reflexivity|].
      * subst n. rewrite Es, length_app.
        destruct old; [contradiction|simpl; lia].
      * intros u v E. destruct (H (old ++ u) v) as [L|L].
        -- rewrite Es, <- !app_assoc. f_equal. exact E.
        -- left. rewrite Es in L. rewrite ?length_app in L. lia.
        -- right. rewrite Es in L. rewrite ?length_app in L. lia.
    + rewrite (replace_not_found _ _ Es). cbn [app]. rewrite replace_not_found.
      * f_equal. apply (IH (length pre)); [subst n; simpl; lia|reflexivity|].
        exact (no_straddle_tail H).
      * destruct (starts_with old (c :: pre ++ mid ++ post)) eqn:Es'; [|reflexivity].
        apply starts_with_prefix in Es'. destruct Es' as [rest Es'].
        destruct (H [] rest) as [L|L]; simpl in *; [exact Es'| |lia].
        assert (Hp : starts_with old (c :: pre) = true).
        { apply starts_with_prefix.
          apply (@prefix_of_app old (c :: pre) (mid ++ post) rest); [exact Es'|].
          simpl. lia. }
        congruence.
Qed.

End Replace.

(** ** Tokens that end with their only closing bracket *)

Lemma placeholder_closes (rid : str) : ~ In BRACKET rid -> closes (placeholder rid).
Proof.
  intros H. exists (lit "[id:" ++ rid). split.
  - unfold placeholder. now rewrite <- app_assoc.
  - intros Hin. apply in_app_or in Hin. destruct Hin as [Hin|Hin]; [|contradiction].
    simpl in Hin. repeat (destruct Hin as [Hin|Hin]; [discriminate|]). destruct Hin.
Qed.

Lemma placeholder_not_empty (rid : str) : placeholder rid <> [].
Proof. discriminate. Qed.

Lemma closes_suffix (t e f : str) : closes t -> t = e ++ f -> f <> [] -> closes f.
Proof.
  intros [g [-> Hg]] E Hf.
  destruct (exists_last Hf) as [f' [x ->]].
  rewrite app_assoc in E. apply app_inj_tail in E. destruct E as [-> <-].
  exists f'. split; [reflexivity|]. intros Hin. apply Hg. apply in_or_app. now right.
Qed.

Lemma split_at_first (x : char) (g1 g2 r1 r2 : str) :
  ~ In x g1 -> ~ In x g2 -> g1 ++ x :: r1 = g2 ++ x :: r2 -> g1 = g2.
Proof.
  revert g2. induction g1 as [|a g1 IH]; intros [|b g2] H1 H2 E; simpl in *.
  - reflexivity.
  - injection E as -> _. tauto.
  - injection E as -> _. tauto.
  - injection E as -> E. f_equal. apply IH; tauto.
Qed.

Lemma closes_first (f t post v : str) :
  closes f -> closes t -> f ++ post = t ++ v -> f = t.
Proof.
  intros [g1 [-> H1]] [g2 [-> H2]] E. rewrite <- !app_assoc in E. simpl in E.
  now rewrite (@split_at_first BRACKET g1 g2 post v H1 H2 E).
Qed.

(** Two closing tokens, neither a suffix of the other, never overlap. *)
Lemma closing_no_straddle (old mid pre post : str) :
  closes old -> closes mid ->
  ~ ends_with mid old -> ~ ends_with old mid ->
  no_straddle old pre mid post.
Proof.
  intros Ho Hm Hmo Hom u v E.
  apply app_eq_app in E. destruct E as [l [[-> E]|[-> E]]].
  - destruct (Nat.le_gt_cases (length old) (length l)) as [L|L].
    + left. rewrite length_app. lia.
    + exfalso. apply app_eq_app in E. destruct E as [l' [[E1 E']|[-> E']]].
      2:{ rewrite length_app in L. lia. }
      * assert (Hl' : l' <> []).
        { intros ->. rewrite app_nil_r in E1. subst l. lia. }
        pose proof (@closes_suffix _ _ _ Ho E1 Hl') as Hc.
        assert (l' = mid) by (apply (@closes_first _ _ _ _ Hc Hm (eq_sym E'))).
        subst l'. apply Hom. now exists l.
  - destruct (Nat.le_gt_cases (length mid) (length l)) as [L|L].
    + right. rewrite length_app. lia.
    + exfalso. apply app_eq_app in E. destruct E as [l' [[E1 E']|[-> E']]].
      2:{ rewrite length_app in L. lia. }
      * assert (Hl' : l' <> []).
        { intros ->. rewrite app_nil_r in E1. subst l. lia. }
        pose proof (@closes_suffix _ _ _ Hm E1 Hl') as Hc.
        assert (l' = old) by (apply (@closes_first _ _ _ _ Hc Ho (eq_sym E'))).
        subst l'. apply Hmo. now exists l.
Qed.

(** Resolution goes around a part that the tokens of the raw ids with a
    record do not touch. *)
Lemma resolve_around (lib : library) (style : str) (mid : str) (m : id_map) :
  (forall kv, In kv m -> lookup lib (fst kv) <> None ->
              forall pre post, no_straddle (placeholder (fst kv)) pre mid post) ->
  forall pre post,
    resolve lib style m (pre ++ mid ++ post)
    = resolve lib style m pre ++ mid ++ resolve lib style m post.
Proof.
  unfold resolve. induction m as [|kv m IH]; intros H pre post; [reflexivity|].
  simpl.
  assert (Hm : forall kv', In kv' m -> lookup lib (fst kv') <> None ->
               forall pre post, no_straddle (placeholder (fst kv')) pre mid post).
  { intros kv' Hin. apply H. now right. }
  unfold substitute at 2 4 6.
  destruct (lookup lib (fst kv)) as [e|] eqn:El; [|now apply IH].
  rewrite (@replace_around (placeholder (fst kv)) _
             (@placeholder_not_empty (fst kv)) pre mid post).
  - now apply IH.
  - apply (H kv); [now left|]. now rewrite El.
Qed.

Lemma resolve_nothing (lib : library) (style : str) (m : id_map) (t : str) :
  (forall kv, In kv m -> lookup lib (fst kv) = None) ->
  resolve lib style m t = t.
Proof.
  unfold resolve. induction m as [|kv m IH]; intros H; [reflexivity|].
  simpl. unfold substitute at 2. rewrite (H kv) by now left.
  apply IH. intros kv' Hin. apply H. now right.
Qed.

(** C7, as stated, fails: in the blocks ["[id:[id:ref001]"] and
    ["[id:ref001]"] the raw id ["[id:ref001"] is numbered (1) and has no
    record, yet its token, which is the whole first block, is rewritten:
    the token of [ref001], which has a record, lies inside it and is
    replaced. *)
Lemma nested_absent_token_rewritten :
  In (lit "[id:ref001", 1)
     (snd (replace_ids [para (lit "[id:[id:ref001]"); para (lit "[id:ref001]")]
             sample_library IEEE))
  /\ lookup sample_library (lit "[id:ref001") = None
  /\ lit "[id:[id:ref001]" = placeholder (lit "[id:ref001")
  /\ map text
       (fst (replace_ids [para (lit "[id:[id:ref001]"); para (lit "[id:ref001]")]
               sample_library IEEE))
     = [lit "[id:[2]"; lit "[2]"]
  /\ lit "[id:[2]" <> placeholder (lit "[id:ref001").
Proof.
  split; [vm_compute; auto|]. split; [reflexivity|]. split; [reflexivity|].
  split; [vm_compute; reflexivity|]. vm_compute. discriminate.
Qed.

(** C7 (amended): in what resolution returns (the document storing the
    texts it is given), when a numbered raw id has no record in the
    repository and its token neither ends nor is ended by the token of a
    numbered raw id that has a record, every occurrence of its token
    [[id:<raw-id>]] stays in its block character for character, the text
    before it and the text after it being resolved on their own; when no
    numbered raw id has a record no block is assigned and every block is
    returned unchanged; resolving ["[id:zzz]"] against a repository
    without [zzz] yields ["[id:zzz]"]. *)
Theorem absent_token_kept (doc : document) (lib : library) (style : str) :
  (forall rid n,
      In (rid, n) (snd (replace_ids doc lib style)) ->
      lookup lib rid = None ->
      (forall rid' n',
          In (rid', n') (snd (replace_ids doc lib style)) ->
          lookup lib rid' <> None ->
          ~ ends_with (placeholder rid) (placeholder rid') /\
          ~ ends_with (placeholder rid') (placeholder rid)) ->
      forall i p pre post,
        nth_error doc i = Some p ->
        text p = pre ++ placeholder rid ++ post ->
        nth_error (fst (replace_ids doc lib style)) i
        = Some (set_text
                  (resolve lib style (snd (replace_ids doc lib style)) pre
                   ++ placeholder rid
                   ++ resolve lib style (snd (replace_ids doc lib style)) post) p))
  /\ ((forall rid n,
          In (rid, n) (snd (replace_ids doc lib style)) -> lookup lib rid = None) ->
      fst (replace_ids doc lib style) = doc)
  /\ (lookup lib (lit "zzz") = None ->
      replace_ids [para (lit "[id:zzz]")] lib style
      = ([para (lit "[id:zzz]")], [(lit "zzz", 1)])).
Proof.
  unfold replace_ids. cbn [fst snd]. split; [|split].
  - intros rid n Hin Hnone Hsep i p pre post Hp Ht.
    rewrite nth_error_map, Hp. simpl. f_equal. f_equal. rewrite Ht.
    assert (Hclose : forall r k, In (r, k) (fst (number_ids doc)) ->
                                 closes (placeholder r)).
    { intros r k Hr. apply placeholder_closes.
      rewrite number_ids_numbered in Hr.
      assert (Hk : In r (map fst (numbered (all_ids doc))))
        by (apply in_map_iff; now exists (r, k)).
      apply (proj1 (numbered_keys _ _)) in Hk.
      now apply all_ids_tokens in Hk. }
    apply resolve_around. intros [rid' n'] Hin' Hsome pre' post'. cbn [fst] in *.
    destruct (Hsep rid' n' Hin' Hsome) as [H1 H2].
    apply closing_no_straddle; [exact (Hclose _ _ Hin')|exact (Hclose _ _ Hin)| |];
      assumption.
  - intros Hnone. rewrite <- (map_id doc) at 2. apply map_ext. intros p.
    rewrite resolve_nothing.
    + now destruct p.
    + intros [rid n] Hin. exact (Hnone rid n Hin).
  - intros Hnone. assert (Hm : fst (number_ids [para (lit "[id:zzz]")]) = [(lit "zzz", 1)])
      by (vm_compute; reflexivity).
    rewrite Hm. f_equal. cbn [map resolve fold_left].
    unfold substitute. cbn [fst]. now rewrite Hnone.
Qed.

Lemma absent_token_kept_witness :
  nth_error
    (fst (replace_ids [para (lit "[id:zzz] and [id:ref001]")] sample_library IEEE)) 0
  = Some (set_text
            (resolve sample_library IEEE
               (snd (replace_ids [para (lit "[id:zzz] and [id:ref001]")]
                       sample_library IEEE)) []
             ++ placeholder (lit "zzz")
             ++ resolve sample_library IEEE
                  (snd (replace_ids [para (lit "[id:zzz] and [id:ref001]")]
                          sample_library IEEE)) (lit " and [id:ref001]"))
            (para (lit "[id:zzz] and [id:ref001]"))).
Proof.
  apply (proj1 (absent_token_kept [para (lit "[id:zzz] and [id:ref001]")]
                  sample_library IEEE) (lit "zzz") 1).
  - vm_compute. auto.
  - reflexivity.
  - intros rid' n' Hin Hsome. vm_compute in Hin.
    destruct Hin as [Hin|[Hin|[]]]; injection Hin as <- <-.
    + exfalso. apply Hsome. reflexivity.
    + split; intros [e E].
      * apply (f_equal (@length char)) in E. rewrite length_app in E.
        simpl in E. lia.
      * destruct e as [|? [|? [|? [|? e]]]]; try discriminate E.
        apply (f_equal (@length char)) in E. rewrite length_app in E.
        simpl in E. lia.
  - reflexivity.
  - reflexivity.
Defined.

(** * Trimming and splitting *)

Lemma lstrip_by_head (p : char -> bool) (s : str) (c : char) (r : str) :
  lstrip_by p s = c :: r -> p c = false.
Proof.
  induction s as [|x s IH]; simpl; [discriminate|].
  destruct (p x) eqn:E; [exact IH|]. intros H. injection H as <- _. exact E.
Qed.

Lemma lstrip_by_fixed (p : char -> bool) (s : str) :
  match s with c :: _ => p c = false | [] => True end -> lstrip_by p s = s.
Proof. destruct s as [|c s]; simpl; [reflexivity|]. now intros ->. Qed.

Lemma lstrip_by_suffix (p : char -> bool) (s : str) :
  exists a, s = a ++ lstrip_by p s.
Proof. destruct (lstrip_by_split p s) as [a [E _]]. now exists a. Qed.

(** A text that is empty or starts and ends with a character that is
    not whitespace is left alone by [strip]. *)
Lemma strip_fixed (s : str) :
  s = [] \/ (starts_clean s /\ starts_clean (rev s)) -> strip s = s.
Proof.
  intros [->|[H1 H2]]; [reflexivity|]. unfold strip, strip_by, rstrip_by.
  rewrite (lstrip_by_fixed is_space s).
  - rewrite (lstrip_by_fixed is_space (rev s)); [apply rev_involutive|].
    destruct (rev s); [destruct H2|exact H2].
  - destruct s; [destruct H1|exact H1].
Qed.

Lemma strip_clean (s : str) :
  strip s <> [] -> starts_clean (strip s) /\ starts_clean (rev (strip s)).
Proof.
  unfold strip, strip_by, rstrip_by. intros H.
  set (y := lstrip_by is_space s) in *.
  assert (Hr : starts_clean (lstrip_by is_space (rev y))).
  { destruct (lstrip_by is_space (rev y)) as [|c r] eqn:E; [contradiction|].
    exact (lstrip_by_head _ _ E). }
  split; [|now rewrite rev_involutive].
  destruct (lstrip_by_suffix is_space (rev y)) as [a Ea].
  apply (f_equal (@rev char)) in Ea. rewrite rev_involutive, rev_app_distr in Ea.
  destruct (rev (lstrip_by is_space (rev y))) as [|c r] eqn:E; [contradiction|].
  simpl. simpl in Ea. unfold y in Ea.
  exact (lstrip_by_head _ _ Ea).
Qed.

Lemma strip_idempotent (s : str) : strip (strip s) = strip s.
Proof.
  apply strip_fixed. destruct (strip s) as [|c r] eqn:E; [now left|right].
  rewrite <- E. apply strip_clean. rewrite E. discriminate.
Qed.

Lemma starts_clean_not_blank (s : str) : starts_clean s -> forallb is_space s = false.
Proof. destruct s as [|c s]; simpl; [intros []|]. now intros ->. Qed.

Lemma split_ws_nil (s : str) : split_ws s = [] <-> forallb is_space s = true.
Proof.
  induction s as [|c s IH]; [simpl; tauto|].
  cbn [split_ws forallb]. destruct (is_space c) eqn:Ec; simpl; [exact IH|].
  split; [|discriminate].
  destruct s as [|d s]; [discriminate|].
  destruct (is_space d); [discriminate|].
  destruct (split_ws (d :: s)); discriminate.
Qed.

(** The loop body does not raise on a segment that [strip] kept. *)
Lemma parse_author_stripped (x : str) :
  strip x <> [] -> exists a, parse_author (strip x) = Ok a.
Proof.
  intros H. destruct (parse_author_cases (strip x)) as [Hok|[_ [_ Hnil]]]; [exact Hok|].
  apply split_ws_nil in Hnil.
  rewrite (starts_clean_not_blank _ (proj1 (strip_clean _ H))) in Hnil. discriminate.
Qed.

Lemma for_each_total (A B : Type) (f : A -> result B) (l : list A) :
  (forall x, In x l -> exists y, f x = Ok y) ->
  exists ys, for_each f l = Ok ys /\ length ys = length l.
Proof.
  induction l as [|x l IH]; intros H; [now exists []|].
  destruct (H x (or_introl eq_refl)) as [y Hy].
  destruct IH as [ys [Hys Hl]]; [intros z Hz; apply H; now right|].
  exists (y :: ys). simpl. rewrite Hy. simpl. rewrite Hys. simpl.
  split; [reflexivity|now rewrite Hl].
Qed.

Lemma segments_stripped (sep : char) (s p : str) :
  In p (segments sep s) -> exists x, p = strip x /\ strip x <> [].
Proof.
  unfold segments. rewrite in_map_iff. intros [x [<- Hx]].
  apply filter_In in Hx. destruct Hx as [_ Hx].
  exists x. split; [reflexivity|]. destruct (strip x); [discriminate|discriminate].
Qed.

Lemma edited_authors_total (field : str) :
  exists l, edited_authors field = Ok l.
Proof.
  unfold edited_authors. destruct (is_empty (strip field)); [now exists []|].
  destruct (@for_each_total _ _ parse_author (segments (ch ";") (strip field)))
    as [l [Hl _]]; [|now exists l].
  intros p Hp. apply segments_stripped in Hp. destruct Hp as [x [-> Hx]].
  now apply parse_author_stripped.
Qed.

(** X1: [save_changes] never raises on a selected row of the library,
    whatever the form holds: its author loop trims the segments with
    [strip()], so that every segment it keeps has a token, and the
    [IndexError] of [smart_parse_authors] cannot happen; the saved record
    keeps its identifier and its attachments, and the other records and
    the counter are untouched. *)
Theorem save_changes_returns (index : nat) (f : form) (st : manager) (e : entry) :
  nth_error (the_library st) index = Some e ->
  exists a,
    edited_authors (f_authors f) = Ok a /\
    save_changes (Some index) f st
    = Ok {| the_library := set_nth index (saved f a e) (the_library st);
            current_style := current_style st;
            next_id := next_id st |} /\
    id (saved f a e) = id e /\ files (data (saved f a e)) = files (data e) /\
    length (set_nth index (saved f a e) (the_library st)) = length (the_library st) /\
    (forall j, j <> index ->
       nth_error (set_nth index (saved f a e) (the_library st)) j
       = nth_error (the_library st) j).
Proof.
  intros He. destruct (edited_authors_total (f_authors f)) as [a Ha].
  exists a. split; [exact Ha|]. unfold save_changes. rewrite He, Ha. simpl.
  split; [reflexivity|]. split; [reflexivity|]. split; [reflexivity|].
  assert (Hi : index < length (the_library st))
    by (apply nth_error_Some; congruence).
  unfold set_nth. split.
  - rewrite length_app, length_firstn. cbn [length]. rewrite length_skipn. lia.
  - intros j Hj. destruct (Nat.lt_ge_cases j index) as [L|L].
    + rewrite nth_error_app1 by (rewrite length_firstn; lia).
      rewrite nth_error_firstn. destruct (j <? index)%nat eqn:E; [reflexivity|].
      apply Nat.ltb_ge in E. lia.
    + rewrite nth_error_app2 by (rewrite length_firstn; lia).
      rewrite length_firstn, Nat.min_l by lia.
      destruct (j - index) as [|k] eqn:Ek; [lia|]. cbn [nth_error].
      rewrite nth_error_skipn. f_equal. lia.
Qed.

Lemma save_changes_returns_witness :
  exists a,
    edited_authors (f_authors (shown {| id := ref_id 1; data := sample_fallback_record |}))
    = Ok a /\
    save_changes (Some 0) (shown {| id := ref_id 1; data := sample_fallback_record |})
      {| the_library := [ {| id := ref_id 1; data := sample_fallback_record |} ];
         current_style := APA7; next_id := 2 |}
    = Ok {| the_library :=
              set_nth 0
                (saved (shown {| id := ref_id 1; data := sample_fallback_record |}) a
                   {| id := ref_id 1; data := sample_fallback_record |})
                [ {| id := ref_id 1; data := sample_fallback_record |} ];
            current_style := APA7;
            next_id := 2 |} /\
    id (saved (shown {| id := ref_id 1; data := sample_fallback_record |}) a
          {| id := ref_id 1; data := sample_fallback_record |})
    = ref_id 1 /\
    files (data (saved (shown {| id := ref_id 1; data := sample_fallback_record |}) a
                   {| id := ref_id 1; data := sample_fallback_record |}))
    = [] /\
    length (set_nth 0
              (saved (shown {| id := ref_id 1; data := sample_fallback_record |}) a
                 {| id := ref_id 1; data := sample_fallback_record |})
              [ {| id := ref_id 1; data := sample_fallback_record |} ])
    = 1 /\
    (forall j, j <> 0 ->
       nth_error
         (set_nth 0
            (saved (shown {| id := ref_id 1; data := sample_fallback_record |}) a
               {| id := ref_id 1; data := sample_fallback_record |})
            [ {| id := ref_id 1; data := sample_fallback_record |} ]) j
       = nth_error [ {| id := ref_id 1; data := sample_fallback_record |} ] j).
Proof.
  apply (@save_changes_returns 0
           (shown {| id := ref_id 1; data := sample_fallback_record |})
           {| the_library := [ {| id := ref_id 1; data := sample_fallback_record |} ];
              current_style := APA7; next_id := 2 |}
           {| id := ref_id 1; data := sample_fallback_record |}).
  reflexivity.
Defined.

(** * Identifiers of the library *)

Lemma decimal_value_of_uint (d : Decimal.uint) (acc : nat) :
  decimal_value_from acc (lit (NilEmpty.string_of_uint d)) = Nat.of_uint_acc d acc.
Proof.
  revert acc. induction d; intros acc; [reflexivity|..];
    cbn [NilEmpty.string_of_uint lit list_ascii_of_string map decimal_value_from
         Nat.of_uint_acc];
    rewrite IHd, Nat.tail_mul_spec; f_equal;
    match goal with
    | |- context [N.to_nat (N_of_ascii ?a)] =>
        let v := eval vm_compute in (N.to_nat (N_of_ascii a) - 48) in
        change (N.to_nat (N_of_ascii a) - 48) with v
    end; lia.
Qed.

Lemma decimal_value_str_of_nat (n : nat) : decimal_value (str_of_nat n) = n.
Proof.
  unfold decimal_value, str_of_nat, NilZero.string_of_uint.
  rewrite <- (DecimalNat.Unsigned.of_to n) at 2. unfold Nat.of_uint.
  destruct (Nat.to_uint n); [reflexivity|..]; apply decimal_value_of_uint.
Qed.

Lemma decimal_value_zeros (k : nat) (s : str) :
  decimal_value (repeat (ch "0") k ++ s) = decimal_value s.
Proof.
  unfold decimal_value. induction k as [|k IH]; [reflexivity|]. exact IH.
Qed.

(** Reading back the digits of an identifier gives its number. *)
Lemma decimal_value_format (n : nat) : decimal_value (format_03d n) = n.
Proof.
  unfold format_03d. now rewrite decimal_value_zeros, decimal_value_str_of_nat.
Qed.

Lemma ref_id_injective (n m : nat) : ref_id n = ref_id m -> n = m.
Proof.
  unfold ref_id. intros H. apply app_inv_head in H.
  now rewrite <- (decimal_value_format n), H, decimal_value_format.
Qed.

Lemma in_firstn (A : Type) (n : nat) (l : list A) (x : A) :
  In x (firstn n l) -> In x l.
Proof. intros H. rewrite <- (firstn_skipn n l). apply in_or_app. now left. Qed.

Lemma in_skipn (A : Type) (n : nat) (l : list A) (x : A) :
  In x (skipn n l) -> In x l.
Proof. intros H. rewrite <- (firstn_skipn n l). apply in_or_app. now right. Qed.

Lemma in_pop (A : Type) (index : nat) (l : list A) (x : A) :
  In x (pop index l) -> In x l.
Proof.
  unfold pop. intros H. apply in_app_or in H. destruct H as [H|H].
  - exact (@in_firstn _ _ _ _ H).
  - exact (@in_skipn _ _ _ _ H).
Qed.

Lemma nodup_pop (A : Type) (index : nat) (l : list A) :
  NoDup l -> NoDup (pop index l).
Proof.
  unfold pop. intros H. rewrite <- (firstn_skipn index l) in H.
  destruct (skipn index l) as [|x r] eqn:E.
  - rewrite app_nil_r in H.
    assert (Er : skipn (S index) l = []).
    { apply skipn_all2. assert (length (skipn index l) = 0) by now rewrite E.
      rewrite length_skipn in H0. lia. }
    now rewrite Er, app_nil_r.
  - assert (Er : skipn (S index) l = r).
    { change (S index) with (1 + index). rewrite <- skipn_skipn, E. reflexivity. }
    rewrite Er. exact (NoDup_remove_1 _ _ _ H).
Qed.

Lemma map_pop (A B : Type) (f : A -> B) (index : nat) (l : list A) :
  map f (pop index l) = pop index (map f l).
Proof. unfold pop. now rewrite map_app, firstn_map, skipn_map. Qed.

Lemma map_id_set_nth (index : nat) (e e' : entry) (l : library) :
  nth_error l index = Some e -> id e' = id e ->
  map id (set_nth index e' l) = map id l.
Proof.
  intros He Hid. unfold set_nth. rewrite map_app. cbn [map]. rewrite Hid.
  rewrite <- (firstn_skipn index l) at 3. rewrite map_app. f_equal.
  assert (Es : skipn index l = e :: skipn (S index) l).
  { clear Hid. revert index He. induction l as [|x l IH]; intros [|i] H; try discriminate.
    - injection H as ->. reflexivity.
    - exact (IH i H). }
  now rewrite Es.
Qed.

Lemma in_set_nth (index : nat) (e e' x : entry) (l : library) :
  In x (set_nth index e' l) -> x = e' \/ In x l.
Proof.
  unfold set_nth. intros H. apply in_app_or in H. destruct H as [H|[H|H]].
  - right. exact (@in_firstn _ _ _ _ H).
  - now left.
  - right. exact (@in_skipn _ _ _ _ H).
Qed.

Lemma append_entry_identifiers (e : citation) (st : manager) :
  NoDup (map id (the_library st)) -> issued st ->
  keeps_identifiers st (append_entry e st).
Proof.
  intros Hnd Hiss. unfold keeps_identifiers, append_entry. cbn [the_library next_id].
  split; [|split; [|split]].
  - rewrite map_app. cbn [map id].
    apply NoDup_app; [exact Hnd|repeat constructor; simpl; tauto|].
    intros x Hx [<-|[]]. apply in_map_iff in Hx. destruct Hx as [e0 [E0 Hin]].
    destruct (Hiss e0 Hin) as [n [Hn En]]. rewrite En in E0.
    apply ref_id_injective in E0. lia.
  - intros e0 Hin. cbn [the_library next_id] in *. apply in_app_or in Hin.
    destruct Hin as [Hin|[<-|[]]].
    + destruct (Hiss e0 Hin) as [n [Hn En]]. exists n. split; [lia|exact En].
    + exists (next_id st). split; [lia|reflexivity].
  - lia.
  - intros n Hn Hun e0 Hin. apply in_app_or in Hin. destruct Hin as [Hin|[<-|[]]].
    + now apply Hun.
    + cbn [id]. intros E0. apply ref_id_injective in E0. lia.
Qed.

Lemma set_nth_identifiers (index : nat) (e e' : entry) (st : manager) (style : str) :
  NoDup (map id (the_library st)) -> issued st ->
  nth_error (the_library st) index = Some e -> id e' = id e ->
  keeps_identifiers st
    {| the_library := set_nth index e' (the_library st);
       current_style := style; next_id := next_id st |}.
Proof.
  intros Hnd Hiss He Hid. unfold keeps_identifiers. cbn [the_library next_id].
  split; [|split; [|split]].
  - now rewrite (@map_id_set_nth index e e' (the_library st) He Hid).
  - intros x Hin. apply (@in_set_nth index e _ _ _) in Hin. destruct Hin as [->|Hin].
    + rewrite Hid. exact (Hiss e (nth_error_In _ _ He)).
    + now apply Hiss.
  - lia.
  - intros n _ Hun x Hin. apply (@in_set_nth index e _ _ _) in Hin. destruct Hin as [->|Hin].
    + rewrite Hid. exact (Hun e (nth_error_In _ _ He)).
    + now apply Hun.
Qed.

Lemma after_identifiers (st : manager) (c : command) :
  NoDup (map id (the_library st)) -> issued st ->
  keeps_identifiers st (after st c).
Proof.
  intros Hnd Hiss.
  assert (Hsame : keeps_identifiers st st) by (unfold keeps_identifiers; auto).
  unfold after.
  destruct c as [|answer|selection|selection f|style|selection paths]; cbn [step].
  - now apply append_entry_identifiers.
  - unfold add_from_string. destruct answer as [raw|]; [|exact Hsame].
    destruct (is_empty raw); [exact Hsame|].
    destruct (parse_citation raw) as [e|x]; [|exact Hsame].
    now apply append_entry_identifiers.
  - unfold delete_entry. destruct selection as [index|]; [|exact Hsame].
    destruct (nth_error (the_library st) index) as [e0|]; [|exact Hsame].
    unfold keeps_identifiers. cbn [the_library next_id]. split; [|split; [|split]].
    + rewrite map_pop. now apply nodup_pop.
    + intros e1 Hin. apply Hiss. exact (@in_pop _ _ _ _ Hin).
    + lia.
    + intros n _ Hun e1 Hin. apply Hun. exact (@in_pop _ _ _ _ Hin).
  - unfold save_changes. destruct selection as [index|]; [|exact Hsame].
    destruct (nth_error (the_library st) index) as [e|] eqn:He; [|exact Hsame].
    destruct (edited_authors (f_authors f)) as [a|x]; [|exact Hsame].
    cbn [bind]. apply (@set_nth_identifiers index e); [exact Hnd|exact Hiss|exact He|reflexivity].
  - exact Hsame.
  - unfold add_file. destruct selection as [index|]; [|exact Hsame].
    destruct (nth_error (the_library st) index) as [e|] eqn:He; [|exact Hsame].
    destruct (is_empty paths); [exact Hsame|].
    apply (@set_nth_identifiers index e); [exact Hnd|exact Hiss|exact He|reflexivity].
Qed.

Lemma session_snoc (cs : list command) (c : command) :
  session (cs ++ [c]) = after (session cs) c.
Proof. unfold session. now rewrite fold_left_app. Qed.

Lemma session_identifiers (cs : list command) :
  NoDup (map id (the_library (session cs))) /\ issued (session cs).
Proof.
  induction cs as [|c cs [Hnd Hiss]] using rev_ind.
  - split; [constructor|intros e []].
  - rewrite session_snoc. destruct (@after_identifiers _ c Hnd Hiss) as [H1 [H2 _]]. auto.
Qed.

Lemma lookup_unique (lib : library) (e : entry) :
  NoDup (map id lib) -> In e lib -> lookup lib (id e) = Some e.
Proof.
  unfold lookup. induction lib as [|x lib IH]; intros Hnd Hin; [destruct Hin|].
  cbn [find]. cbn [map] in Hnd. apply NoDup_cons_iff in Hnd. destruct Hnd as [Hx Hnd].
  destruct Hin as [->|Hin].
  - now rewrite (proj2 (str_eqb_eq (id e) (id e)) eq_refl).
  - destruct (str_eqb (id x) (id e)) eqn:E; [|now apply IH].
    apply str_eqb_eq in E. exfalso. apply Hx. rewrite E. now apply List.in_map.
Qed.

(** X2: in every state the callbacks can reach from the start, the
    records of the library have distinct identifiers, each of the form
    [ref] followed by a number below the counter written with at least
    three digits; the placeholder lookup of [replace_ids] therefore finds
    every record under its own identifier, and the identifier the next
    record will get is not in the library. *)
Theorem session_identifiers_distinct (cs : list command) :
  NoDup (map id (the_library (session cs)))
  /\ (forall e, In e (the_library (session cs)) ->
        (exists n, n < next_id (session cs) /\ id e = ref_id n)
        /\ lookup (the_library (session cs)) (id e) = Some e)
  /\ lookup (the_library (session cs)) (ref_id (next_id (session cs))) = None.
Proof.
  destruct (session_identifiers cs) as [Hnd Hiss].
  split; [exact Hnd|]. split.
  - intros e Hin. split; [now apply Hiss|now apply lookup_unique].
  - destruct (lookup (the_library (session cs)) (ref_id (next_id (session cs))))
      as [e|] eqn:E; [|reflexivity].
    unfold lookup in E. apply find_some in E. destruct E as [Hin E].
    apply str_eqb_eq in E. destruct (Hiss e Hin) as [n [Hn En]].
    rewrite En in E. apply ref_id_injective in E. lia.
Qed.

(** X3: as long as no library file is loaded, an identifier is not given
    twice: in a session of [add_entry], [add_from_string], [delete_entry],
    [save_changes], [add_file] and [set_style], once a number below the
    counter is the number of no record of the library (it was deleted), no
    later state of the session has a record with that number.  ([load_txt]
    is outside these sessions: it sets the counter to the largest loaded
    number plus one and can issue a deleted number again.) *)
Theorem identifiers_never_reused (cs later : list command) (n : nat) :
  n < next_id (session cs) ->
  unused n (session cs) ->
  unused n (session (cs ++ later)).
Proof.
  intros Hn Hun. induction later as [|c later IH] using rev_ind.
  - now rewrite app_nil_r.
  - rewrite app_assoc, session_snoc.
    destruct (session_identifiers (cs ++ later)) as [Hnd Hiss].
    destruct (@after_identifiers _ c Hnd Hiss) as [_ [_ [_ Hkeep]]].
    apply Hkeep; [|exact IH].
    clear -Hn. induction later as [|c' later IH'] using rev_ind.
    + now rewrite app_nil_r.
    + rewrite app_assoc, session_snoc.
      destruct (session_identifiers (cs ++ later)) as [Hnd Hiss].
      destruct (@after_identifiers _ c' Hnd Hiss) as [_ [_ [Hle _]]]. lia.
Qed.

Lemma identifiers_never_reused_witness :
  unused 1 (session ([AddEntry; AddEntry; DeleteEntry (Some 0)] ++ [AddEntry])).
Proof.
  apply identifiers_never_reused.
  - vm_compute. lia.
  - intros e [<-|[]]. vm_compute. discriminate.
Defined.

(** * Blocks without a placeholder *)

Lemma replace_absent (old new t : str) :
  old <> [] -> ~ occurs old t -> replace old new t = t.
Proof.
  intros Ho Hn.
  assert (H : no_straddle old [] t []).
  { intros u v E. exfalso. apply Hn. exists u, v.
    simpl in E. now rewrite app_nil_r in E. }
  pose proof (@replace_keeps_mid old new Ho t [] H) as E.
  now rewrite (replace_nil new Ho), !app_nil_r in E.
Qed.

Lemma placeholder_occurs (rid t : str) :
  occurs (placeholder rid) t -> occurs (lit "[id:") t.
Proof.
  intros [u [v ->]]. exists u, (rid ++ lit "]" ++ v).
  unfold placeholder. now rewrite <- !app_assoc.
Qed.

Lemma resolve_untouched (lib : library) (style : str) (m : id_map) (t : str) :
  ~ occurs (lit "[id:") t -> resolve lib style m t = t.
Proof.
  intros H. unfold resolve. induction m as [|kv m IH]; [reflexivity|].
  simpl. unfold substitute at 2.
  destruct (lookup lib (fst kv)); [|exact IH].
  rewrite replace_absent; [exact IH|apply placeholder_not_empty|].
  intros Ho. apply H. exact (placeholder_occurs Ho).
Qed.

Lemma set_text_same (p : paragraph) : set_text (text p) p = p.
Proof. now destruct p. Qed.

(** X4: [replace_ids] keeps the number of paragraphs and their styles,
    and leaves alone every paragraph whose text does not contain [[id:],
    whatever the other paragraphs and the library hold; on a document
    none of whose paragraphs contains [[id:] it returns the document
    unchanged and an empty map, so that a second pass over a fully
    resolved document does nothing. *)
Theorem replace_ids_local (doc : document) (lib : library) (style : str) :
  map style_of (fst (replace_ids doc lib style)) = map style_of doc
  /\ (forall i p,
        nth_error doc i = Some p -> ~ occurs (lit "[id:") (text p) ->
        nth_error (fst (replace_ids doc lib style)) i = Some p)
  /\ ((forall p, In p doc -> ~ occurs (lit "[id:") (text p)) ->
      replace_ids doc lib style = (doc, [])).
Proof.
  unfold replace_ids. cbn [fst]. split; [|split].
  - rewrite map_map. now apply map_ext.
  - intros i p Hp Hn. rewrite nth_error_map, Hp. cbn [option_map].
    now rewrite (resolve_untouched lib style _ Hn), set_text_same.
  - intros Hall.
    assert (Hids : all_ids doc = []).
    { destruct (all_ids doc) as [|rid ids] eqn:E; [reflexivity|]. exfalso.
      assert (Hin : In rid (all_ids doc)) by (rewrite E; now left).
      apply all_ids_tokens in Hin. destruct Hin as [_ [_ [p [pre [post [Hp Ht]]]]]].
      apply (Hall p Hp). apply (@placeholder_occurs rid). now exists pre, post. }
    rewrite number_ids_numbered, Hids. cbn [numbered fold_left fst]. f_equal.
    rewrite <- (map_id doc) at 2. apply map_ext. intros p. apply set_text_same.
Qed.

(** * The bracketed number of the numeric styles *)






Lemma placeholder_marked (rid : str) :
  placeholder rid = LBRACKET :: (lit "id:" ++ rid ++ lit "]").
Proof. reflexivity. Qed.







(** * Reading the tokens of a block (pass 1 of [replace_ids]) *)

Lemma first_match_token (b : bool) (s : str) (mo : match_object) :
  first_match id_re b s = Some mo ->
  exists rid post,
    s = placeholder rid ++ post /\ raw_id rid /\
    group "1" mo = rid /\ fst mo = placeholder rid.
Proof.
  intros H. apply first_match_head in H. destruct H as [rest H].
  pose proof (hd_error_In _ H) as Hin. apply run_sound in Hin. destruct Hin as [Es _].
  apply id_re_head in H. destruct H as [Em [Hb Hl]].
  destruct mo as [m g]. cbn [fst snd] in *.
  exists (group "1" (m, g)), rest.
  split; [now rewrite <- Em|]. split; [split; assumption|]. split; [reflexivity|exact Em].
Qed.

Lemma lang_token (rid : str) : ~ In LF rid -> lang id_re (placeholder rid).
Proof.
  intros Hl. unfold id_re, placeholder.
  exists (lit "[id:"), (rid ++ lit "]"). split; [reflexivity|].
  split; [now apply lang_Lit|].
  exists rid, (lit "]"). split; [reflexivity|]. split.
  - cbn [lang lazy_star]. split; [|split; [lia|exact I]].
    apply forallb_forall. intros c Hc. unfold dot.
    destruct (c =? LF)%N eqn:E; [|reflexivity].
    apply N.eqb_eq in E. now subst c.
  - exists (ch "]"). split; [reflexivity|apply N.eqb_refl].
Qed.

Lemma token_first_match (b : bool) (rid post : str) :
  raw_id rid -> first_match id_re b (placeholder rid ++ post) <> None.
Proof.
  intros [_ Hl] Hn. apply first_match_none in Hn.
  destruct (@run_complete id_re eq_refl (placeholder rid) (@lang_token rid Hl) b post [])
    as [g' Hin].
  rewrite Hn in Hin. destruct Hin.
Qed.

Lemma token_unique_at (r1 r2 p1 p2 : str) :
  raw_id r1 -> raw_id r2 ->
  placeholder r1 ++ p1 = placeholder r2 ++ p2 -> r1 = r2 /\ p1 = p2.
Proof.
  intros [H1 _] [H2 _] E. unfold placeholder in E.
  rewrite <- !app_assoc in E. apply app_inv_head in E.
  pose proof (@split_at_first BRACKET r1 r2 p1 p2 H1 H2 E) as Er. subst r2.
  split; [reflexivity|]. apply app_inv_head in E. now injection E.
Qed.

Lemma findall_from_skip (r : regex) (u v : str) :
  findall_from (length u) r false (u ++ v) = findall_from 0 r false v.
Proof. induction u as [|c u IH]; [reflexivity|exact IH]. Qed.

Lemma token_not_nil (rid : str) : placeholder rid <> [].
Proof. discriminate. Qed.

Lemma reads_skip (c : char) (t : str) (ids : list str) :
  (forall rid post, raw_id rid -> c :: t <> placeholder rid ++ post) ->
  reads ids t -> reads ids (c :: t).
Proof.
  intros Hno. destruct ids as [|rid ids]; cbn [reads].
  - intros Ha pre y post E [rid [Hr ->]]. destruct pre as [|c' pre].
    + exact (Hno rid post Hr E).
    + rewrite <- app_comm_cons in E. injection E as _ E.
      exact (Ha pre (placeholder rid) post E (ex_intro _ rid (conj Hr eq_refl))).
  - intros [Hr [pre [post [[E [Ht Hleft]] Hrest]]]]. split; [exact Hr|].
    exists (c :: pre), post. split; [|exact Hrest].
    split; [now rewrite E|]. split; [exact Ht|].
    intros pre' y' post' E' [rid' [Hr' ->]]. destruct pre' as [|c' pre'].
    + exfalso. exact (Hno rid' post' Hr' E').
    + rewrite <- app_comm_cons in E'. injection E' as _ E'. cbn [length].
      apply le_n_S. apply (Hleft pre' (placeholder rid') post' E'). now exists rid'.
Qed.

Lemma findall_reads (n : nat) :
  forall t b, length t <= n -> reads (findall_from 0 id_re b t) t.
Proof.
  induction n as [|n IH]; intros t b L.
  - destruct t; [|simpl in L; lia]. cbn [findall_from].
    destruct (first_match id_re b []) as [mo|] eqn:E.
    + apply first_match_token in E. destruct E as [rid [post [E _]]]. discriminate E.
    + intros pre y post E' [rid [_ ->]]. destruct pre; discriminate E'.
  - destruct t as [|c t].
    + cbn [findall_from].
      destruct (first_match id_re b []) as [mo|] eqn:E.
      * apply first_match_token in E. destruct E as [rid [post [E _]]]. discriminate E.
      * intros pre y post E' [rid [_ ->]]. destruct pre; discriminate E'.
    + cbn [findall_from].
      destruct (first_match id_re b (c :: t)) as [mo|] eqn:E.
      * apply first_match_token in E.
        destruct E as [rid [post [Es [Hr [-> ->]]]]].
        rewrite (placeholder_marked rid) in Es. cbn [app] in Es. injection Es as -> ->.
        rewrite (placeholder_marked rid). cbn [length pred].
        replace (findall_from _ id_re false _) with (findall_from 0 id_re false post)
          by (symmetry; exact (@findall_from_skip id_re (lit "id:" ++ rid ++ lit "]") post)).
        cbn [reads]. split; [exact Hr|].
        exists [], post. split.
        -- split; [reflexivity|]. split; [now exists rid|]. intros; simpl; lia.
        -- apply IH. simpl in L. rewrite !length_app in L. lia.
      * apply reads_skip.
        -- intros rid post Hr Es.
           apply (@token_first_match b rid post Hr). now rewrite <- Es.
        -- apply IH. simpl in L. lia.
Qed.

Lemma app_same_length (A : Type) (a a' b b' : list A) :
  length a = length a' -> a ++ b = a' ++ b' -> a = a' /\ b = b'.
Proof.
  revert a'. induction a as [|x a IH]; intros [|y a'] L E; try discriminate L.
  - auto.
  - cbn [app] in E. injection E as -> E. simpl in L.
    destruct (IH a' (eq_add_S _ _ L) E) as [-> ->]. auto.
Qed.

Lemma reads_unique (ids : list str) :
  forall t ids', reads ids t -> reads ids' t -> ids = ids'.
Proof.
  induction ids as [|rid ids IH]; intros t [|rid' ids']; cbn [reads].
  - reflexivity.
  - intros Ha [Hr [pre [post [[E [Ht _]] _]]]]. exfalso. exact (Ha pre _ post E Ht).
  - intros [Hr [pre [post [[E [Ht _]] _]]]] Ha. exfalso. exact (Ha pre _ post E Ht).
  - intros [Hr [pre [post [[E [Ht Hl]] Hrest]]]] [Hr' [pre' [post' [[E' [Ht' Hl']] Hrest']]]].
    pose proof (Hl pre' _ post' E' Ht') as L1.
    pose proof (Hl' pre _ post E Ht) as L2.
    rewrite E in E'.
    destruct (@app_same_length _ pre pre' _ _ (Nat.le_antisymm _ _ L1 L2) E') as [-> E2].
    destruct (@token_unique_at _ _ _ _ Hr Hr' E2) as [-> ->].
    f_equal. exact (IH post' ids' Hrest Hrest').
Qed.

Lemma reading_findall (doc : document) :
  reading doc (map (fun p => findall id_re (text p)) doc).
Proof.
  unfold reading. induction doc as [|p doc IH]; constructor; [|exact IH].
  apply (@findall_reads (length (text p))). lia.
Qed.

Lemma reading_unique (doc : document) (tokens : list (list str)) :
  reading doc tokens -> concat tokens = all_ids doc.
Proof.
  unfold reading, all_ids. intros H. induction H as [|p ids doc tokens Hp _ IH].
  - reflexivity.
  - cbn [concat flat_map]. rewrite IH. f_equal.
    apply (@reads_unique ids (text p)); [exact Hp|].
    apply (@findall_reads (length (text p))). lia.
Qed.

(** C6, as stated, fails: a run of characters without a closing bracket
    is not always read as a raw id.  In ["[id:a<LF>b] [id:c]"] the run
    [a<LF>b] holds no closing bracket, yet pass 1 numbers [c] alone, with
    the number 1. *)
Lemma line_feed_token_not_numbered :
  ~ In BRACKET (lit "a" ++ [LF] ++ lit "b")
  /\ snd (replace_ids
            [para (placeholder (lit "a" ++ [LF] ++ lit "b") ++ lit " "
                   ++ placeholder (lit "c"))] [] APA7)
     = [(lit "c", 1)]
  /\ snd (replace_ids
            [para (placeholder (lit "a" ++ [LF] ++ lit "b") ++ lit " "
                   ++ placeholder (lit "c"))] [] APA7)
     <> [(lit "a" ++ [LF] ++ lit "b", 1); (lit "c", 2)].
Proof.
  split.
  - intros H. simpl in H. repeat (destruct H as [H|H]; [discriminate H|]). exact H.
  - split; [vm_compute; reflexivity|vm_compute; discriminate].
Qed.

(** C6 (amended): the tokens pass 1 of [replace_ids] reads are the texts
    [[id:<raw-id>]] whose raw id holds no closing bracket and no line feed,
    read in each block from left to right, each time from the end of the
    token read last.  Every block sequence has exactly one such reading,
    and the map of pass 1 gives the [k] distinct raw ids read the numbers
    [1..k] in order of first appearance (block order, then left to right),
    a raw id read again keeping its number: the keys of the map are
    distinct, a raw id is a key exactly when it is read, there is one key
    per distinct raw id, the numbers are [1, 2, ..., k] in insertion order,
    and a raw id has number [n] exactly when [n - 1] distinct raw ids are
    read before its first occurrence; the blocks ["See [id:b] and [id:a]"]
    and ["Also [id:b]"] give [{b: 1, a: 2}]. *)
Theorem replace_ids_numbering (doc : document) (lib : library) (style : str) :
  (exists tokens, reading doc tokens)
  /\ (forall tokens,
        reading doc tokens ->
        NoDup (map fst (snd (replace_ids doc lib style)))
        /\ (forall rid,
              In rid (concat tokens) <->
              exists n, In (rid, n) (snd (replace_ids doc lib style)))
        /\ length (snd (replace_ids doc lib style))
           = length (nodup str_eq_dec (concat tokens))
        /\ map snd (snd (replace_ids doc lib style))
           = seq 1 (length (nodup str_eq_dec (concat tokens)))
        /\ (forall rid n,
              In (rid, n) (snd (replace_ids doc lib style)) <->
              exists pre post,
                concat tokens = pre ++ rid :: post /\ ~ In rid pre /\
                n = S (length (nodup str_eq_dec pre)))
        /\ (forall rid,
              In rid (concat tokens) ->
              raw_id rid /\
              exists p pre post, In p doc /\ text p = pre ++ placeholder rid ++ post))
  /\ reading [para (lit "See [id:b] and [id:a]"); para (lit "Also [id:b]")]
       [[lit "b"; lit "a"]; [lit "b"]]
  /\ snd (replace_ids [para (lit "See [id:b] and [id:a]"); para (lit "Also [id:b]")]
            lib style)
     = [(lit "b", 1); (lit "a", 2)].
Proof.
  split; [exists (map (fun p => findall id_re (text p)) doc); apply reading_findall|].
  split.
  { intros tokens Hr. rewrite (@reading_unique doc tokens Hr).
    unfold replace_ids. cbn [snd]. rewrite number_ids_numbered.
    split; [apply numbered_keys_nodup|].
    split.
    { intros rid. rewrite <- numbered_keys, in_map_iff. split.
      - intros [[r n] [E Hin]]. cbn [fst] in E. subst r. now exists n.
      - intros [n Hin]. now exists (rid, n). }
    split; [apply numbered_size|].
    split; [rewrite <- numbered_size; apply numbered_numbers|].
    split; [intros rid n; apply numbered_first_occurrence|].
    intros rid Hin. apply all_ids_tokens in Hin. unfold raw_id. tauto. }
  split; [|vm_compute; reflexivity].
  assert (E : [[lit "b"; lit "a"]; [lit "b"]]
              = map (fun p => findall id_re (text p))
                  [para (lit "See [id:b] and [id:a]"); para (lit "Also [id:b]")])
    by (vm_compute; reflexivity).
  rewrite E. apply reading_findall.
Qed.

(** * The path of the processed document *)

Section ReplaceLength.

Variables old new : str.
Hypothesis old_not_empty : old <> [].
Hypothesis grows : length old < length new.

Lemma replace_length (t : str) : length t <= length (replace old new t).
Proof.
  remember (length t) as n eqn:En. revert t En.
  induction n as [n IH] using lt_wf_ind. intros t En.
  destruct t as [|c t]; [simpl in En; lia|].
  destruct (starts_with old (c :: t)) eqn:Es.
  - apply starts_with_prefix in Es. destruct Es as [rest Es].
    rewrite Es in En |- *. rewrite (replace_found new old_not_empty), !length_app.
    rewrite length_app in En.
    assert (H : length rest <= length (replace old new rest)).
    { apply (IH (length rest)); [|reflexivity].
      destruct old; [contradiction|simpl in *; lia]. }
    lia.
  - rewrite (replace_not_found new old_not_empty _ _ Es). simpl.
    assert (H : length t <= length (replace old new t))
      by (apply (IH (length t)); [simpl in En; lia|reflexivity]).
    simpl in En. lia.
Qed.

Lemma replace_longer (t : str) :
  occurs old t -> length t < length (replace old new t).
Proof.
  induction t as [|c t IH]; intros [u [v E]].
  - destruct u; [destruct old; [contradiction|discriminate]|discriminate].
  - destruct (starts_with old (c :: t)) eqn:Es.
    + apply starts_with_prefix in Es. destruct Es as [rest Es].
      rewrite Es, (replace_found new old_not_empty), !length_app.
      pose proof (replace_length rest). lia.
    + rewrite (replace_not_found new old_not_empty _ _ Es). simpl.
      destruct u as [|c' u].
      * exfalso. simpl in E.
        assert (starts_with old (c :: t) = true)
          by (apply starts_with_prefix; now exists v).
        congruence.
      * simpl in E. injection E as _ E.
        assert (occurs old t) by now exists u, v.
        apply IH in H. lia.
Qed.

End ReplaceLength.

Lemma replace_only_at_end (old new stem : str) :
  old <> [] -> only_at_end old stem -> replace old new (stem ++ old) = stem ++ new.
Proof.
  intros Ho. induction stem as [|c stem IH]; intros H.
  - rewrite <- (app_nil_r old) at 2. simpl.
    now rewrite (replace_found new Ho), (replace_nil new Ho), app_nil_r.
  - simpl. rewrite (replace_not_found new Ho).
    + f_equal. apply IH. intros u v E.
      assert (E' : (c :: stem) ++ old = (c :: u) ++ old ++ v) by (simpl; now rewrite E).
      apply H in E'. now injection E'.
    + destruct (starts_with old (c :: stem ++ old)) eqn:Es; [|reflexivity].
      apply starts_with_prefix in Es. destruct Es as [rest Es].
      specialize (H [] rest Es). discriminate.
Qed.

(** X5: [process_docx] builds the output path by replacing every
    [.docx] of the chosen path.  The output path is the chosen path
    itself, so that saving overwrites the opened document, exactly when
    the path contains no [.docx] (a path ending in [.DOCX], say); when
    [.docx] occurs only at the end of the path, the output path is the
    stem followed by [_output_], the style and [.docx], which for the
    style [GB/T] puts a [/] into the file name. *)
Theorem output_path_cases (path stem style : str) :
  (output_path path style = path <-> ~ occurs (lit ".docx") path)
  /\ (only_at_end (lit ".docx") stem ->
      output_path (stem ++ lit ".docx") style
      = stem ++ lit "_output_" ++ style ++ lit ".docx")
  /\ (only_at_end (lit ".docx") stem ->
      output_path (stem ++ lit ".docx") GBT
      = stem ++ lit "_output_GB" ++ lit "/" ++ lit "T.docx").
Proof.
  assert (Ho : lit ".docx" <> []) by discriminate.
  split; [|split].
  - unfold output_path. split.
    + intros E Hocc.
      assert (L : length (lit ".docx") < length (lit "_output_" ++ style ++ lit ".docx"))
        by (rewrite !length_app; simpl; lia).
      pose proof (@replace_longer _ _ Ho L path Hocc) as Hl.
      rewrite E in Hl. lia.
    + intros Hn. now apply replace_absent.
  - intros H. unfold output_path. now apply replace_only_at_end.
  - intros H. unfold output_path. rewrite (replace_only_at_end _ Ho H).
    reflexivity.
Qed.

(** * The order of the reference list *)

Lemma insert_by_number_perm (x : str * nat) (l : list (str * nat)) :
  Permutation (insert_by_number x l) (x :: l).
Proof.
  induction l as [|y l IH]; simpl; [reflexivity|].
  destruct (snd x <=? snd y)%nat; [reflexivity|].
  rewrite IH. apply perm_swap.
Qed.

Lemma insert_by_number_sorted (x : str * nat) (l : list (str * nat)) :
  StronglySorted by_number l -> StronglySorted by_number (insert_by_number x l).
Proof.
  induction l as [|y l IH]; intros H; simpl.
  - constructor; constructor.
  - destruct (snd x <=? snd y)%nat eqn:E.
    + apply Nat.leb_le in E. constructor; [exact H|].
      constructor; [exact E|]. apply StronglySorted_inv in H. destruct H as [_ H].
      rewrite Forall_forall in *. intros z Hz. specialize (H z Hz).
      unfold by_number in *. lia.
    + apply Nat.leb_gt in E. apply StronglySorted_inv in H. destruct H as [Hs Hy].
      constructor; [now apply IH|].
      rewrite Forall_forall in *. intros z Hz.
      apply (Permutation_in _ (insert_by_number_perm x l)) in Hz.
      destruct Hz as [<-|Hz]; [unfold by_number; lia|now apply Hy].
Qed.

Lemma insert_by_number_stable (n : nat) (x : str * nat) (l : list (str * nat)) :
  filter (fun kv => snd kv =? n)%nat (insert_by_number x l)
  = filter (fun kv => snd kv =? n)%nat (x :: l).
Proof.
  induction l as [|y l IH]; [reflexivity|]. cbn [insert_by_number].
  destruct (snd x <=? snd y)%nat eqn:E; [reflexivity|].
  apply Nat.leb_gt in E. cbn [filter] in *. rewrite IH.
  destruct (snd y =? n)%nat eqn:Ey; [|reflexivity].
  apply Nat.eqb_eq in Ey.
  destruct (snd x =? n)%nat eqn:Ex; [|reflexivity].
  apply Nat.eqb_eq in Ex. lia.
Qed.

(** X6: for every map, [insert_refs] appends to the document the heading
    and then one line per pair of the map whose raw id has a record, the
    pairs being taken in ascending order of their numbers and, for equal
    numbers, in the order of the map (the sort is stable); no pair is
    lost or added by the sort. *)
Theorem insert_refs_order (doc : document) (lib : library) (m : id_map) (style : str) :
  insert_refs doc lib m style
  = doc ++ {| style_of := Heading 1; text := heading_for style |}
        :: flat_map (line_of lib) (sorted_by_number m)
  /\ Permutation (sorted_by_number m) m
  /\ StronglySorted by_number (sorted_by_number m)
  /\ (forall n,
        filter (fun kv => snd kv =? n)%nat (sorted_by_number m)
        = filter (fun kv => snd kv =? n)%nat m).
Proof.
  split; [reflexivity|]. unfold sorted_by_number.
  split; [|split].
  - induction m as [|x m IH]; [reflexivity|]. simpl.
    now rewrite insert_by_number_perm, IH.
  - induction m as [|x m IH]; [constructor|]. simpl.
    now apply insert_by_number_sorted.
  - intros n. induction m as [|x m IH]; [reflexivity|]. simpl fold_right.
    rewrite insert_by_number_stable. cbn [filter]. now rewrite IH.
Qed.

(** * Matches with their groups

    [derives r b m rest gs]: at a position where [b] tells whether the
    subject starts there, the pattern [r] can match the text [m] with
    [rest] left, setting the groups [gs] (the last one set first). *)

Lemma run_derives (r : regex) :
  forall b s g m rest g',
    In (m, rest, g') (run r b s g) ->
    s = m ++ rest /\ exists gs, g' = gs ++ g /\ derives r b m rest gs.
Proof.
  induction r as [|p|gr lo hi p|r1 IH1 r2 IH2|r1 IH1 r2 IH2|n r IH| |];
    intros b s g m rest g'; simpl.
  - intros [H|[]]. injection H as <- <- <-. split; [reflexivity|]. now exists [].
  - destruct s as [|c s]; [intros []|]. destruct (p c) eqn:Ep; [|intros []].
    intros [H|[]]. injection H as <- <- <-. split; [reflexivity|].
    exists []. split; [reflexivity|]. split; [now exists c|reflexivity].
  - rewrite in_map_iff. intros [[m' rest'] [H Hin]]. injection H as <- <- <-.
    apply rep_spec in Hin. destruct Hin as [E Hin]. split; [exact E|].
    exists []. auto.
  - rewrite in_flat_map. intros [[[m1 s1] g1] [H1 H2]].
    apply in_map_iff in H2. destruct H2 as [[[m2 s2] g2] [E H2]].
    injection E as <- <- <-.
    apply IH1 in H1. apply IH2 in H2.
    destruct H1 as [-> [gs1 [-> D1]]], H2 as [-> [gs2 [-> D2]]].
    split; [now rewrite app_assoc|].
    exists (gs2 ++ gs1). split; [now rewrite app_assoc|].
    now exists m1, m2, gs1, gs2.
  - rewrite in_app_iff. intros [H|H]; [apply IH1 in H|apply IH2 in H];
      destruct H as [E [gs [Eg D]]]; (split; [exact E|]); exists gs; auto.
  - rewrite in_map_iff. intros [[[m' rest'] g''] [E H]]. injection E as <- <- <-.
    apply IH in H. destruct H as [E [gs [-> D]]]. split; [exact E|].
    exists ((n, m') :: gs). split; [reflexivity|]. now exists gs.
  - destruct b; [|intros []]. intros [H|[]]. injection H as <- <- <-.
    split; [reflexivity|]. now exists [].
  - destruct (is_empty s || str_eqb s [LF]) eqn:E; [|intros []].
    intros [H|[]]. injection H as <- <- <-. split; [reflexivity|].
    exists []. split; [reflexivity|]. split; [|auto].
    apply orb_true_iff in E. destruct E as [E|E].
    + left. now destruct s.
    + right. now apply str_eqb_eq.
Qed.

Lemma re_match_derives (r : regex) (s : str) (mo : match_object) :
  re_match r s = Some mo ->
  exists rest, s = fst mo ++ rest /\ derives r true (fst mo) rest (snd mo).
Proof.
  unfold re_match. intros H. apply first_match_head in H. destruct H as [rest H].
  apply hd_error_In, run_derives in H. destruct H as [E [gs [Eg D]]].
  exists rest. split; [exact E|]. now rewrite Eg, app_nil_r.
Qed.

Lemma derives_Lit (l : str) (b : bool) (m rest : str) (gs : groups) :
  derives (Lit l) b m rest gs -> m = l /\ gs = [].
Proof.
  revert b m rest gs. induction l as [|c l IH]; intros b m rest gs; simpl; [tauto|].
  intros [m1 [m2 [g1 [g2 [-> [-> [[[x [-> Hx]] ->] D]]]]]]].
  apply N.eqb_eq in Hx. subst x. apply IH in D. destruct D as [-> ->]. auto.
Qed.

Lemma derives_year_alt (b : bool) (m rest : str) (gs : groups) :
  derives year_alt b m rest gs -> year_shape m /\ gs = [].
Proof.
  assert (H : forall x y,
             derives (Lit [x; y] >> counted 2 2 is_decimal) b m rest gs ->
             (exists a c, is_decimal a = true /\ is_decimal c = true /\ m = [x; y; a; c])
             /\ gs = []).
  { intros x y [m1 [m2 [g1 [g2 [-> [-> [D1 D2]]]]]]].
    apply derives_Lit in D1. destruct D1 as [-> ->].
    destruct D2 as [[Hall [Hlo Hhi]] ->]. split; [|reflexivity].
    destruct m2 as [|a [|c [|? ?]]]; simpl in Hlo, Hhi; try lia.
    simpl in Hall. rewrite andb_true_r in Hall. apply andb_true_iff in Hall.
    exists a, c. tauto. }
  intros [D|D]; apply H in D; destruct D as [[a [c [Ha [Hc ->]]]] ->];
    (split; [exists a, c; auto|reflexivity]).
Qed.

Lemma derives_dots (gr : bool) (b : bool) (m rest : str) (gs : groups) :
  derives (Rep gr 1 None dot) b m rest gs -> span m /\ gs = [].
Proof.
  intros [[Hall [Hlo _]] ->]. split; [|reflexivity]. split.
  - destruct m; [simpl in Hlo; lia|discriminate].
  - intros Hin. rewrite forallb_forall in Hall. apply Hall in Hin. discriminate.
Qed.

Lemma derives_blanks (b : bool) (m rest : str) (gs : groups) :
  derives (star is_space) b m rest gs -> blanks m /\ gs = [].
Proof. intros [[Hall _] ->]. auto. Qed.

Lemma derives_Chr (c : char) (b : bool) (m rest : str) (gs : groups) :
  derives (Chr c) b m rest gs -> m = [c] /\ gs = [].
Proof.
  intros [[x [-> Hx]] ->]. apply N.eqb_eq in Hx. now subst x.
Qed.

(** * The stages of the parser *)

Lemma parse_citation_structured (raw : str) (mo : match_object) :
  re_match apa (normalize raw) = Some mo ->
  parse_citation raw
  = (a <- smart_parse_authors (group "authors" mo) ;;
     Ok (filled raw a (strip (group "title" mo)) (strip (group "rest" mo))
           (group "year" mo))).
Proof.
  intros H. unfold parse_citation, filled, scanned, scanned_pages. rewrite H.
  set (text := normalize raw).
  destruct (search doi_re text), (search url_re text), (search pages_re text);
    destruct (smart_parse_authors (group "authors" mo)); reflexivity.
Qed.

Lemma parse_citation_fallback (raw : str) :
  re_match apa (normalize raw) = None ->
  parse_citation raw
  = (let l := pieces (normalize raw) in
     a <- (if is_empty l then Ok [] else smart_parse_authors (item 0 l)) ;;
     Ok (filled raw a (item 1 l) (item 2 l) (scanned_year (normalize raw)))).
Proof.
  intros H.
  unfold parse_citation, filled, scanned, scanned_pages, scanned_year, pieces.
  rewrite H. set (text := normalize raw).
  destruct (search doi_re text), (search url_re text), (search pages_re text),
    (search year_re text);
    destruct (segments (ch ".") text) as [|x1 [|x2 [|x3 l1]]];
    cbn [length Nat.leb is_empty negb item nth];
    try (destruct (smart_parse_authors x1); reflexivity);
    destruct (segments (ch ",") text) as [|y1 [|y2 [|y3 l2]]];
    cbn [length Nat.leb is_empty negb item nth];
    try (destruct (smart_parse_authors y1); reflexivity); reflexivity.
Qed.

Lemma for_each_raises (A B : Type) (f : A -> result B) (l : list A) (e e0 : exn) :
  (forall x e', f x = Raise e' -> e' = e0) -> for_each f l = Raise e -> e = e0.
Proof.
  intros Hf. induction l as [|x l IH]; simpl; [discriminate|].
  destruct (f x) eqn:Ex; simpl.
  - destruct (for_each f l); simpl; [discriminate|].
    intros H. injection H as <-. now apply IH.
  - intros H. injection H as <-. exact (Hf _ _ Ex).
Qed.

Lemma smart_parse_authors_raises (raw : str) (e : exn) :
  smart_parse_authors raw = Raise e -> e = IndexError.
Proof.
  unfold smart_parse_authors. destruct (is_empty raw); [discriminate|].
  apply for_each_raises. intros x e' Hx.
  destruct (parse_author_cases x) as [[a Ha]|[Hr _]]; congruence.
Qed.

Lemma parse_citation_filled (raw : str) (r : citation) :
  parse_citation raw = Ok r -> exists a t j y, r = filled raw a t j y.
Proof.
  destruct (re_match apa (normalize raw)) as [mo|] eqn:E.
  - rewrite (@parse_citation_structured raw mo E).
    destruct (smart_parse_authors (group "authors" mo)); simpl; [|discriminate].
    intros H. injection H as <-. eauto.
  - rewrite (@parse_citation_fallback raw E). cbv zeta.
    match goal with |- bind ?x _ = _ -> _ => destruct x end; simpl; [|discriminate].
    intros H. injection H as <-. eauto.
Qed.

(** X7: whatever the text, the parser either returns a record or raises
    [IndexError] (it raises nothing else); a record it returns has no volume,
    no issue and no attached file, and keeps the trimmed input as its raw
    text. *)
Theorem parse_citation_outcome (raw : str) :
  match parse_citation raw with
  | Ok r => volume r = [] /\ issue r = [] /\ files r = [] /\ raw_text r = strip raw
  | Raise e => e = IndexError
  end.
Proof.
  destruct (re_match apa (normalize raw)) as [mo|] eqn:E.
  - rewrite (@parse_citation_structured raw mo E).
    destruct (smart_parse_authors (group "authors" mo)) eqn:Ea; simpl.
    + repeat split.
    + exact (@smart_parse_authors_raises _ _ Ea).
  - rewrite (@parse_citation_fallback raw E). cbv zeta.
    destruct (is_empty (pieces (normalize raw))); simpl; [repeat split|].
    destruct (smart_parse_authors (item 0 (pieces (normalize raw)))) eqn:Ea; simpl.
    + repeat split.
    + exact (@smart_parse_authors_raises _ _ Ea).
Qed.

(** * Whitespace around the citation *)

Lemma lstrip_by_margin (p : char -> bool) (l x : str) :
  forallb p l = true -> lstrip_by p (l ++ x) = lstrip_by p x.
Proof.
  induction l as [|c l IH]; simpl; [reflexivity|].
  intros H. apply andb_true_iff in H. destruct H as [-> H]. now apply IH.
Qed.

Lemma lstrip_by_app (p : char -> bool) (x t : str) :
  lstrip_by p x <> [] -> lstrip_by p (x ++ t) = lstrip_by p x ++ t.
Proof.
  induction x as [|c x IH]; simpl; [congruence|].
  destruct (p c); [exact IH|reflexivity].
Qed.

Lemma forallb_rev (A : Type) (p : A -> bool) (l : list A) :
  forallb p (rev l) = forallb p l.
Proof.
  induction l as [|c l IH]; [reflexivity|].
  simpl. rewrite forallb_app, IH. simpl. rewrite andb_true_r. apply andb_comm.
Qed.

Lemma strip_by_margins (p : char -> bool) (l x t : str) :
  forallb p l = true -> forallb p t = true ->
  strip_by p (l ++ x ++ t) = strip_by p x.
Proof.
  intros Hl Ht. unfold strip_by, rstrip_by.
  rewrite (@lstrip_by_margin p l (x ++ t) Hl).
  destruct (lstrip_by p x) as [|c r] eqn:Ex.
  - assert (Hx : forallb p x = true).
    { destruct (lstrip_by_split p x) as [a [Ea Ha]]. rewrite Ex, app_nil_r in Ea.
      now subst a. }
    rewrite (@lstrip_by_all p (x ++ t)); [reflexivity|].
    now rewrite forallb_app, Hx, Ht.
  - rewrite (@lstrip_by_app p x t); [|rewrite Ex; discriminate].
    rewrite Ex, rev_app_distr.
    rewrite (@lstrip_by_margin p (rev t) (rev (c :: r))); [reflexivity|].
    now rewrite forallb_rev.
Qed.

Lemma normalize_strip (raw : str) : normalize (strip raw) = normalize raw.
Proof.
  unfold normalize. rewrite !replace_line_feeds.
  destruct (strip_by_split is_space raw) as [a [b [E [Ha Hb]]]].
  fold (strip raw) in E. rewrite E at 2. rewrite !map_app.
  symmetry. apply strip_by_margins.
  - rewrite (@forallb_map_invariant is_space unfold_line a is_space_unfold_line).
    exact Ha.
  - rewrite (@forallb_map_invariant is_space unfold_line b is_space_unfold_line).
    exact Hb.
Qed.

(** X8: whitespace of any kind before and after the citation, line feeds
    and tabs included, changes nothing: the trimmed text gives the same
    outcome, and a returned record, parsed again from its own raw text,
    comes back unchanged. *)
Theorem parse_citation_trimmed (raw : str) :
  parse_citation (strip raw) = parse_citation raw
  /\ (forall l t, blanks l -> blanks t ->
        parse_citation (l ++ strip raw ++ t) = parse_citation raw)
  /\ (forall r, parse_citation raw = Ok r -> parse_citation (raw_text r) = Ok r).
Proof.
  assert (H1 : forall l t, blanks l -> blanks t ->
                 parse_citation (l ++ strip raw ++ t) = parse_citation raw).
  { intros l t Hl Ht.
    assert (Es : strip (l ++ strip raw ++ t) = strip raw).
    { unfold strip at 1. rewrite (@strip_by_margins is_space l (strip raw) t Hl Ht).
      apply strip_idempotent. }
    assert (En : normalize (l ++ strip raw ++ t) = normalize raw).
    { rewrite <- (normalize_strip (l ++ strip raw ++ t)), Es. apply normalize_strip. }
    unfold parse_citation. rewrite En, Es. reflexivity. }
  assert (H0 : parse_citation (strip raw) = parse_citation raw).
  { specialize (H1 [] [] eq_refl eq_refl). now rewrite app_nil_r in H1. }
  split; [exact H0|]. split; [exact H1|].
  intros r Hr. destruct (parse_citation_filled raw Hr) as [a [t [j [y ->]]]].
  cbn [raw_text filled]. now rewrite H0.
Qed.

(** * The structured stage *)

Lemma derives_run (r : regex) :
  forall b m rest gs,
    derives r b m rest gs -> forall g, In (m, rest, gs ++ g) (run r b (m ++ rest) g).
Proof.
  induction r as [|p|gr lo hi p|r1 IH1 r2 IH2|r1 IH1 r2 IH2|n r IH| |];
    intros b m rest gs; simpl.
  - intros [-> ->] g. now left.
  - intros [[c [-> Hc]] ->] g. simpl. rewrite Hc. now left.
  - intros [H ->] g. apply in_map_iff. exists (m, rest). split; [reflexivity|].
    apply rep_spec. tauto.
  - intros [m1 [m2 [g1 [g2 [-> [-> [D1 D2]]]]]]] g. rewrite <- !app_assoc.
    apply in_flat_map. exists (m1, m2 ++ rest, g1 ++ g).
    split; [now apply IH1|].
    apply in_map_iff. exists (m2, rest, g2 ++ g1 ++ g). split; [reflexivity|].
    now apply IH2.
  - intros [D|D] g; apply in_or_app; [left; now apply IH1|right; now apply IH2].
  - intros [g0 [-> D]] g. apply in_map_iff. exists (m, rest, g0 ++ g).
    split; [reflexivity|]. now apply IH.
  - intros [-> [-> ->]] g. now left.
  - intros [[-> | ->] [-> ->]] g; now left.
Qed.

Lemma Lit_derives (l : str) (b : bool) (rest : str) : derives (Lit l) b l rest [].
Proof.
  revert b. induction l as [|c l IH]; intros b; simpl; [auto|].
  exists [c], l, [], []. repeat split.
  - exists c. split; [reflexivity|apply N.eqb_refl].
  - apply IH.
Qed.

Lemma Chr_derives (c : char) (b : bool) (rest : str) : derives (Chr c) b [c] rest [].
Proof. split; [|reflexivity]. exists c. split; [reflexivity|apply N.eqb_refl]. Qed.

Lemma year_alt_derives (y : str) (b : bool) (rest : str) :
  year_shape y -> derives year_alt b y rest [].
Proof.
  intros [a [c [Ha [Hc [-> | ->]]]]]; [left|right];
    (eexists; exists [a; c]; exists []; exists []; split; [reflexivity|];
     split; [reflexivity|]; split; [apply Lit_derives|]; split; [|reflexivity];
     split; [simpl; now rewrite Ha, Hc|simpl; lia]).
Qed.

Lemma dots_derives (gr : bool) (m : str) (b : bool) (rest : str) :
  span m -> derives (Rep gr 1 None dot) b m rest [].
Proof.
  intros [Hne Hlf]. split; [|reflexivity]. split; [|split; [|exact I]].
  - apply forallb_forall. intros c Hc. unfold dot.
    destruct (c =? LF)%N eqn:E; [|reflexivity].
    apply N.eqb_eq in E. now subst c.
  - destruct m; [congruence|simpl; lia].
Qed.

Lemma blanks_derives (w : str) (b : bool) (rest : str) :
  blanks w -> derives (star is_space) b w rest [].
Proof. intros H. split; [|reflexivity]. split; [exact H|]. simpl. split; [lia|exact I]. Qed.

Lemma apa_tail_derives (b : bool) (w1 y w2 t w3 j : str) :
  blanks w1 -> year_shape y -> blanks w2 -> span t -> blanks w3 -> span j ->
  exists gs,
    derives apa_tail b
      (w1 ++ lit "(" ++ y ++ lit ")." ++ w2 ++ t ++ lit "." ++ w3 ++ j) [] gs.
Proof.
  intros H1 Hy H2 Ht H3 Hj.
  enough (H : exists gs,
             derives apa_tail b
               (w1 ++ [ch "("] ++ y ++ lit ")." ++ w2 ++ t ++ [ch "."] ++ w3 ++ j ++ [])
               [] gs)
    by (now rewrite app_nil_r in H).
  eexists. unfold apa_tail.
  do 4 eexists. split; [reflexivity|]. split; [reflexivity|].
  split; [now apply blanks_derives|].
  do 4 eexists. split; [reflexivity|]. split; [reflexivity|].
  split; [apply Chr_derives|].
  do 4 eexists. split; [reflexivity|]. split; [reflexivity|].
  split; [eexists; split; [reflexivity|now apply year_alt_derives]|].
  do 4 eexists. split; [reflexivity|]. split; [reflexivity|].
  split; [apply Lit_derives|].
  do 4 eexists. split; [reflexivity|]. split; [reflexivity|].
  split; [now apply blanks_derives|].
  do 4 eexists. split; [reflexivity|]. split; [reflexivity|].
  split; [eexists; split; [reflexivity|now apply dots_derives]|].
  do 4 eexists. split; [reflexivity|]. split; [reflexivity|].
  split; [apply Chr_derives|].
  do 4 eexists. split; [reflexivity|]. split; [reflexivity|].
  split; [now apply blanks_derives|].
  do 4 eexists. split; [reflexivity|]. split; [reflexivity|].
  split; [eexists; split; [reflexivity|now apply dots_derives]|].
  simpl. auto.
Qed.

Lemma apa_tail_match (b : bool) (m rest : str) (gs : groups) :
  derives apa_tail b m rest gs ->
  exists w1 y w2 t w3 j,
    m = w1 ++ lit "(" ++ y ++ lit ")." ++ w2 ++ t ++ lit "." ++ w3 ++ j /\
    gs = [("rest"%string, j); ("title"%string, t); ("year"%string, y)] /\
    (rest = [] \/ rest = [LF]) /\
    blanks w1 /\ year_shape y /\ blanks w2 /\ span t /\ blanks w3 /\ span j.
Proof.
  unfold apa_tail. intros D.
  destruct D as [w1 [m2 [gw [g2 [-> [-> [Dw D]]]]]]].
  apply derives_blanks in Dw. destruct Dw as [Hw1 ->].
  destruct D as [p1 [m3 [gp [g3 [-> [-> [Dp D]]]]]]].
  apply derives_Chr in Dp. destruct Dp as [-> ->].
  destruct D as [y [m4 [gy [g4 [-> [-> [[gy' [-> Dy]] D]]]]]]].
  apply derives_year_alt in Dy. destruct Dy as [Hy ->].
  destruct D as [p2 [m5 [gq [g5 [-> [-> [Dq D]]]]]]].
  apply derives_Lit in Dq. destruct Dq as [-> ->].
  destruct D as [w2 [m6 [gw2 [g6 [-> [-> [Dw2 D]]]]]]].
  apply derives_blanks in Dw2. destruct Dw2 as [Hw2 ->].
  destruct D as [t [m7 [gt [g7 [-> [-> [[gt' [-> Dt]] D]]]]]]].
  apply derives_dots in Dt. destruct Dt as [Ht ->].
  destruct D as [p3 [m8 [gd [g8 [-> [-> [Dd D]]]]]]].
  apply derives_Chr in Dd. destruct Dd as [-> ->].
  destruct D as [w3 [m9 [gw3 [g9 [-> [-> [Dw3 D]]]]]]].
  apply derives_blanks in Dw3. destruct Dw3 as [Hw3 ->].
  destruct D as [j [m10 [gj [g10 [-> [-> [[gj' [-> Dj]] [Htail [-> ->]]]]]]]]].
  apply derives_dots in Dj. destruct Dj as [Hj ->].
  exists w1, y, w2, t, w3, j.
  split; [now rewrite app_nil_r|].
  split; [reflexivity|]. tauto.
Qed.

Lemma normalize_no_line_feed (raw : str) : ~ In LF (normalize raw).
Proof.
  unfold normalize. rewrite replace_line_feeds. intros H.
  destruct (strip_by_split is_space (map unfold_line raw)) as [a [b [E _]]].
  fold (strip (map unfold_line raw)) in E.
  assert (H' : In LF (map unfold_line raw))
    by (rewrite E; apply in_or_app; right; apply in_or_app; now left).
  apply in_map_iff in H'. destruct H' as [c [Hc _]].
  destruct (unfold_line_cases c) as [[_ E']|E']; rewrite E' in Hc.
  - discriminate.
  - subst c. vm_compute in E'. discriminate.
Qed.

Lemma rep_lazy_plus_prefixes (p : char -> bool) (s : str) (l1 : list (str * str))
    (m rest : str) (l2 : list (str * str)) :
  rep false 1 None p s = l1 ++ (m, rest) :: l2 ->
  forall m' c m'', m' <> [] -> m = m' ++ c :: m'' -> In (m', c :: m'' ++ rest) l1.
Proof.
  rewrite rep_unfold; cbv zeta; cbn [Nat.eqb app].
  destruct s as [|c0 s]; [destruct l1; discriminate|].
  cbn [room less option_map pred andb].
  destruct (p c0); [|destruct l1; discriminate].
  intros E m' c m'' Hne Em.
  apply map_eq_app in E. destruct E as [k1 [k2 [Ek [E1 E2]]]].
  destruct k2 as [|[m0 rest0] k2]; [discriminate|].
  simpl in E2. injection E2 as <- <- _. subst l1.
  destruct m' as [|c1 m1']; [congruence|].
  simpl in Em. injection Em as -> Em.
  apply in_map_iff. exists (m1', c :: m'' ++ rest0). split; [reflexivity|].
  exact (@rep_lazy_prefixes p s _ _ _ _ Ek _ _ _ Em).
Qed.

Lemma structured_derives (text a y t j : str) :
  ~ In LF text -> structured text a y t j ->
  exists tl gs, text = a ++ tl /\ span a /\ forall b, derives apa_tail b tl [] (gs b).
Proof.
  intros Hlf [w1 [w2 [w3 [E [Ha [H1 [Hy [H2 [Ht [H3 Hj]]]]]]]]]].
  assert (Sa : span a).
  { split; [exact Ha|]. intros Hin. apply Hlf. rewrite E. apply in_or_app. now left. }
  assert (St : span t).
  { split; [exact Ht|]. intros Hin. apply Hlf. rewrite E.
    do 6 (apply in_or_app; right). apply in_or_app. now left. }
  assert (Sj : span j).
  { split; [exact Hj|]. intros Hin. apply Hlf. rewrite E.
    do 9 (apply in_or_app; right). exact Hin. }
  exists (w1 ++ lit "(" ++ y ++ lit ")." ++ w2 ++ t ++ lit "." ++ w3 ++ j).
  assert (F : forall b, exists gs,
               derives apa_tail b
                 (w1 ++ lit "(" ++ y ++ lit ")." ++ w2 ++ t ++ lit "." ++ w3 ++ j) [] gs)
    by (intros b; now apply apa_tail_derives).
  destruct (F true) as [g1 D1], (F false) as [g0 D0].
  exists (fun b : bool => if b then g1 else g0).
  split; [exact E|]. split; [exact Sa|]. intros [|]; assumption.
Qed.

Lemma apa_match (text : str) (mo : match_object) :
  ~ In LF text -> re_match apa text = Some mo ->
  structured text (group "authors" mo) (group "year" mo) (group "title" mo)
    (group "rest" mo).
Proof.
  intros Hlf H. apply re_match_derives in H. destruct H as [rest [Es D]].
  destruct mo as [m g]. cbn [fst snd] in *.
  change apa with (Bol >> (Grp "authors" (lazy_plus dot) >> apa_tail)) in D.
  destruct D as [m0 [m' [g0 [g' [-> [-> [[_ [-> ->]] D]]]]]]].
  destruct D as [a [m1 [ga [g1 [-> [-> [[ga' [-> Da]] D]]]]]]].
  apply derives_dots in Da. destruct Da as [Sa ->].
  apply apa_tail_match in D.
  destruct D as [w1 [y [w2 [t [w3 [j [-> [-> [Hrest [H1 [Hy [H2 [St [H3 Sj]]]]]]]]]]]]]].
  assert (rest = []) as ->.
  { destruct Hrest as [-> | ->]; [reflexivity|]. exfalso. apply Hlf.
    rewrite Es. apply in_or_app. right. now left. }
  rewrite app_nil_r in Es. cbn [app] in Es.
  exists w1, w2, w3. unfold group. cbn.
  split; [exact Es|].
  destruct Sa as [Sa _], St as [St _], Sj as [Sj _]. tauto.
Qed.

Lemma structured_matches (text a y t j : str) :
  ~ In LF text -> structured text a y t j -> re_match apa text <> None.
Proof.
  intros Hlf Hs.
  destruct (structured_derives Hlf Hs) as [tl [gs [E [Sa D]]]].
  assert (Da : exists g, derives apa true text [] g).
  { destruct a as [|c a]; [now destruct Sa|].
    set (a0 := c :: a) in *.
    exists ((gs false ++ [("authors"%string, a0)]) ++ []).
    exists [], text, [], (gs false ++ [("authors"%string, a0)]).
    split; [reflexivity|]. split; [reflexivity|]. split; [simpl; auto|].
    exists a0, tl, [("authors"%string, a0)], (gs false).
    split; [exact E|]. split; [reflexivity|].
    split; [eexists; split; [reflexivity|now apply dots_derives]|].
    apply D. }
  destruct Da as [g Da]. apply derives_run with (g := []) in Da.
  rewrite !app_nil_r in Da. unfold re_match. intros Hn.
  apply first_match_none in Hn. rewrite Hn in Da. destruct Da.
Qed.

(** X9: the structured stage is taken exactly when the normalized text
    reads [authors (year). title. rest], the year being [19dd] or [20dd],
    with optional whitespace after the authors, after [(year).] and after the
    full stop that closes the title.  Among all such readings the stage takes
    the one with the shortest authors part (so the first [(year).] that
    allows a reading gives the year), and the record it returns has that
    year, the trimmed title and the trimmed rest as its journal. *)
Theorem structured_stage (raw : str) :
  match re_match apa (normalize raw) with
  | Some mo =>
      structured (normalize raw) (group "authors" mo) (group "year" mo)
        (group "title" mo) (group "rest" mo)
      /\ (forall a y t j,
            structured (normalize raw) a y t j ->
            length (group "authors" mo) <= length a)
      /\ parse_citation raw
         = (l <- smart_parse_authors (group "authors" mo) ;;
            Ok (filled raw l (strip (group "title" mo)) (strip (group "rest" mo))
                  (group "year" mo)))
  | None => forall a y t j, ~ structured (normalize raw) a y t j
  end.
Proof.
  pose proof (normalize_no_line_feed raw) as Hlf.
  destruct (re_match apa (normalize raw)) as [mo|] eqn:Hm.
  2:{ intros a y t j Hs. exact (@structured_matches _ a y t j Hlf Hs Hm). }
  split; [exact (@apa_match _ mo Hlf Hm)|].
  split; [|exact (@parse_citation_structured raw mo Hm)].
  set (text := normalize raw) in *; clearbody text; destruct mo as [m g].
  unfold re_match in Hm; apply first_match_head in Hm;
    destruct Hm as [rest Hm]; cbn [fst snd] in Hm;
    change apa with (Bol >> (Grp "authors" (lazy_plus dot) >> apa_tail)) in Hm;
    apply run_seq_head in Hm;
    destruct Hm as [l1 [l2 [m1 [s1 [g1 [m2 [E0 [_ [Hm ->]]]]]]]]];
    cbn [run] in E0;
    (destruct l1 as [|? l1]; [|destruct l1; discriminate]);
    injection E0 as <- <- <- <-;
    apply run_seq_head in Hm;
    destruct Hm as [k1 [k2 [a0 [s1 [g1 [m3 [E1 [Hk1 [Hm ->]]]]]]]]];
    pose proof (hd_error_In _ Hm) as Hin; apply run_derives in Hin;
    destruct Hin as [Es1 [gs [-> Dt]]];
    assert (Ha0 : In (a0, s1, g1) (run (Grp "authors" (lazy_plus dot)) (true && is_empty []) text []))
      by (rewrite E1; apply in_elt);
    apply run_derives in Ha0; destruct Ha0 as [Et [ga [-> [ga' [-> Da]]]]];
    apply derives_dots in Da; destruct Da as [Sa ->];
    apply apa_tail_match in Dt;
    destruct Dt as [w1 [y [w2 [t [w3 [j [-> [-> [Hrest [H1 [Hy [H2 [St [H3 Sj]]]]]]]]]]]]]].
  intros a y' t' j' Hs. unfold group. cbn.
  { destruct (Nat.le_gt_cases (length a0) (length a)) as [L|L]; [exact L|exfalso].
    destruct (structured_derives Hlf Hs) as [tl [gs' [E [Sa' D]]]].
    assert (Ep : exists r, a0 = a ++ r).
    { apply (@prefix_of_app a a0 s1 tl); [now rewrite <- Et|lia]. }
    destruct Ep as [[|c r] ->]; [rewrite app_nil_r in L; lia|].
    cbn [run lazy_plus] in E1.
    apply map_eq_app in E1. destruct E1 as [p1 [p2 [E1 [F1 F2]]]].
    destruct p2 as [|[[v0 u0] h0] p2]; [discriminate|].
    simpl in F2. injection F2 as Ev Eu Ev' Eh Ek2. subst v0 u0 h0.
    apply map_eq_app in E1. destruct E1 as [q1 [q2 [E1 [G1 G2]]]].
    destruct q2 as [|[v1 u1] q2]; [discriminate|].
    simpl in G2. injection G2 as Ev1 Eu1 Eq2. subst v1 u1.
    assert (Ne : a <> []) by (destruct Sa' as [Sa' _]; exact Sa').
    pose proof (@rep_lazy_plus_prefixes dot text _ _ _ _ E1 a c r Ne eq_refl) as Hp.
    assert (Hq : In (a, c :: r ++ s1, [("authors"%string, a)]) k1).
    { subst k1 p1. apply in_map_iff. exists (a, c :: r ++ s1, []).
      split; [reflexivity|]. apply in_map_iff. now exists (a, c :: r ++ s1). }
    apply Hk1 in Hq.
    assert (Etl : tl = c :: r ++ s1).
    { apply (app_inv_head a). rewrite <- E, Et, <- app_assoc. reflexivity. }
    specialize (D (true && is_empty (@nil char) && is_empty a)).
    apply derives_run with (g := [("authors"%string, a)]) in D.
    rewrite app_nil_r, Etl, Hq in D. destruct D. }
Qed.

(** * The year of a record *)

Lemma occurs_of_normalized (raw y : str) :
  year_shape y -> occurs y (normalize raw) -> occurs y raw.
Proof.
  intros Hy [u [v E]].
  destruct (@occurrence_of_normalized year_shape year_shape_clean year_shape_unfold raw)
    as [a [b [_ [H _]]]].
  destruct (H u y v Hy E) as [pre0 [y0 [post0 [E0 [Ey _]]]]].
  rewrite (map_unfold_line_inv y0 (year_shape_no_space Hy) Ey) in E0.
  now exists pre0, post0.
Qed.

(** X10: in every record the parser returns, whatever stage built it, the
    year is either a part of the original text of the form [19dd] or [20dd]
    or empty, and it is empty only when the text has no part of that form. *)
Theorem year_field (raw : str) (r : citation) :
  parse_citation raw = Ok r ->
  (year_shape (year r) /\ occurs (year r) raw)
  \/ (year r = [] /\ absent year_shape raw).
Proof.
  intros H. destruct (re_match apa (normalize raw)) as [mo|] eqn:Hm.
  - left. rewrite (@parse_citation_structured raw mo Hm) in H.
    destruct (smart_parse_authors (group "authors" mo)); simpl in H; [|discriminate].
    injection H as <-. cbn [year filled].
    destruct (@apa_match _ mo (normalize_no_line_feed raw) Hm)
      as [w1 [w2 [w3 [E [_ [_ [Hy _]]]]]]].
    split; [exact Hy|]. apply (occurs_of_normalized raw Hy).
    exists (group "authors" mo ++ w1 ++ lit "("). eexists.
    rewrite E, <- !app_assoc. reflexivity.
  - rewrite (fallback_year raw H Hm). unfold scanned_year.
    pose proof (search_year_re (normalize raw)) as Hs.
    destruct (search year_re (normalize raw)) as [y|].
    + left. destruct Hs as [pre [post [E [Hy _]]]].
      split; [exact Hy|]. apply (occurs_of_normalized raw Hy). now exists pre, post.
    + right. split; [reflexivity|].
      exact (@absent_of_normalized year_shape year_shape_clean year_shape_unfold raw Hs).
Qed.

Lemma year_field_witness :
  (year_shape (year sample_fallback_record)
   /\ occurs (year sample_fallback_record) (lit "x, 120195"))
  \/ (year sample_fallback_record = [] /\ absent year_shape (lit "x, 120195")).
Proof.
  apply year_field; vm_compute; reflexivity.
Defined.

(** * Texts with plain whitespace *)

Lemma in_replace_from (old new s : str) (c : char) :
  forall k, In c (replace_from k old new s) -> In c s \/ In c new.
Proof.
  induction s as [|x s IH]; intros k; simpl; [tauto|].
  destruct k as [|k].
  - destruct (starts_with old (x :: s)).
    + rewrite in_app_iff. intros [H|H]; [now right|].
      apply IH in H. tauto.
    + intros [H|H]; [auto|]. apply IH in H. tauto.
  - intros H. apply IH in H. tauto.
Qed.

Lemma in_replace (old new s : str) (c : char) :
  old <> [] -> In c (replace old new s) -> In c s \/ In c new.
Proof.
  destruct old as [|a old]; [congruence|]. intros _. apply in_replace_from.
Qed.

Lemma in_split_piece (sep : char) (s x : str) (c : char) :
  In x (split sep s) -> In c x -> In c s.
Proof.
  revert x. induction s as [|a s IH]; intros x; simpl.
  - intros [<-|[]] [].
  - destruct (a =? sep)%N.
    + intros [<-|H] Hc; [destruct Hc|]. right. now apply (IH x).
    + destruct (split sep s) as [|h t] eqn:E.
      * intros [<-|[]] [<-|[]]. now left.
      * intros [<-|H] Hc.
        -- destruct Hc as [<-|Hc]; [now left|]. right. apply (IH h); [now left|exact Hc].
        -- right. apply (IH x); [now right|exact Hc].
Qed.

Lemma in_strip_by (p : char -> bool) (s : str) (c : char) :
  In c (strip_by p s) -> In c s.
Proof.
  intros H. destruct (strip_by_split p s) as [a [b [E _]]]. rewrite E.
  apply in_or_app. right. apply in_or_app. now left.
Qed.

Lemma strip_by_last (p : char -> bool) (s : str) :
  strip_by p s <> [] -> exists l c, strip_by p s = l ++ [c] /\ p c = false.
Proof.
  unfold strip_by, rstrip_by.
  destruct (lstrip_by p (rev (lstrip_by p s))) as [|c r] eqn:E; [simpl; congruence|].
  intros _. exists (rev r), c. split; [reflexivity|].
  exact (@lstrip_by_head p _ c r E).
Qed.

Lemma smart_parse_authors_plain (raw : str) :
  plain raw -> exists l, smart_parse_authors raw = Ok l.
Proof.
  intros Hp. unfold smart_parse_authors. destruct (is_empty raw); [now exists []|].
  set (s := replace _ _ _).
  assert (Hs : plain s).
  { intros c Hc Hsp. unfold s in Hc.
    apply in_replace in Hc; [|discriminate].
    destruct Hc as [Hc|Hc]; [|destruct Hc as [<-|[]]; discriminate].
    apply in_replace in Hc; [|discriminate].
    destruct Hc as [Hc|Hc];
      [|simpl in Hc; repeat (destruct Hc as [<-|Hc]; [vm_compute in Hsp; try discriminate; reflexivity|]); destruct Hc].
    apply in_replace in Hc; [|discriminate].
    destruct Hc as [Hc|Hc];
      [|simpl in Hc; repeat (destruct Hc as [<-|Hc]; [vm_compute in Hsp; try discriminate; reflexivity|]); destruct Hc].
    now apply Hp. }
  clearbody s.
  destruct (@for_each_total _ _ parse_author
              (map (strip_chars (lit " ,."))
                 (filter (fun p => negb (is_empty (strip_chars (lit " ,.") p)))
                    (split (ch ";") s)))) as [l [Hl _]]; [|now exists l].
  intros p Hin. apply in_map_iff in Hin. destruct Hin as [x [<- Hx]].
  apply filter_In in Hx. destruct Hx as [Hx Hne].
  destruct (parse_author_cases (strip_chars (lit " ,.") x)) as [Hok|[_ [_ Hws]]];
    [exact Hok|exfalso].
  apply split_ws_nil in Hws.
  destruct (@strip_by_last (fun c => contains c (lit " ,.")) x) as [l [c [E Hc]]].
  { unfold strip_chars in Hne. now destruct (strip_by _ x). }
  unfold strip_chars in Hws. rewrite E, forallb_app in Hws.
  apply andb_true_iff in Hws. destruct Hws as [_ Hws]. simpl in Hws.
  rewrite andb_true_r in Hws.
  assert (c = SPACE) as ->.
  { apply Hs; [|exact Hws]. apply (@in_split_piece (ch ";") s x c Hx).
    apply (@in_strip_by (fun c => contains c (lit " ,.")) x).
    rewrite E. apply in_or_app. right. now left. }
  vm_compute in Hc. discriminate.
Qed.

Lemma normalize_plain (raw : str) : plain_lines raw -> plain (normalize raw).
Proof.
  intros Hp c Hc Hsp. unfold normalize in Hc. rewrite replace_line_feeds in Hc.
  apply in_strip_by in Hc. apply in_map_iff in Hc. destruct Hc as [c0 [<- Hc0]].
  rewrite is_space_unfold_line in Hsp.
  destruct (Hp c0 Hc0 Hsp) as [-> | ->]; reflexivity.
Qed.

Lemma segments_plain (sep : char) (s x : str) :
  plain s -> In x (segments sep s) -> plain x.
Proof.
  intros Hp Hx c Hc. apply Hp. unfold segments in Hx.
  apply in_map_iff in Hx. destruct Hx as [x0 [<- Hx0]].
  apply filter_In in Hx0. destruct Hx0 as [Hx0 _].
  apply (@in_split_piece sep s x0 c Hx0). exact (@in_strip_by is_space x0 c Hc).
Qed.

(** X11: a text whose only whitespace is the space and the line feed is
    always parsed: the parser returns a record and raises nothing.  (So
    the exceptions of the parser come from other whitespace only.)  The
    same holds for the author parser on a text whose only whitespace is the
    space. *)
Theorem parse_citation_plain (raw : str) :
  (plain raw -> exists l, smart_parse_authors raw = Ok l)
  /\ (plain_lines raw -> exists r, parse_citation raw = Ok r).
Proof.
  split; [apply smart_parse_authors_plain|].
  intros Hp. apply normalize_plain in Hp.
  destruct (re_match apa (normalize raw)) as [mo|] eqn:Hm.
  - rewrite (@parse_citation_structured raw mo Hm).
    destruct (@apa_match _ mo (normalize_no_line_feed raw) Hm)
      as [w1 [w2 [w3 [E _]]]].
    destruct (@smart_parse_authors_plain (group "authors" mo)) as [l ->].
    + intros c Hc. apply Hp. rewrite E. apply in_or_app. now left.
    + simpl. eauto.
  - rewrite (@parse_citation_fallback raw Hm). cbv zeta.
    destruct (is_empty (pieces (normalize raw))) eqn:Ee; [simpl; eauto|].
    destruct (@smart_parse_authors_plain (item 0 (pieces (normalize raw)))) as [l ->].
    + unfold pieces in *.
      destruct (2 <=? length (segments (ch ".") (normalize raw)))%nat;
        match goal with
        | |- plain (item 0 (segments ?sep ?t)) =>
            apply (@segments_plain sep t); [exact Hp|];
            destruct (segments sep t); [discriminate|now left]
        end.
    + simpl. eauto.
Qed.

(** * Showing a record and saving it back *)

Lemma contains_In (c : char) (s : str) : contains c s = true <-> In c s.
Proof.
  unfold contains. rewrite existsb_exists. split.
  - intros [x [Hx E]]. apply N.eqb_eq in E. now subst x.
  - intros H. exists c. split; [exact H|apply N.eqb_refl].
Qed.

Lemma contains_not_In (c : char) (s : str) : contains c s = false <-> ~ In c s.
Proof.
  rewrite <- contains_In. destruct (contains c s); split; congruence.
Qed.

Lemma clean_ends (s : str) :
  clean s -> s <> [] -> starts_clean s /\ starts_clean (rev s).
Proof.
  unfold clean. intros H Hne. rewrite <- H. apply strip_clean. now rewrite H.
Qed.

Lemma ends_clean (s : str) : starts_clean s -> starts_clean (rev s) -> clean s.
Proof. intros H1 H2. apply strip_fixed. auto. Qed.

Lemma clean_strip (s : str) : clean (strip s).
Proof. apply strip_idempotent. Qed.

Lemma clean_nil : clean [].
Proof. reflexivity. Qed.

Lemma starts_clean_app (a b : str) : starts_clean a -> starts_clean (a ++ b).
Proof. destruct a; [intros []|auto]. Qed.

Lemma no_space_clean (t : str) : no_space t -> clean t.
Proof.
  unfold no_space. intros H. destruct t as [|c t]; [reflexivity|].
  apply ends_clean.
  - simpl in H. apply andb_true_iff in H. destruct H as [H _].
    simpl. now destruct (is_space c).
  - rewrite <- forallb_rev in H. destruct (rev (c :: t)) as [|d r] eqn:E.
    + apply (f_equal (@length char)) in E. rewrite length_rev in E. discriminate.
    + simpl in H. apply andb_true_iff in H. destruct H as [H _].
      simpl. now destruct (is_space d).
Qed.

Lemma split_app_sep (sep : char) (x s : str) :
  ~ In sep x -> split sep (x ++ sep :: s) = x :: split sep s.
Proof.
  induction x as [|a x IH]; intros H; simpl.
  - now rewrite N.eqb_refl.
  - destruct (a =? sep)%N eqn:E.
    + apply N.eqb_eq in E. subst a. exfalso. apply H. now left.
    + rewrite IH; [reflexivity|]. intros Hin. apply H. now right.
Qed.

Lemma split_join (sep : char) (l : list str) :
  l <> [] -> Forall (fun s => ~ In sep s) l -> split sep (join [sep] l) = l.
Proof.
  induction l as [|x l IH]; [congruence|]. intros _ H.
  apply Forall_cons_iff in H. destruct H as [Hx Hl].
  destruct l as [|y l].
  - simpl. apply split_no_sep. now apply contains_not_In.
  - change (join [sep] (x :: y :: l)) with (x ++ sep :: join [sep] (y :: l)).
    rewrite (@split_app_sep sep x _ Hx), IH; [reflexivity|discriminate|exact Hl].
Qed.

Lemma split_once_app (sep : char) (a b : str) :
  ~ In sep a -> split_once sep (a ++ sep :: b) = [a; b].
Proof.
  induction a as [|x a IH]; intros H; simpl.
  - now rewrite N.eqb_refl.
  - destruct (x =? sep)%N eqn:E.
    + apply N.eqb_eq in E. subst x. exfalso. apply H. now left.
    + rewrite IH; [reflexivity|]. intros Hin. apply H. now right.
Qed.

Lemma split_once_parts (sep : char) (s : str) :
  contains sep s = true ->
  exists u v, split_once sep s = [u; v] /\ s = u ++ sep :: v /\ ~ In sep u.
Proof.
  intros H. apply contains_In in H. apply in_split in H.
  destruct H as [l1 [l2 E]]. revert s E.
  induction l1 as [|a l1 IH]; intros s E.
  - exists [], l2. subst s. simpl. rewrite N.eqb_refl. auto.
  - destruct (a =? sep)%N eqn:Ea.
    + apply N.eqb_eq in Ea. subst a s. exists [], (l1 ++ sep :: l2).
      simpl. rewrite N.eqb_refl. auto.
    + destruct (IH _ eq_refl) as [u [v [E1 [E2 Hu]]]].
      exists (a :: u), v. subst s. simpl. rewrite Ea, E1.
      split; [reflexivity|]. split; [now rewrite E2|].
      intros [->|Hin]; [now rewrite N.eqb_refl in Ea|auto].
Qed.

Lemma split_ws_tokens (s t : str) :
  In t (split_ws s) -> t <> [] /\ no_space t /\ forall c, In c t -> In c s.
Proof.
  revert t. induction s as [|c s IH]; intros t; [intros []|].
  cbn [split_ws]. destruct (is_space c) eqn:Ec.
  - intros H. destruct (IH t H) as [H1 [H2 H3]]. repeat split; auto.
    intros x Hx. right. auto.
  - destruct s as [|d s].
    + intros [<-|[]]. split; [discriminate|]. split.
      * unfold no_space. simpl. now rewrite Ec.
      * auto.
    + destruct (is_space d) eqn:Ed.
      * intros [<-|H].
        -- split; [discriminate|]. split.
           ++ unfold no_space. simpl. now rewrite Ec.
           ++ intros x [<-|[]]. now left.
        -- destruct (IH t H) as [H1 [H2 H3]]. repeat split; auto.
           intros x Hx. right. auto.
      * destruct (split_ws (d :: s)) as [|h r] eqn:E.
        -- intros [<-|[]]. split; [discriminate|]. split.
           ++ unfold no_space. simpl. now rewrite Ec.
           ++ intros x [<-|[]]. now left.
        -- intros [<-|H].
           ++ destruct (IH h (or_introl eq_refl)) as [H1 [H2 H3]].
              split; [discriminate|]. split.
              ** unfold no_space in *. simpl. now rewrite Ec, H2.
              ** intros x [<-|Hx]; [now left|right; auto].
           ++ destruct (IH t (or_intror H)) as [H1 [H2 H3]]. repeat split; auto.
              intros x Hx. right. auto.
Qed.

Lemma in_join (sep : str) (l : list str) (c : char) :
  In c (join sep l) -> In c sep \/ exists x, In x l /\ In c x.
Proof.
  induction l as [|x l IH]; [intros []|].
  destruct l as [|y l].
  - simpl. intros H. right. exists x. auto.
  - change (join sep (x :: y :: l)) with (x ++ sep ++ join sep (y :: l)).
    rewrite !in_app_iff. intros [H|[H|H]].
    + right. exists x. split; [now left|exact H].
    + now left.
    + destruct (IH H) as [H'|[z [Hz Hc]]]; [now left|].
      right. exists z. split; [now right|exact Hc].
Qed.

Lemma join_ends (sep : str) (l : list str) :
  l <> [] ->
  Forall (fun s => starts_clean s /\ starts_clean (rev s)) l ->
  starts_clean (join sep l) /\ starts_clean (rev (join sep l)).
Proof.
  induction l as [|x l IH]; [congruence|]. intros _ H.
  apply Forall_cons_iff in H. destruct H as [[Hx Hx'] Hl].
  destruct l as [|y l]; [simpl; auto|].
  change (join sep (x :: y :: l)) with (x ++ sep ++ join sep (y :: l)).
  destruct IH as [_ IH]; [discriminate|exact Hl|].
  split; [now apply starts_clean_app|].
  rewrite !rev_app_distr, <- app_assoc. now apply starts_clean_app.
Qed.

Lemma in_removelast (A : Type) (l : list A) (x : A) : In x (removelast l) -> In x l.
Proof.
  induction l as [|a l IH]; [intros []|].
  destruct l as [|b l]; [intros []|].
  cbn [removelast]. intros [<-|H]; [now left|]. right. now apply IH.
Qed.

Lemma split_pieces_no_sep (sep : char) (s x : str) :
  In x (split sep s) -> ~ In sep x.
Proof.
  revert x. induction s as [|a s IH]; intros x; simpl.
  - intros [<-|[]] [].
  - destruct (a =? sep)%N eqn:Ea.
    + intros [<-|H]; [intros []|now apply IH].
    + destruct (split sep s) as [|h t] eqn:E.
      * intros [<-|[]] [->|[]]. now rewrite N.eqb_refl in Ea.
      * intros [<-|H].
        -- intros [->|Hin]; [now rewrite N.eqb_refl in Ea|].
           exact (IH h (or_introl eq_refl) Hin).
        -- exact (IH x (or_intror H)).
Qed.

Lemma for_each_Forall (A B : Type) (f : A -> result B) (P : B -> Prop) (l : list A) :
  (forall x y, In x l -> f x = Ok y -> P y) ->
  forall ys, for_each f l = Ok ys -> Forall P ys.
Proof.
  induction l as [|x l IH]; intros Hf ys; simpl.
  - intros H. injection H as <-. constructor.
  - destruct (f x) as [y|e] eqn:Ex; simpl; [|discriminate].
    destruct (for_each f l) as [ys'|e]; simpl; [|discriminate].
    intros H. injection H as <-. constructor.
    + apply (Hf x y); [now left|exact Ex].
    + apply IH; [|reflexivity]. intros x' y' Hin. apply Hf. now right.
Qed.

Lemma parse_author_tidy (p : str) (a : author) :
  ~ In (ch ";") p -> parse_author p = Ok a -> tidy a.
Proof.
  intros Hp. unfold parse_author. destruct (contains (ch ",") p) eqn:Ec.
  - destruct (@split_once_parts (ch ",") p Ec) as [u [v [E1 [E2 Hu]]]].
    rewrite E1. cbn [map]. intros H. injection H as <-. unfold tidy. cbn [family given].
    split; [apply clean_strip|]. split; [apply clean_strip|].
    split; [intros H; apply Hu; exact (@in_strip_by is_space u _ H)|].
    split; intros H; apply (@in_strip_by is_space) in H; apply Hp; rewrite E2;
      apply in_or_app; [now left|right; now right].
  - cbv zeta. destruct (rev (split_ws p)) as [|fam r] eqn:Er; [discriminate|].
    intros H. injection H as <-. unfold tidy. cbn [family given].
    assert (Hfam : In fam (split_ws p)) by (apply in_rev; rewrite Er; now left).
    destruct (@split_ws_tokens p fam Hfam) as [Hne [Hns Hsub]].
    apply contains_not_In in Ec.
    assert (Htok : forall t, In t (removelast (split_ws p)) ->
                     t <> [] /\ no_space t /\ forall c, In c t -> In c p).
    { intros t Ht. apply (@split_ws_tokens p t). now apply in_removelast. }
    split; [now apply no_space_clean|]. split.
    { destruct (removelast (split_ws p)) as [|t0 ts] eqn:El; [apply clean_nil|].
      destruct (@join_ends (lit " ") (t0 :: ts)) as [J1 J2]; [discriminate| |].
      - apply Forall_forall. intros t Ht. destruct (Htok t Ht) as [T1 [T2 _]].
        apply clean_ends; [now apply no_space_clean|exact T1].
      - now apply ends_clean. }
    split; [intros H; apply Ec; auto|]. split; [intros H; apply Hp; auto|].
    intros H. apply in_join in H. destruct H as [H|[t [Ht Hc]]].
    + destruct H as [H|[]]. discriminate.
    + destruct (Htok t Ht) as [_ [_ T3]]. apply Hp. auto.
Qed.

Lemma parse_author_show (x : author) : tidy x -> parse_author (show_author x) = Ok x.
Proof.
  intros [Hf [Hg [Hc _]]]. unfold parse_author, show_author.
  assert (E : contains (ch ",") (family x ++ lit "," ++ given x) = true).
  { apply contains_In. apply in_or_app. right. now left. }
  rewrite E. change (lit "," ++ given x) with (ch "," :: given x).
  rewrite (@split_once_app (ch ",") (family x) (given x) Hc). cbn [map].
  unfold clean in Hf, Hg. rewrite Hf, Hg. now destruct x.
Qed.

Lemma show_author_ends (x : author) :
  tidy x -> starts_clean (show_author x) /\ starts_clean (rev (show_author x)).
Proof.
  intros [Hf [Hg _]]. unfold show_author. split.
  - destruct (family x) as [|c f] eqn:E; [reflexivity|].
    apply starts_clean_app. rewrite <- E in *. apply clean_ends; [exact Hf|].
    rewrite E. discriminate.
  - change (lit "," ++ given x) with ([ch ","] ++ given x).
    rewrite !rev_app_distr, <- app_assoc.
    destruct (given x) as [|c g] eqn:E; [reflexivity|].
    apply starts_clean_app. rewrite <- E in *. apply clean_ends; [exact Hg|].
    rewrite E. discriminate.
Qed.

Lemma show_author_no_semicolon (x : author) : tidy x -> ~ In (ch ";") (show_author x).
Proof.
  intros [_ [_ [_ [H1 H2]]]]. unfold show_author. rewrite !in_app_iff.
  intros [H|[H|H]]; [auto| |auto]. destruct H as [H|[]]. discriminate.
Qed.

Lemma stripped_pieces (items : list str) :
  Forall (fun s => starts_clean s /\ starts_clean (rev s)) items ->
  map strip (filter (fun x => negb (is_empty (strip x))) items) = items.
Proof.
  induction items as [|s items IH]; [reflexivity|]. intros H.
  apply Forall_cons_iff in H. destruct H as [[H1 H2] Hl].
  cbn [filter]. rewrite (@ends_clean _ H1 H2).
  destruct s as [|c s]; [destruct H1|]. cbn [is_empty negb map].
  now rewrite (@ends_clean _ H1 H2), (IH Hl).
Qed.

Lemma for_each_show (l : list author) :
  Forall tidy l -> for_each parse_author (map show_author l) = Ok l.
Proof.
  induction l as [|x l IH]; [reflexivity|]. intros H.
  apply Forall_cons_iff in H. destruct H as [Hx Hl].
  cbn [map for_each]. now rewrite (@parse_author_show x Hx), (IH Hl).
Qed.

Lemma edited_authors_shown (l : list author) :
  Forall tidy l -> edited_authors (authors_field l) = Ok l.
Proof.
  intros H. destruct l as [|x l]; [reflexivity|].
  unfold authors_field. cbn [is_empty].
  change (map (fun x0 => family x0 ++ lit "," ++ given x0) (x :: l))
    with (map show_author (x :: l)).
  set (items := map show_author (x :: l)).
  assert (Hends : Forall (fun s => starts_clean s /\ starts_clean (rev s)) items).
  { apply Forall_forall. intros s Hs. apply in_map_iff in Hs.
    destruct Hs as [y [<- Hy]]. apply show_author_ends.
    exact (proj1 (Forall_forall _ _) H y Hy). }
  assert (Hsemi : Forall (fun s => ~ In (ch ";") s) items).
  { apply Forall_forall. intros s Hs. apply in_map_iff in Hs.
    destruct Hs as [y [<- Hy]]. apply show_author_no_semicolon.
    exact (proj1 (Forall_forall _ _) H y Hy). }
  destruct (@join_ends (lit ";") items) as [J1 J2]; [discriminate|exact Hends|].
  pose proof (@ends_clean _ J1 J2) as Hc. unfold clean in Hc.
  unfold edited_authors. cbv zeta. rewrite !Hc.
  destruct (join (lit ";") items) as [|c0 field] eqn:Ej; [destruct J1|].
  cbn [is_empty]. rewrite <- Ej. unfold segments.
  change (lit ";") with [ch ";"].
  rewrite (@split_join (ch ";") items); [|discriminate|exact Hsemi].
  rewrite (@stripped_pieces items Hends). now apply for_each_show.
Qed.

Lemma smart_parse_authors_tidy (raw : str) (l : list author) :
  smart_parse_authors raw = Ok l -> Forall tidy l.
Proof.
  unfold smart_parse_authors. destruct (is_empty raw).
  - intros H. injection H as <-. constructor.
  - apply for_each_Forall. intros p a Hp. apply parse_author_tidy.
    apply in_map_iff in Hp. destruct Hp as [x [<- Hx]].
    apply filter_In in Hx. destruct Hx as [Hx _].
    intros Hin. apply (@split_pieces_no_sep (ch ";") _ x Hx).
    exact (@in_strip_by _ x _ Hin).
Qed.

Lemma edited_authors_tidy (field : str) (l : list author) :
  edited_authors field = Ok l -> Forall tidy l.
Proof.
  unfold edited_authors. cbv zeta. destruct (is_empty (strip field)).
  - intros H. injection H as <-. constructor.
  - apply for_each_Forall. intros p a Hp. apply parse_author_tidy.
    unfold segments in Hp.
    apply in_map_iff in Hp. destruct Hp as [x [<- Hx]].
    apply filter_In in Hx. destruct Hx as [Hx _].
    intros Hin. apply (@split_pieces_no_sep (ch ";") _ x Hx).
    exact (@in_strip_by _ x _ Hin).
Qed.

Lemma ends_clean_parts (a m z : str) :
  starts_clean a -> starts_clean (rev z) -> clean (a ++ m ++ z).
Proof.
  intros Ha Hz. apply ends_clean; [now apply starts_clean_app|].
  rewrite !rev_app_distr, <- app_assoc. now apply starts_clean_app.
Qed.

Lemma class_run_ends (p : char -> bool) (cs : str) :
  (forall c, p c = true -> is_space c = false) ->
  forallb p cs = true -> cs <> [] -> starts_clean (rev cs).
Proof.
  intros Hp Hall Hne. rewrite <- forallb_rev in Hall.
  destruct (rev cs) as [|d r] eqn:E.
  - apply (f_equal (@rev char)) in E. rewrite rev_involutive in E. now subst cs.
  - simpl in Hall. apply andb_true_iff in Hall. destruct Hall as [Hd _].
    simpl. now apply Hp.
Qed.

Lemma doi_class_not_space (c : char) :
  (one_of (lit "-._;()/:") c || between "A" "Z" c || between "a" "z" c
   || between "0" "9" c) = true ->
  is_space c = false.
Proof.
  intros Hd. destruct (is_space c) eqn:Es; [|reflexivity].
  unfold is_space in Es. apply existsb_exists in Es.
  destruct Es as [k [Hin Hk]]. apply N.eqb_eq in Hk. subst k.
  simpl in Hin.
  repeat (destruct Hin as [<-|Hin]; [vm_compute in Hd; discriminate|]).
  destruct Hin.
Qed.

Lemma search_derives (r : regex) (text : str) (mo : match_object) :
  anchor_free r = true -> search r text = Some mo ->
  exists b rest, derives r b (fst mo) rest (snd mo).
Proof.
  intros Ha H. unfold search in H.
  destruct (@search_from_some r text Ha true mo H) as [pre [rest [b [_ [Hh _]]]]].
  apply hd_error_In, run_derives in Hh. destruct Hh as [_ [gs [Eg D]]].
  exists b, rest. now rewrite Eg, app_nil_r.
Qed.

Lemma scanned_doi_clean (text : str) : clean (scanned doi_re text).
Proof.
  unfold scanned. destruct (search doi_re text) as [mo|] eqn:E; [|apply clean_nil].
  destruct (@search_derives doi_re text mo eq_refl E) as [b [rest D]].
  destruct mo as [m g]. cbn [fst snd] in D. unfold doi_re in D.
  destruct D as [g0 [-> D]]. rewrite group_head.
  destruct D as [m1 [m2 [g1 [g2 [-> [_ [D1 D]]]]]]].
  apply derives_Lit in D1. destruct D1 as [-> _].
  destruct D as [m3 [m4 [g3 [g4 [-> [_ [_ D]]]]]]].
  destruct D as [m5 [m6 [g5 [g6 [-> [_ [_ D]]]]]]].
  destruct D as [[Hall [Hlo _]] _].
  rewrite (app_assoc m3). apply ends_clean_parts; [reflexivity|].
  apply (@class_run_ends _ m6 doi_class_not_space Hall).
  destruct m6; [simpl in Hlo; lia|discriminate].
Qed.

Lemma scanned_url_clean (text : str) : clean (scanned url_re text).
Proof.
  unfold scanned. destruct (search url_re text) as [mo|] eqn:E; [|apply clean_nil].
  destruct (@search_derives url_re text mo eq_refl E) as [b [rest D]].
  destruct mo as [m g]. cbn [fst snd] in D. unfold url_re in D.
  destruct D as [g0 [-> D]]. rewrite group_head.
  destruct D as [m1 [m2 [g1 [g2 [-> [_ [D1 D]]]]]]].
  apply derives_Lit in D1. destruct D1 as [-> _].
  destruct D as [m3 [m4 [g3 [g4 [-> [_ [_ D]]]]]]].
  destruct D as [m5 [m6 [g5 [g6 [-> [_ [_ D]]]]]]].
  destruct D as [[Hall [Hlo _]] _].
  rewrite (app_assoc m3). apply ends_clean_parts; [reflexivity|].
  apply (@class_run_ends (fun c => negb (is_space c)) m6).
  - intros c Hc. now destruct (is_space c).
  - exact Hall.
  - destruct m6; [simpl in Hlo; lia|discriminate].
Qed.

Lemma scanned_pages_clean (text : str) : clean (scanned_pages text).
Proof.
  unfold scanned_pages. pose proof (search_pages_re text) as H.
  destruct (search pages_re text) as [mo|]; [|apply clean_nil].
  destruct H as [pre [d1 [w1 [dash [w2 [d2 [post [E [_ [H1 [_ [_ [_ [H2 _]]]]]]]]]]]]]].
  rewrite E, replace_space_empty, !without_spaces_app.
  rewrite (@without_spaces_digits d1 (proj1 H1)), (@without_spaces_digits d2 (proj1 H2)).
  rewrite (app_assoc (without_spaces w1)), (app_assoc _ (without_spaces w2)).
  apply ends_clean_parts.
  - rewrite <- (app_nil_r d1). now apply starts_clean_digits.
  - rewrite <- (app_nil_r (rev d2)). apply starts_clean_digits. now apply digits_rev.
Qed.

Lemma year_shape_is_clean (y : str) : year_shape y -> clean y.
Proof. intros H. destruct (year_shape_clean H). now apply ends_clean. Qed.

Lemma scanned_year_clean (text : str) : clean (scanned_year text).
Proof.
  unfold scanned_year. pose proof (search_year_re text) as H.
  destruct (search year_re text) as [mo|]; [|apply clean_nil].
  destruct H as [pre [post [_ [Hy _]]]]. now apply year_shape_is_clean.
Qed.

Lemma item_pieces_clean (k : nat) (text : str) : clean (item k (pieces text)).
Proof.
  unfold item. destruct (nth_in_or_default k (pieces text) []) as [H| ->];
    [|apply clean_nil].
  assert (Hx : exists sep, In (nth k (pieces text) []) (segments sep text)).
  { unfold pieces in *. destruct (2 <=? length (segments (ch ".") text))%nat; eauto. }
  destruct Hx as [sep Hx]. apply segments_stripped in Hx.
  destruct Hx as [x [-> _]]. apply clean_strip.
Qed.

Lemma filled_settled (raw : str) (a : list author) (t j y : str) :
  Forall tidy a -> clean t -> clean j -> clean y -> settled (filled raw a t j y).
Proof.
  intros Ha Ht Hj Hy. unfold settled, filled.
  cbn [authors title journal volume issue pages year doi url raw_text].
  split; [exact Ha|]. split; [exact Ht|]. split; [exact Hj|].
  split; [apply clean_nil|]. split; [apply clean_nil|].
  split; [apply scanned_pages_clean|]. split; [exact Hy|].
  split; [apply scanned_doi_clean|]. split; [apply scanned_url_clean|].
  apply clean_strip.
Qed.

Lemma parse_citation_settled (raw : str) (r : citation) :
  parse_citation raw = Ok r -> settled r.
Proof.
  destruct (re_match apa (normalize raw)) as [mo|] eqn:Hm.
  - rewrite (@parse_citation_structured raw mo Hm).
    destruct (smart_parse_authors (group "authors" mo)) as [l|] eqn:El;
      simpl; [|discriminate].
    intros H. injection H as <-.
    destruct (@apa_match _ mo (normalize_no_line_feed raw) Hm)
      as [w1 [w2 [w3 [_ [_ [_ [Hy _]]]]]]].
    apply filled_settled; [exact (@smart_parse_authors_tidy _ l El)| | |].
    + apply clean_strip.
    + apply clean_strip.
    + now apply year_shape_is_clean.
  - rewrite (@parse_citation_fallback raw Hm). cbv zeta.
    match goal with |- bind ?x _ = _ -> _ => destruct x as [l|] eqn:El end;
      simpl; [|discriminate].
    intros H. injection H as <-.
    apply filled_settled.
    + destruct (is_empty (pieces (normalize raw))).
      * injection El as <-. constructor.
      * exact (@smart_parse_authors_tidy _ l El).
    + apply item_pieces_clean.
    + apply item_pieces_clean.
    + apply scanned_year_clean.
Qed.

Lemma strip_line_feed (s : str) : clean s -> strip (s ++ [LF]) = s.
Proof.
  intros H. unfold clean, strip in *. change (s ++ [LF]) with ([] ++ s ++ [LF]).
  now rewrite (@strip_by_margins is_space [] s [LF] eq_refl eq_refl).
Qed.

Lemma saved_shown (e : entry) :
  settled (data e) -> saved (shown e) (authors (data e)) e = e.
Proof.
  destruct e as [i [a t j v s p y d u w fs]]. unfold settled, saved, shown, clean.
  cbn [data id authors title journal volume issue pages year doi url raw_text files
       f_title f_authors f_year f_journal f_volume f_issue f_pages f_doi f_url raw_box].
  intros [_ [Ht [Hj [Hv [Hs [Hp [Hy [Hd [Hu Hw]]]]]]]]].
  rewrite Ht, Hj, Hv, Hs, Hp, Hy, Hd, Hu, (@strip_line_feed w Hw). reflexivity.
Qed.

Lemma set_nth_same (A : Type) (index : nat) (x : A) (l : list A) :
  nth_error l index = Some x -> set_nth index x l = l.
Proof.
  unfold set_nth. revert index. induction l as [|a l IH]; intros [|k];
    cbn [nth_error firstn skipn app]; try discriminate.
  - intros H. injection H as ->. reflexivity.
  - intros H. f_equal. now apply IH.
Qed.

Lemma saved_settled (f : form) (a : list author) (e : entry) :
  edited_authors (f_authors f) = Ok a -> settled (data (saved f a e)).
Proof.
  intros Ha. unfold settled, saved.
  cbn [data authors title journal volume issue pages year doi url raw_text].
  split; [exact (@edited_authors_tidy _ a Ha)|].
  repeat split; apply clean_strip.
Qed.

Lemma empty_citation_settled : settled empty_citation.
Proof. unfold settled, empty_citation. simpl. repeat split. constructor. Qed.

Lemma after_settled (st : manager) (c : command) :
  (forall e, In e (the_library st) -> settled (data e)) ->
  forall e, In e (the_library (after st c)) -> settled (data e).
Proof.
  intros Hst. unfold after.
  assert (Happ : forall r, settled r ->
            forall e, In e (the_library (append_entry r st)) -> settled (data e)).
  { intros r Hr e He. unfold append_entry in He. cbn [the_library] in He.
    apply in_app_or in He. destruct He as [He|[<-|[]]]; [now apply Hst|exact Hr]. }
  destruct c as [|answer|selection|selection f|style|selection paths]; cbn [step].
  - apply Happ. exact empty_citation_settled.
  - unfold add_from_string. destruct answer as [raw|]; [|exact Hst].
    destruct (is_empty raw); [exact Hst|].
    destruct (parse_citation raw) as [r|x] eqn:Er; [|exact Hst].
    apply Happ. exact (@parse_citation_settled raw r Er).
  - unfold delete_entry. destruct selection as [index|]; [|exact Hst].
    destruct (nth_error (the_library st) index) as [e0|]; [|exact Hst].
    cbn [the_library]. intros e He. apply Hst. exact (@in_pop _ _ _ _ He).
  - unfold save_changes. destruct selection as [index|]; [|exact Hst].
    destruct (nth_error (the_library st) index) as [e0|]; [|exact Hst].
    destruct (edited_authors (f_authors f)) as [a|x] eqn:Ea; cbn [bind];
      [|exact Hst].
    cbn [the_library]. intros e He.
    apply (@in_set_nth index e0 _ _ _) in He.
    destruct He as [->|He]; [|now apply Hst].
    exact (@saved_settled f a e0 Ea).
  - exact Hst.
  - unfold add_file. destruct selection as [index|]; [|exact Hst].
    destruct (nth_error (the_library st) index) as [e0|] eqn:He0; [|exact Hst].
    destruct (is_empty paths); [exact Hst|].
    cbn [the_library]. intros e He.
    apply (@in_set_nth index e0 _ _ _) in He.
    destruct He as [->|He]; [|now apply Hst].
    exact (Hst e0 (nth_error_In _ _ He0)).
Qed.

Lemma session_settled (cs : list command) (e : entry) :
  In e (the_library (session cs)) -> settled (data e).
Proof.
  revert e. induction cs as [|c cs IH] using rev_ind.
  - intros e [].
  - rewrite session_snoc. now apply after_settled.
Qed.

Lemma save_shown (index : nat) (e : entry) (st : manager) :
  nth_error (the_library st) index = Some e -> settled (data e) ->
  save_changes (Some index) (shown e) st = Ok st.
Proof.
  intros He Hs. unfold save_changes. rewrite He.
  change (f_authors (shown e)) with (authors_field (authors (data e))).
  rewrite (@edited_authors_shown (authors (data e)) (proj1 Hs)). cbn [bind].
  rewrite (@saved_shown e Hs), (@set_nth_same _ index e _ He). now destruct st.
Qed.

(** X12: saving without editing changes nothing.  In every state the
    manager reaches by adding (empty or parsed), deleting, saving and
    switching style, selecting a record fills the form, and saving that
    form back at once leaves the manager exactly as it was: authors, scalar
    fields, raw text, attachments and identifier of the record, the other
    records, the counter and the style.  The same holds right after the
    parser has added a record. *)
Theorem save_unedited (cs : list command) (index : nat) (e : entry) :
  nth_error (the_library (session cs)) index = Some e ->
  on_select (Some index) (session cs) = Ok (Some (shown e))
  /\ save_changes (Some index) (shown e) (session cs) = Ok (session cs)
  /\ after (session cs) (SaveChanges (Some index) (shown e)) = session cs.
Proof.
  intros He.
  assert (Hs : settled (data e)).
  { apply (@session_settled cs). exact (nth_error_In _ _ He). }
  pose proof (@save_shown index e _ He Hs) as H.
  split; [unfold on_select; now rewrite He|]. split; [exact H|].
  unfold after. cbn [step]. now rewrite H.
Qed.

Lemma save_unedited_witness :
  on_select (Some 0) (session [AddFromString (Some (lit "x, 120195"))])
  = Ok (Some (shown {| id := ref_id 1; data := sample_fallback_record |}))
  /\ save_changes (Some 0) (shown {| id := ref_id 1; data := sample_fallback_record |})
       (session [AddFromString (Some (lit "x, 120195"))])
     = Ok (session [AddFromString (Some (lit "x, 120195"))])
  /\ after (session [AddFromString (Some (lit "x, 120195"))])
       (SaveChanges (Some 0) (shown {| id := ref_id 1; data := sample_fallback_record |}))
     = session [AddFromString (Some (lit "x, 120195"))].
Proof.
  apply save_unedited. vm_compute. reflexivity.
Defined.

(** X13: the authors the parser returns, and the authors a save reads
    from the form, survive the form: shown as [family,given;family,given]
    and read back by the author loop of [save_changes], they are the same
    list.  Each of them has trimmed names, no comma in the family name and no
    semicolon in either name. *)
Theorem authors_round_trip (text : str) (l : list author) :
  smart_parse_authors text = Ok l \/ edited_authors text = Ok l ->
  Forall tidy l /\ edited_authors (authors_field l) = Ok l.
Proof.
  intros H.
  assert (Ht : Forall tidy l).
  { destruct H as [H|H];
      [exact (@smart_parse_authors_tidy _ l H)|exact (@edited_authors_tidy _ l H)]. }
  split; [exact Ht|]. now apply edited_authors_shown.
Qed.

Lemma authors_round_trip_witness :
  Forall tidy [ {| family := lit "Smith"; given := lit "J" |};
                {| family := lit "Doe"; given := lit "A. B" |} ]
  /\ edited_authors
       (authors_field [ {| family := lit "Smith"; given := lit "J" |};
                        {| family := lit "Doe"; given := lit "A. B" |} ])
     = Ok [ {| family := lit "Smith"; given := lit "J" |};
            {| family := lit "Doe"; given := lit "A. B" |} ].
Proof.
  apply (@authors_round_trip (lit "Smith, J. and Doe, A. B.")).
  left. vm_compute. reflexivity.
Defined.

(** * Attachments *)

Lemma session_counter (cs later : list command) :
  next_id (session cs) <= next_id (session (cs ++ later)).
Proof.
  induction later as [|c later IH] using rev_ind.
  - now rewrite app_nil_r.
  - rewrite app_assoc, session_snoc.
    destruct (session_identifiers (cs ++ later)) as [Hnd Hiss].
    destruct (@after_identifiers _ c Hnd Hiss) as [_ [_ [Hle _]]]. lia.
Qed.

Lemma after_files (st : manager) (c : command) (e' : entry) :
  In e' (the_library (after st c)) ->
  (exists e more,
      In e (the_library st) /\ id e = id e' /\
      files (data e') = files (data e) ++ more)
  \/ id e' = ref_id (next_id st).
Proof.
  assert (Hsame : In e' (the_library st) ->
            (exists e more,
                In e (the_library st) /\ id e = id e' /\
                files (data e') = files (data e) ++ more)
            \/ id e' = ref_id (next_id st)).
  { intros H. left. exists e', []. now rewrite app_nil_r. }
  assert (Happ : forall r, In e' (the_library (append_entry r st)) ->
            (exists e more,
                In e (the_library st) /\ id e = id e' /\
                files (data e') = files (data e) ++ more)
            \/ id e' = ref_id (next_id st)).
  { intros r H. unfold append_entry in H. cbn [the_library] in H.
    apply in_app_or in H. destruct H as [H|[<-|[]]]; [now apply Hsame|now right]. }
  unfold after.
  destruct c as [|answer|selection|selection f|style|selection paths]; cbn [step].
  - apply Happ.
  - unfold add_from_string. destruct answer as [raw|]; [|exact Hsame].
    destruct (is_empty raw); [exact Hsame|].
    destruct (parse_citation raw) as [r|x]; cbn [bind]; [apply Happ|exact Hsame].
  - unfold delete_entry. destruct selection as [index|]; [|exact Hsame].
    destruct (nth_error (the_library st) index) as [e0|]; [|exact Hsame].
    cbn [the_library]. intros H. apply Hsame. exact (@in_pop _ _ _ _ H).
  - unfold save_changes. destruct selection as [index|]; [|exact Hsame].
    destruct (nth_error (the_library st) index) as [e0|] eqn:He0; [|exact Hsame].
    destruct (edited_authors (f_authors f)) as [a|x]; cbn [bind]; [|exact Hsame].
    cbn [the_library]. intros H. apply (@in_set_nth index e0 _ _ _) in H.
    destruct H as [->|H]; [|now apply Hsame].
    left. exists e0, []. split; [exact (nth_error_In _ _ He0)|].
    split; [reflexivity|]. cbn. now rewrite app_nil_r.
  - exact Hsame.
  - unfold add_file. destruct selection as [index|]; [|exact Hsame].
    destruct (nth_error (the_library st) index) as [e0|] eqn:He0; [|exact Hsame].
    destruct (is_empty paths); [exact Hsame|].
    cbn [the_library]. intros H. apply (@in_set_nth index e0 _ _ _) in H.
    destruct H as [->|H]; [|now apply Hsame].
    left. exists e0, paths. split; [exact (nth_error_In _ _ He0)|].
    split; reflexivity.
Qed.

(** X14: as long as no library file is loaded, attachments are not lost
    while a record lives: in a session of [add_entry], [add_from_string],
    [delete_entry], [save_changes], [add_file] and [set_style], whatever
    these callbacks do after a state (adding, deleting other records, saving
    this or another record from any form, attaching files, switching style),
    a record found later under the same identifier still has the attachments
    it had, in the same order, possibly followed by new ones.  ([load_txt]
    replaces the library and is outside these sessions.) *)
Theorem attachments_kept (cs later : list command) (e e' : entry) :
  In e (the_library (session cs)) ->
  In e' (the_library (session (cs ++ later))) ->
  id e' = id e ->
  exists more, files (data e') = files (data e) ++ more.
Proof.
  intros He. revert e'. induction later as [|c later IH] using rev_ind; intros e' He' Hid.
  - rewrite app_nil_r in He'. destruct (session_identifiers cs) as [Hnd _].
    pose proof (@lookup_unique _ e Hnd He) as L1.
    pose proof (@lookup_unique _ e' Hnd He') as L2.
    rewrite Hid, L1 in L2. injection L2 as <-. exists []. now rewrite app_nil_r.
  - rewrite app_assoc, session_snoc in He'.
    apply after_files in He'. destruct He' as [[e1 [more1 [H1 [Hid1 Hf1]]]]|Hnew].
    + destruct (IH e1 H1) as [more0 Hf0]; [congruence|].
      exists (more0 ++ more1). now rewrite Hf1, Hf0, app_assoc.
    + exfalso. destruct (session_identifiers cs) as [_ Hiss].
      destruct (Hiss e He) as [n [Hn En]].
      rewrite Hid, En in Hnew. apply ref_id_injective in Hnew.
      pose proof (session_counter cs later). lia.
Qed.

Lemma attachments_kept_witness :
  exists more,
    files (data {| id := ref_id 1;
                   data := {| authors := []; title := lit "T"; journal := [];
                              volume := []; issue := []; pages := []; year := [];
                              doi := []; url := []; raw_text := [];
                              files := [lit "a.pdf"; lit "b.pdf"] |} |})
    = files (data {| id := ref_id 1;
                     data := {| authors := []; title := []; journal := [];
                                volume := []; issue := []; pages := []; year := [];
                                doi := []; url := []; raw_text := [];
                                files := [lit "a.pdf"] |} |})
      ++ more.
Proof.
  apply (@attachments_kept
           [AddEntry; AddFile (Some 0) [lit "a.pdf"]]
           [SaveChanges (Some 0)
              {| f_title := lit " T "; f_authors := []; f_year := []; f_journal := [];
                 f_volume := []; f_issue := []; f_pages := []; f_doi := [];
                 f_url := []; raw_box := [LF] |};
            AddEntry;
            AddFile (Some 0) [lit "b.pdf"]]).
  - vm_compute. left. reflexivity.
  - vm_compute. left. reflexivity.
  - reflexivity.
Defined.

(** * The processed document *)

Lemma length_flat_map_le (A B : Type) (f : A -> list B) (l : list A) :
  (forall x, length (f x) <= 1) -> length (flat_map f l) <= length l.
Proof.
  intros Hf. induction l as [|x l IH]; [simpl; lia|].
  simpl. rewrite length_app. specialize (Hf x). lia.
Qed.

(** X15: the document [process_docx] saves is the resolved blocks, in
    their order and with their styles, then one heading, then the reference
    lines: one [Normal] block per numbered raw id that has a record, in the
    order of first appearance of the raw ids (the sort of [insert_refs] never
    reorders the map pass 1 returns), so never more lines than distinct raw
    ids.  A document without [[id:] only gains the heading. *)
Theorem process_docx_layout (doc : document) (st : manager) :
  process_docx doc st
  = map (fun p =>
           set_text (resolve (the_library st) (current_style st)
                       (numbered (all_ids doc)) (text p)) p) doc
    ++ {| style_of := Heading 1; text := heading_for (current_style st) |}
    :: flat_map (line_of (the_library st)) (numbered (all_ids doc))
  /\ sorted_by_number (numbered (all_ids doc)) = numbered (all_ids doc)
  /\ Forall (fun p => style_of p = Normal)
       (flat_map (line_of (the_library st)) (numbered (all_ids doc)))
  /\ length (flat_map (line_of (the_library st)) (numbered (all_ids doc)))
     <= length (nodup str_eq_dec (all_ids doc))
  /\ ((forall p, In p doc -> ~ occurs (lit "[id:") (text p)) ->
      process_docx doc st
      = doc ++ [ {| style_of := Heading 1; text := heading_for (current_style st) |} ]).
Proof.
  pose proof (@sorted_by_number_ascending (numbered (all_ids doc)) 1
                (numbered_numbers (all_ids doc))) as Hsort.
  assert (E : process_docx doc st
              = map (fun p =>
                       set_text (resolve (the_library st) (current_style st)
                                   (numbered (all_ids doc)) (text p)) p) doc
                ++ {| style_of := Heading 1; text := heading_for (current_style st) |}
                :: flat_map (line_of (the_library st)) (numbered (all_ids doc))).
  { unfold process_docx, replace_ids, insert_refs, reference_lines. cbn [fst snd].
    rewrite number_ids_numbered, Hsort. reflexivity. }
  split; [exact E|]. split; [exact Hsort|]. split; [|split].
  - apply Forall_forall. intros p Hp. apply in_flat_map in Hp.
    destruct Hp as [kv [_ Hp]]. unfold line_of in Hp.
    destruct (lookup (the_library st) (fst kv)); [|destruct Hp].
    destruct Hp as [<-|[]]. reflexivity.
  - rewrite <- numbered_size. apply length_flat_map_le.
    intros kv. unfold line_of. destruct (lookup (the_library st) (fst kv)); simpl; lia.
  - intros Hall. rewrite E.
    assert (Hids : all_ids doc = []).
    { destruct (all_ids doc) as [|rid ids] eqn:Ei; [reflexivity|]. exfalso.
      assert (Hin : In rid (all_ids doc)) by (rewrite Ei; now left).
      apply all_ids_tokens in Hin. destruct Hin as [_ [_ [p [pre [post [Hp Ht]]]]]].
      apply (Hall p Hp). apply (@placeholder_occurs rid). now exists pre, post. }
    rewrite Hids. cbn [numbered fold_left fst flat_map]. f_equal.
    rewrite <- (map_id doc) at 2. apply map_ext. intros p. apply set_text_same.
Qed.

(** * The address and the DOI of a record *)

Lemma plus_head (p : char -> bool) (b : bool) (s : str) (g : groups)
    (m rest : str) (g' : groups) :
  hd_error (run (plus p) b s g) = Some (m, rest, g') -> stops p rest.
Proof.
  unfold plus. cbn [run]. rewrite hd_error_map. intros H.
  match type of H with
  | option_map _ ?x = _ => destruct x as [[m' rest']|] eqn:Er
  end; [|simpl in H; discriminate].
  simpl in H. injection H as _ -> _.
  apply rep_greedy_head in Er. destruct Er as [Er|[->|[c' [rest' [-> Hc']]]]].
  - discriminate.
  - exact I.
  - exact Hc'.
Qed.

Lemma scan_head (n : string) (A B C : regex) (p : char -> bool) (b : bool)
    (s m rest : str) (g : groups) :
  hd_error (run (Grp n (A >> B >> C >> plus p)) b s []) = Some (m, rest, g) ->
  group n (m, g) = m /\ stops p rest.
Proof.
  intros H. apply run_grp_head in H. destruct H as [g0 [-> H]].
  split; [apply group_head|].
  apply run_seq_head in H. destruct H as [? [? [? [? [? [? [_ [_ [H _]]]]]]]]].
  apply run_seq_head in H. destruct H as [? [? [? [? [? [? [_ [_ [H _]]]]]]]]].
  apply run_seq_head in H. destruct H as [? [? [? [? [? [? [_ [_ [H _]]]]]]]]].
  exact (plus_head _ _ _ _ H).
Qed.

Lemma lang_doi_re (d : str) : lang doi_re d <-> doi_shape d.
Proof.
  unfold doi_shape.
  change (lang doi_re d) with
    (exists m1 m2, d = m1 ++ m2 /\ lang (Lit (lit "10.")) m1 /\
     exists m3 m4, m2 = m3 ++ m4 /\
       (forallb is_decimal m3 = true /\ 4 <= length m3 /\ length m3 <= 9) /\
     exists m5 m6, m4 = m5 ++ m6 /\ (exists c, m5 = [c] /\ (ch "/" =? c)%N = true) /\
       (forallb doi_class m6 = true /\ 1 <= length m6 /\ True)).
  split.
  - intros [m1 [m2 [-> [L1 H]]]]. destruct H as [m3 [m4 [-> [[H3 [Hlo Hhi]] H]]]].
    destruct H as [m5 [m6 [-> [[c [-> Hc]] [H6 [Hl _]]]]]].
    apply lang_Lit in L1. subst m1. apply N.eqb_eq in Hc. subst c.
    exists m3, m6. split; [reflexivity|]. split; [exact H3|]. split; [lia|].
    split; [|exact H6]. destruct m6; [simpl in Hl; lia|discriminate].
  - intros [ds [cs [-> [H3 [Hl [Hne H6]]]]]].
    exists (lit "10."), (ds ++ lit "/" ++ cs). split; [reflexivity|].
    split; [now apply lang_Lit|].
    exists ds, (lit "/" ++ cs). split; [reflexivity|]. split; [repeat split; [exact H3|lia|lia]|].
    exists (lit "/"), cs. split; [reflexivity|]. split.
    + exists (ch "/"). split; [reflexivity|apply N.eqb_refl].
    + split; [exact H6|]. split; [|exact I]. destruct cs; [congruence|simpl; lia].
Qed.

Lemma lang_url_re (u : str) : lang url_re u <-> url_shape u.
Proof.
  unfold url_shape.
  change (lang url_re u) with
    (exists m1 m2, u = m1 ++ m2 /\ lang (Lit (lit "http")) m1 /\
     exists m3 m4, m2 = m3 ++ m4 /\
       (forallb (N.eqb (ch "s")) m3 = true /\ 0 <= length m3 /\ length m3 <= 1) /\
     exists m5 m6, m4 = m5 ++ m6 /\ lang (Lit (lit "://")) m5 /\
       (forallb (fun c => negb (is_space c)) m6 = true /\ 1 <= length m6 /\ True)).
  split.
  - intros [m1 [m2 [-> [L1 H]]]]. destruct H as [m3 [m4 [-> [[H3 [_ Hhi]] H]]]].
    destruct H as [m5 [m6 [-> [L5 [H6 [Hl _]]]]]].
    apply lang_Lit in L1, L5. subst m1 m5.
    exists m3, m6. split.
    { destruct m3 as [|c [|? ?]]; [now left| |simpl in Hhi; lia].
      right. cbn [forallb] in H3. rewrite andb_true_r in H3.
      apply N.eqb_eq in H3. now subst c. }
    split; [reflexivity|]. split; [|exact H6].
    destruct m6; [simpl in Hl; lia|discriminate].
  - intros [s [cs [Hs [-> [Hne H6]]]]].
    exists (lit "http"), (s ++ lit "://" ++ cs). split; [reflexivity|].
    split; [now apply lang_Lit|].
    exists s, (lit "://" ++ cs). split; [reflexivity|]. split.
    { destruct Hs as [-> | ->]; simpl; repeat split; lia. }
    exists (lit "://"), cs. split; [reflexivity|]. split; [now apply lang_Lit|].
    split; [exact H6|]. split; [|exact I]. destruct cs; [congruence|simpl; lia].
Qed.

Lemma doi_shape_no_space (d : str) : doi_shape d -> no_space d /\ d <> [].
Proof.
  intros [ds [cs [-> [H3 [_ [_ H6]]]]]]. split; [|discriminate].
  unfold no_space. rewrite !forallb_app. rewrite (digits_no_space _ H3).
  assert (H : forallb (fun c => negb (is_space c)) cs = true).
  { apply forallb_forall. intros c Hc. rewrite forallb_forall in H6.
    now rewrite (doi_class_not_space _ (H6 c Hc)). }
  now rewrite H.
Qed.

Lemma url_shape_no_space (u : str) : url_shape u -> no_space u /\ u <> [].
Proof.
  intros [s [cs [Hs [-> [_ H6]]]]]. split; [|discriminate].
  unfold no_space in *. rewrite !forallb_app, H6.
  destruct Hs as [-> | ->]; reflexivity.
Qed.

Section Scan.

Variable r : regex.
Variable shape : str -> Prop.
Variable p : char -> bool.

Hypothesis r_anchor_free : anchor_free r = true.
Hypothesis r_lang : forall m, lang r m <-> shape m.
Hypothesis r_head :
  forall b s m rest g,
    hd_error (run r b s []) = Some (m, rest, g) ->
    group "1" (m, g) = m /\ stops p rest.
Hypothesis shape_no_space : forall y, shape y -> no_space y /\ y <> [].
Hypothesis space_outside : forall c, is_space c = true -> p c = false.

Lemma scan_shape_clean (y : str) : shape y -> starts_clean y /\ starts_clean (rev y).
Proof.
  intros H. destruct (shape_no_space H) as [Hn Hne].
  apply clean_ends; [now apply no_space_clean|exact Hne].
Qed.

Lemma scan_shape_unfold (y : str) : shape (map unfold_line y) <-> shape y.
Proof.
  split; intros H.
  - destruct (shape_no_space H) as [Hn _].
    now rewrite (map_unfold_line_inv y Hn eq_refl).
  - destruct (shape_no_space H) as [Hn _].
    now rewrite (map_unfold_line_no_space Hn).
Qed.

Lemma search_scan (text : str) :
  match search r text with
  | Some mo =>
      exists pre post, leftmost shape text pre (group "1" mo) post /\ stops p post
  | None => absent shape text
  end.
Proof.
  unfold search. destruct (search_from r true text) as [[m g]|] eqn:E.
  - apply search_from_some in E; [|exact r_anchor_free].
    destruct E as [pre [rest [b' [Es [Hh Hleft]]]]]. cbn [fst snd] in Es, Hh.
    pose proof (hd_error_In _ Hh) as Hin. apply run_sound in Hin.
    destruct Hin as [_ L].
    apply r_head in Hh. destruct Hh as [-> Hstop].
    exists pre, rest. split; [|exact Hstop].
    split; [assumption|]. split; [now apply r_lang|].
    intros pre' y' post' E' Hy'. apply (Hleft pre' y' post' E').
    now apply r_lang.
  - intros pre y post Es Hy.
    apply (@search_from_none r text r_anchor_free true E pre y post Es).
    now apply r_lang.
Qed.

Lemma scanned_leftmost (raw : str) :
  (exists pre post,
      leftmost shape raw pre (scanned r (normalize raw)) post /\ stops p post)
  \/ (absent shape raw /\ scanned r (normalize raw) = []).
Proof.
  unfold scanned. pose proof (search_scan (normalize raw)) as Hs.
  destruct (search r (normalize raw)) as [mo|].
  - left. destruct Hs as [pre [post [Hl Hstop]]].
    destruct (@leftmost_of_normalized shape scan_shape_clean scan_shape_unfold
                raw pre _ post Hl) as [pre0 [y0 [post0 [b [Hl0 [Ey [Hb Eq]]]]]]].
    destruct Hl as [_ [Hy _]]. destruct (shape_no_space Hy) as [Hn _].
    rewrite (map_unfold_line_inv y0 Hn Ey) in Hl0.
    exists pre0, post0. split; [exact Hl0|].
    destruct post0 as [|c0 post0]; [exact I|]. cbn [stops].
    destruct (is_space c0) eqn:Ec; [now apply space_outside|].
    assert (Eu : unfold_line c0 = c0).
    { destruct (unfold_line_cases c0) as [[-> _]|Eu]; [discriminate|exact Eu]. }
    cbn [map] in Eq. rewrite Eu in Eq.
    destruct post as [|c post].
    + cbn [app] in Eq. subst b. simpl in Hb. rewrite Ec in Hb. discriminate.
    + injection Eq as -> _. exact Hstop.
  - right. split; [|reflexivity].
    exact (@absent_of_normalized shape scan_shape_clean scan_shape_unfold raw Hs).
Qed.

End Scan.

Lemma filled_fields (raw : str) (r : citation) :
  parse_citation raw = Ok r ->
  doi r = scanned doi_re (normalize raw) /\ url r = scanned url_re (normalize raw).
Proof.
  intros H. destruct (parse_citation_filled raw H) as [a [t [j [y ->]]]].
  split; reflexivity.
Qed.

(** X16: the address of every record the parser returns is the leftmost
    part of the original text that reads [http://] or [https://] followed
    by one or more characters that are not whitespace, taken up to the next
    whitespace character or the end of the text; it is empty when the text
    has no such part. *)
Theorem url_field (raw : str) (r : citation) :
  parse_citation raw = Ok r ->
  (exists pre post,
      leftmost url_shape raw pre (url r) post /\
      match post with c :: _ => is_space c = true | [] => True end)
  \/ (absent url_shape raw /\ url r = []).
Proof.
  intros H. destruct (filled_fields raw H) as [_ ->].
  destruct (@scanned_leftmost url_re url_shape (fun c => negb (is_space c))
              eq_refl lang_url_re
              (fun b s m rest g =>
                 @scan_head "1" _ _ _ (fun c => negb (is_space c)) b s m rest g)
              url_shape_no_space
              (fun c Hc => f_equal negb Hc) raw)
    as [[pre [post [Hl Hs]]]|Ha]; [left|now right].
  exists pre, post. split; [exact Hl|].
  destruct post as [|c post]; [exact I|]. cbn [stops] in Hs.
  now destruct (is_space c).
Qed.

Lemma url_field_witness :
  exists pre post,
    leftmost url_shape (lit "x, see https://doi.org/10.1000/xyz. y") pre
      (lit "https://doi.org/10.1000/xyz.") post /\
    match post with c :: _ => is_space c = true | [] => True end.
Proof.
  destruct (@url_field (lit "x, see https://doi.org/10.1000/xyz. y")
              sample_linked_record eq_refl) as [H|[_ H]].
  - exact H.
  - discriminate H.
Defined.

(** X17: the DOI of every record the parser returns is the leftmost part
    of the original text that reads [10.], four to nine decimal digits, a
    slash and one or more characters among [-._;()/:], letters [A-Z],
    [a-z] and digits [0-9], taken up to the first character outside that
    class or the end of the text (so a full stop that ends the sentence is
    part of it); it is empty when the text has no such part. *)
Theorem doi_field (raw : str) (r : citation) :
  parse_citation raw = Ok r ->
  (exists pre post,
      leftmost doi_shape raw pre (doi r) post /\ stops doi_class post)
  \/ (absent doi_shape raw /\ doi r = []).
Proof.
  intros H. destruct (filled_fields raw H) as [-> _].
  apply (@scanned_leftmost doi_re doi_shape doi_class eq_refl lang_doi_re
           (fun b s m rest g => @scan_head "1" _ _ _ doi_class b s m rest g)
           doi_shape_no_space).
  intros c Hc. destruct (doi_class c) eqn:E; [|reflexivity].
  apply doi_class_not_space in E. congruence.
Qed.

Lemma doi_field_witness :
  exists pre post,
    leftmost doi_shape (lit "x, see https://doi.org/10.1000/xyz. y") pre
      (lit "10.1000/xyz.") post /\
    stops doi_class post.
Proof.
  destruct (@doi_field (lit "x, see https://doi.org/10.1000/xyz. y")
              sample_linked_record eq_refl) as [H|[_ H]].
  - exact H.
  - discriminate H.
Defined.

(** * The fallback stages *)

Lemma pieces_stripped (text x : str) : In x (pieces text) -> x <> [] /\ clean x.
Proof.
  intros H.
  assert (Hx : exists sep, In x (segments sep text)).
  { unfold pieces in H. destruct (2 <=? length (segments (ch ".") text))%nat; eauto. }
  destruct Hx as [sep Hx]. apply segments_stripped in Hx.
  destruct Hx as [y [-> Hy]]. split; [exact Hy|apply clean_strip].
Qed.

Lemma item_present (k : nat) (text : str) :
  item k (pieces text) <> [] <-> k < length (pieces text).
Proof.
  unfold item. split.
  - intros H. destruct (Nat.lt_ge_cases k (length (pieces text))) as [L|L]; [exact L|].
    now rewrite nth_overflow in H.
  - intros L. exact (proj1 (@pieces_stripped text _ (nth_In _ _ L))).
Qed.

(** X18: when the structured stage does not match, both fallback stages
    fill the record alike from their pieces (the trimmed, non-blank texts
    between full stops when there are two or more of them, else between
    commas): the authors are parsed from the first piece, the title is the
    second and the journal the third; a piece that is missing gives an empty
    field and no exception, pieces after the third are ignored, and so the
    title is empty exactly when there are fewer than two pieces, the journal
    exactly when there are fewer than three. *)
Theorem fallback_fields (raw : str) (r : citation) :
  parse_citation raw = Ok r ->
  re_match apa (normalize raw) = None ->
  ((pieces (normalize raw) = [] /\ authors r = [])
   \/ (pieces (normalize raw) <> []
       /\ smart_parse_authors (item 0 (pieces (normalize raw))) = Ok (authors r)))
  /\ title r = item 1 (pieces (normalize raw))
  /\ journal r = item 2 (pieces (normalize raw))
  /\ (title r <> [] <-> 2 <= length (pieces (normalize raw)))
  /\ (journal r <> [] <-> 3 <= length (pieces (normalize raw)))
  /\ Forall (fun x => x <> [] /\ clean x) (pieces (normalize raw)).
Proof.
  intros H Hm. rewrite (@parse_citation_fallback raw Hm) in H. cbv zeta in H.
  set (l := pieces (normalize raw)) in *.
  destruct l as [|x l'] eqn:El.
  - cbn [is_empty bind] in H. injection H as <-. cbn [authors title journal filled].
    split; [left; auto|]. split; [reflexivity|]. split; [reflexivity|].
    unfold item. cbn [nth length].
    split; [split; [intros F; now contradiction F|lia]|].
    split; [split; [intros F; now contradiction F|lia]|]. constructor.
  - cbn [is_empty] in H. rewrite <- El in *.
    destruct (smart_parse_authors (item 0 l)) as [a|] eqn:Ea; cbn [bind] in H;
      [|discriminate].
    injection H as <-. cbn [authors title journal filled].
    split; [right; split; [rewrite El; discriminate|reflexivity]|].
    split; [reflexivity|]. split; [reflexivity|].
    split; [exact (item_present 1 (normalize raw))|].
    split; [exact (item_present 2 (normalize raw))|].
    apply Forall_forall. intros y Hy. exact (@pieces_stripped (normalize raw) y Hy).
Qed.

Lemma fallback_fields_witness :
  ((pieces (normalize (lit "x, 120195")) = [] /\ authors sample_fallback_record = [])
   \/ (pieces (normalize (lit "x, 120195")) <> []
       /\ smart_parse_authors (item 0 (pieces (normalize (lit "x, 120195"))))
          = Ok (authors sample_fallback_record)))
  /\ title sample_fallback_record = item 1 (pieces (normalize (lit "x, 120195")))
  /\ journal sample_fallback_record = item 2 (pieces (normalize (lit "x, 120195")))
  /\ (title sample_fallback_record <> []
      <-> 2 <= length (pieces (normalize (lit "x, 120195"))))
  /\ (journal sample_fallback_record <> []
      <-> 3 <= length (pieces (normalize (lit "x, 120195"))))
  /\ Forall (fun x => x <> [] /\ clean x) (pieces (normalize (lit "x, 120195"))).
Proof.
  apply fallback_fields; vm_compute; reflexivity.
Defined.

(** * Deleting a record *)

Lemma pop_split (A : Type) (index : nat) (l : list A) (x : A) :
  nth_error l index = Some x ->
  l = firstn index l ++ x :: skipn (S index) l.
Proof.
  revert index. induction l as [|a l IH]; intros [|k]; cbn [nth_error firstn skipn app];
    try discriminate.
  - intros H. injection H as ->. reflexivity.
  - intros H. f_equal. now apply IH.
Qed.

Lemma pop_removes (A : Type) (index : nat) (l : list A) (x : A) :
  NoDup l -> nth_error l index = Some x -> ~ In x (pop index l).
Proof.
  intros Hnd Hx. rewrite (pop_split _ _ Hx) in Hnd. unfold pop.
  exact (NoDup_remove_2 _ _ _ Hnd).
Qed.

Lemma pop_keeps (A : Type) (index : nat) (l : list A) (x y : A) :
  nth_error l index = Some x -> In y l -> y <> x -> In y (pop index l).
Proof.
  intros Hx Hy Hne. rewrite (pop_split _ _ Hx) in Hy. unfold pop.
  apply in_app_or in Hy. apply in_or_app.
  destruct Hy as [Hy|[Hy|Hy]]; [now left|congruence|now right].
Qed.

Lemma length_pop (A : Type) (index : nat) (l : list A) (x : A) :
  nth_error l index = Some x -> length (pop index l) + 1 = length l.
Proof.
  intros Hx. rewrite (pop_split _ _ Hx) at 2. unfold pop.
  rewrite !length_app. cbn [length]. lia.
Qed.

(** X19: in every state of the manager whose records have pairwise
    distinct identifiers (all the states reached from a fresh manager by
    [add_entry], [add_from_string], [delete_entry], [save_changes],
    [add_file] and [set_style] are such, by [session_identifiers]; a loaded
    library file need not be), deleting a selected record returns, removes
    that record and no other, and frees no number: the identifier of the
    deleted record is the identifier of no record any more (a placeholder
    for it finds nothing), every other record is still found under its
    identifier, and the counter and the style are unchanged.  With no
    selection nothing happens; with a row beyond the library the callback
    raises [IndexError]. *)
Theorem delete_entry_removes (st : manager) (index : nat) :
  NoDup (map id (the_library st)) ->
  match nth_error (the_library st) index with
  | Some e =>
      exists st',
        delete_entry (Some index) st = Ok st' /\
        lookup (the_library st') (id e) = None /\
        (forall e1, In e1 (the_library st) -> e1 <> e ->
                    lookup (the_library st') (id e1) = Some e1) /\
        length (the_library st') + 1 = length (the_library st) /\
        next_id st' = next_id st /\
        current_style st' = current_style st
  | None => delete_entry (Some index) st = Raise IndexError
  end
  /\ delete_entry None st = Ok st.
Proof.
  intros Hnd. split; [|reflexivity]. unfold delete_entry.
  destruct (nth_error (the_library st) index) as [e|] eqn:He; [|reflexivity].
  eexists. split; [reflexivity|]. cbn [the_library next_id current_style].
  assert (Hnd' : NoDup (map id (pop index (the_library st))))
    by (rewrite map_pop; now apply nodup_pop).
  split; [|split; [|split; [|split; reflexivity]]].
  - destruct (lookup (pop index (the_library st)) (id e)) as [x|] eqn:Ex; [|reflexivity].
    exfalso. unfold lookup in Ex. apply find_some in Ex. destruct Ex as [Hin Hid].
    apply str_eqb_eq in Hid.
    assert (x = e).
    { pose proof (@lookup_unique _ x Hnd (@in_pop _ _ _ _ Hin)) as L1.
      pose proof (@lookup_unique _ e Hnd (nth_error_In _ _ He)) as L2.
      rewrite Hid, L2 in L1. now injection L1. }
    subst x.
    exact (@pop_removes _ index _ e (NoDup_map_inv _ _ Hnd) He Hin).
  - intros e1 H1 Hne. apply (@lookup_unique _ e1 Hnd').
    exact (@pop_keeps _ index _ e e1 He H1 Hne).
  - exact (@length_pop _ index _ e He).
Qed.

Lemma delete_entry_removes_witness :
  (exists st',
      delete_entry (Some 0) (session [AddEntry; AddFromString (Some (lit "x, 120195"))])
      = Ok st' /\
      lookup (the_library st') (ref_id 1) = None /\
      (forall e1,
          In e1 (the_library (session [AddEntry; AddFromString (Some (lit "x, 120195"))])) ->
          e1 <> {| id := ref_id 1; data := empty_citation |} ->
          lookup (the_library st') (id e1) = Some e1) /\
      length (the_library st') + 1 = 2 /\
      next_id st' = 3 /\
      current_style st' = APA7)
  /\ delete_entry None (session [AddEntry; AddFromString (Some (lit "x, 120195"))])
     = Ok (session [AddEntry; AddFromString (Some (lit "x, 120195"))]).
Proof.
  apply (@delete_entry_removes
           (session [AddEntry; AddFromString (Some (lit "x, 120195"))]) 0).
  vm_compute. repeat constructor; simpl; intuition discriminate.
Defined.
